(** * Camera PPG vital-signs pipeline: heart-rate monitor and AI processing visualizer

    A shallow embedding of the signal-processing functions and of the
    start/stop controller code of the two React components

    - [HeartRateMonitor]        (the heart-rate monitor component), and
    - [AIProcessingVisualizer]  (components/analysis/ai-processing-visualizer.tsx).

    JavaScript numbers are IEEE 754 binary64 values; they are embedded as
    Rocq's primitive floats, so every definition below evaluates to exactly
    the value the TypeScript code computes. *)

From Stdlib Require Import String ZArith List Bool Floats Lia.
Import ListNotations.

Set Warnings "-inexact-float".

(* ================================================================== *)
(** * JavaScript number primitives *)
(* ================================================================== *)

Module JS.

Local Open Scope float_scope.

(** An integer as a JavaScript number: the nearest binary64 value (exact
    below 2^53, which covers every array length and loop counter). *)
Definition of_Z (z : Z) : float :=
  SF2Prim (binary_normalize prec emax z 0 false).

Definition of_nat (n : nat) : float := of_Z (Z.of_nat n).

(** [x > y] and [x >= y] of JavaScript: false as soon as one side is NaN. *)
Definition gtb (x y : float) : bool := PrimFloat.ltb y x.
Definition geb (x y : float) : bool := PrimFloat.leb y x.

(** The sign bit, also of zeros. *)
Definition signbit (x : float) : bool :=
  match Prim2SF x with
  | S754_zero s | S754_infinity s | S754_finite s _ _ => s
  | S754_nan => false
  end.

Definition isFinite (x : float) : bool :=
  match Prim2SF x with
  | S754_zero _ | S754_finite _ _ _ => true
  | _ => false
  end.

(** [Math.max(a, b)]: NaN if either is NaN, and [+0] is larger than [-0]. *)
Definition max2 (a b : float) : float :=
  if PrimFloat.is_nan a || PrimFloat.is_nan b then nan
  else if PrimFloat.ltb a b then b
  else if PrimFloat.ltb b a then a
  else if signbit a then b else a.

(** [Math.min(a, b)]: NaN if either is NaN, and [-0] is smaller than [+0]. *)
Definition min2 (a b : float) : float :=
  if PrimFloat.is_nan a || PrimFloat.is_nan b then nan
  else if PrimFloat.ltb a b then a
  else if PrimFloat.ltb b a then b
  else if signbit a then a else b.

(** [Math.max(...data)] and [Math.min(...data)]: the folds start at
    [-Infinity] and [+Infinity], the values of the empty calls. *)
Definition Math_max (data : list float) : float :=
  fold_left max2 data neg_infinity.

Definition Math_min (data : list float) : float :=
  fold_left min2 data infinity.

Definition Math_abs (x : float) : float := PrimFloat.abs x.
Definition Math_sqrt (x : float) : float := PrimFloat.sqrt x.

(** [Math.pow(x, 2)], the only use of [Math.pow] in the pipeline. *)
Definition Math_pow2 (x : float) : float := x * x.

(** [Math.floor]. *)
Definition Math_floor (x : float) : float :=
  match Prim2SF x with
  | S754_finite s m e =>
      if (0 <=? e)%Z then x
      else
        let n := Z.div (if s then Z.neg m else Z.pos m) (2 ^ (- e)) in
        of_Z n
  | _ => x
  end.

(** [Math.round]: the nearest integer, ties towards [+Infinity]; a result
    of zero keeps the sign of the argument. *)
Definition Math_round (x : float) : float :=
  match Prim2SF x with
  | S754_finite s m e =>
      if (0 <=? e)%Z then x
      else
        let n := Z.div (2 * (if s then Z.neg m else Z.pos m) + 2 ^ (- e))
                       (2 ^ (1 - e)) in
        if (n =? 0)%Z then (if s then (-0) else 0) else of_Z n
  | _ => x
  end.

(** [data.reduce((a, b) => a + b, 0)]. *)
Definition sum (data : list float) : float :=
  fold_left PrimFloat.add data 0.

(** [data[i]] read as a number: [undefined] (out of range) behaves as NaN
    in arithmetic and comparisons. *)
Definition get (data : list float) (i : Z) : float :=
  if (i <? 0)%Z then nan else nth (Z.to_nat i) data nan.

(** The array index a number denotes as a property key, if any: a
    non-negative integer ([-0] is the key ["0"]). *)
Definition to_index (x : float) : option Z :=
  match Prim2SF x with
  | S754_zero _ => Some 0%Z
  | S754_finite false m e =>
      if (0 <=? e)%Z then Some (Z.pos m * 2 ^ e)%Z
      else if (Z.pos m mod 2 ^ (- e) =? 0)%Z then Some (Z.pos m / 2 ^ (- e))%Z
      else None
  | _ => None
  end.

(** [data[x]] for a number [x] computed at run time. *)
Definition getF (data : list float) (x : float) : float :=
  match to_index x with
  | Some i => if (i <? Z.of_nat (length data))%Z then get data i else nan
  | None => nan
  end.


(** What evaluating an expression or calling a function does: it completes
    with a value, or it throws. *)
Inductive Error := ReferenceError (name : String.string).

Inductive Completion (A : Type) : Type :=
| Normal (value : A)
| Throw (e : Error).

Arguments Normal {A} value.
Arguments Throw {A} e.

Definition bind {A B : Type} (c : Completion A) (k : A -> Completion B)
  : Completion B :=
  match c with
  | Normal value => k value
  | Throw e => Throw e
  end.

End JS.

(* ================================================================== *)
(** * Array helpers shared by the two components *)
(* ================================================================== *)

Module Arr.

Local Open Scope float_scope.

(** The loop counters [lo, lo+1, ..., hi-1] of [for (let i = lo; i < hi; i++)]. *)
Definition range (lo hi : Z) : list Z :=
  map (fun k => (lo + Z.of_nat k)%Z) (seq 0 (Z.to_nat (hi - lo))).

(** [data.slice(start, end)] for [0 <= start]. *)
Definition slice (data : list float) (start end_ : Z) : list float :=
  firstn (Z.to_nat (end_ - start)) (skipn (Z.to_nat start) data).

(** [data.slice(1).map((cur, i) => f(data[i], cur))], which is also the loop
    [for (let i = 1; i < data.length; i++) out.push(f(data[i-1], data[i]))]. *)
Fixpoint consecutive {A : Type} (f : float -> float -> A) (data : list float)
  : list A :=
  match data with
  | prev :: ((cur :: _) as tl) => f prev cur :: consecutive f tl
  | _ => []
  end.

Definition len (data : list float) : Z := Z.of_nat (length data).

(** The moving average of both components (the two copies are identical):
    a trailing window of [min(windowSize, i+1)] samples. *)
Definition movingAverage (data : list float) (windowSize : Z) : list float :=
  map (fun i =>
         let start := Z.max 0 (i - windowSize + 1) in
         let end_ := (i + 1)%Z in
         let sum := JS.sum (slice data start end_) in
         sum / JS.of_Z (end_ - start))
      (range 0 (len data)).

(** The test of the peak loops at counter [i], without the distance test. *)
Definition localMax (smoothedData : list float) (threshold : float) (i : Z)
  : bool :=
  JS.gtb (JS.get smoothedData i) threshold &&
  JS.gtb (JS.get smoothedData i) (JS.get smoothedData (i - 1)) &&
  JS.gtb (JS.get smoothedData i) (JS.get smoothedData (i - 2)) &&
  JS.gtb (JS.get smoothedData i) (JS.get smoothedData (i + 1)) &&
  JS.gtb (JS.get smoothedData i) (JS.get smoothedData (i + 2)).

(** One iteration of the peak loops: the state is the array [peaks] and
    [lastPeakIndex]; [pushed i] is the value the loop pushes at counter [i]. *)
Definition peakStep {A : Type} (smoothedData : list float) (threshold : float)
    (minDistance : Z) (pushed : Z -> A) (st : list A * Z) (i : Z)
  : list A * Z :=
  let '(peaks, lastPeakIndex) := st in
  if localMax smoothedData threshold i && (minDistance <=? i - lastPeakIndex)%Z
  then (peaks ++ [pushed i], i)
  else (peaks, lastPeakIndex).

(** [for (let i = 2; i < smoothedData.length - 2; i++) { ... }]. *)
Definition peakLoop {A : Type} (smoothedData : list float) (threshold : float)
    (minDistance : Z) (pushed : Z -> A) : list A * Z :=
  fold_left (peakStep smoothedData threshold minDistance pushed)
            (range 2 (len smoothedData - 2))
            ([], (- minDistance)%Z).

Definition mean (data : list float) : float :=
  JS.sum data / JS.of_nat (length data).

(** [Math.sqrt(data.reduce((a, b) => a + Math.pow(b - mean, 2), 0) / data.length)]. *)
Definition stdDevAround (mean : float) (data : list float) : float :=
  JS.Math_sqrt
    (fold_left (fun a b => a + JS.Math_pow2 (b - mean)) data 0
     / JS.of_nat (length data)).

End Arr.

(* ================================================================== *)
(** * The heart-rate monitor component *)
(* ================================================================== *)

Module HeartRateMonitor.

Local Open Scope float_scope.

Definition movingAverage := Arr.movingAverage.

Definition normalizeSignal (data : list float) : list float :=
  let min := JS.Math_min data in
  let max := JS.Math_max data in
  map (fun x => (x - min) / (max - min)) data.

(** The pushed values are the loop counters, kept as integers. *)
Definition findPeaks (data : list float) (threshold : float) (minDistance : Z)
  : list Z :=
  let smoothedData := movingAverage data 3 in
  fst (Arr.peakLoop smoothedData threshold minDistance (fun i => i)).

Definition intervalsOf (peaks : list float) : list float :=
  Arr.consecutive (fun prev cur => cur - prev) peaks.

Definition validIntervals (peaks : list float) (fps : float) : list float :=
  let intervals := intervalsOf peaks in
  let mean := Arr.mean intervals in
  let stdDev := Arr.stdDevAround mean intervals in
  filter (fun i =>
            PrimFloat.leb (JS.Math_abs (i - mean)) (2 * stdDev) &&
            JS.gtb i (fps * 0.4) &&
            PrimFloat.ltb i (fps * 1.5))
         intervals.

Definition calculateHeartRate (peaks : list float) (totalFrames fps : float)
  : float * float :=
  if (length peaks <? 3)%nat then (0, 0)
  else
    let intervals := intervalsOf peaks in
    let mean := Arr.mean intervals in
    let stdDev := Arr.stdDevAround mean intervals in
    let validIntervals := validIntervals peaks fps in
    if (length validIntervals <? 2)%nat then (0, 0)
    else
      let avgInterval := Arr.mean validIntervals in
      let bpm := JS.Math_round ((fps * 60) / avgInterval) in
      let intervalVariability := stdDev / mean in
      let peakDensity := JS.of_nat (length peaks) / (totalFrames / fps) in
      let expectedDensity := bpm / 60 in
      let densityError := JS.Math_abs (1 - peakDensity / expectedDensity) in
      let confidence :=
        JS.max2 0 (JS.min2 100
          (100 * (1 - intervalVariability) * (1 - densityError))) in
      (bpm, confidence).

Record HRV := { sdnn : float; rmssd : float; pnn50 : float }.

Definition calculateHRV (peaks : list float) (fps : float) : HRV :=
  let intervals :=
    Arr.consecutive (fun prev peak => (peak - prev) * (1000 / fps)) peaks in
  let mean := Arr.mean intervals in
  let sdnn := Arr.stdDevAround mean intervals in
  let successiveDiffs :=
    Arr.consecutive (fun prev interval => JS.Math_pow2 (interval - prev))
                    intervals in
  let rmssd :=
    JS.Math_sqrt (JS.sum successiveDiffs / JS.of_nat (length successiveDiffs)) in
  let nn50 :=
    length (filter (fun b : bool => b)
              (Arr.consecutive
                 (fun prev interval =>
                    JS.gtb (JS.Math_abs (interval - prev)) 50)
                 intervals)) in
  let pnn50 := (JS.of_nat nn50 / JS.of_nat (length intervals)) * 100 in
  {| sdnn := sdnn; rmssd := rmssd; pnn50 := pnn50 |}.

(** ** Controller state and [stopRecording] *)

Inductive Phase := CALIBRATING | MEASURING | ANALYZING | COMPLETE.

Record Measurement := {
  timestamp : float;
  m_heartRate : float;
  m_confidence : float
}.

(** What the component talks to: speech, vibration, the animation-frame
    scheduler and the camera track. *)
Inductive Effect :=
| Speak (text : String.string)
| Vibrate (pattern : list Z)
| CancelAnimationFrame (id : Z)
| ApplyTorch (on : bool).

(** The [useState] cells and refs that the recording code reads or writes.
    [mediaStream] is [None] for a null [mediaStreamRef.current] and
    otherwise tells whether the video track has the [torch] capability;
    [animationFrame] is [None] for an undefined [animationFrameRef.current]. *)
Record State := {
  isRecording : bool;
  phase : Phase;
  heartRate : option float;
  confidence : float;
  hrvData : option HRV;
  measurementProgress : float;
  measurementHistory : list Measurement;
  isFlashOn : bool;
  useScreenFlash : bool;
  isHapticEnabled : bool;
  frameData : list float;
  animationFrame : option Z;
  mediaStream : option bool
}.

Definition HAPTIC_progress : list Z := [20%Z].

(** [setIsFlashOn(on)] and [setUseScreenFlash(screen)]. *)
Definition setFlash (on screen : bool) (s : State) : State :=
  {| isRecording := isRecording s; phase := phase s;
     heartRate := heartRate s; confidence := confidence s;
     hrvData := hrvData s;
     measurementProgress := measurementProgress s;
     measurementHistory := measurementHistory s;
     isFlashOn := on;
     useScreenFlash := screen;
     isHapticEnabled := isHapticEnabled s;
     frameData := frameData s;
     animationFrame := animationFrame s;
     mediaStream := mediaStream s |}.

(** [toggleFlash(on)] is an async function.  A call runs it up to
    [await track.applyConstraints(...)]: without a stream it returns at
    once, and without the [torch] capability it sets the two flags and
    awaits nothing. *)
Definition toggleFlash (on : bool) (s : State) : State * list Effect :=
  match mediaStream s with
  | None => (s, [])
  | Some true => (s, [ApplyTorch on])
  | Some false => (setFlash on on s, [])
  end.

(** What follows the [await] in [toggleFlash(on)], with [applyConstraints]
    succeeding: it runs once the promise is fulfilled, after the caller
    that did not await the call has finished. *)
Definition toggleFlash_resumed (on : bool) (s : State) : State * list Effect :=
  match mediaStream s with
  | Some true =>
      (setFlash on false s,
       if isHapticEnabled s then [Vibrate HAPTIC_progress] else [])
  | _ => (s, [])
  end.



End HeartRateMonitor.

(* ================================================================== *)
(** * The AI processing visualizer component *)
(* ================================================================== *)

Module AIProcessingVisualizer.

Local Open Scope float_scope.

Definition SAMPLING_RATE : float := 30.

Definition movingAverage := Arr.movingAverage.

Definition normalizeSignal (data : list float) : list float :=
  let min := JS.Math_min data in
  let max := JS.Math_max data in
  map (fun x => (x - min) / (max - min + 0.0001)) data.

(** The threshold of [findPeaksEnhanced]. *)
Definition peakThreshold (smoothedData : list float) (adaptiveThreshold : bool)
  : float :=
  if adaptiveThreshold then
    let mean := Arr.mean smoothedData in
    let variance :=
      fold_left (fun a b => a + JS.Math_pow2 (b - mean)) smoothedData 0
      / JS.of_nat (length smoothedData) in
    let std := JS.Math_sqrt variance in
    mean + 0.8 * std
  else 0.5.

(** The quadratic-interpolation offset computed at an accepted peak. *)
Definition peakOffset (smoothedData : list float) (i : Z) : float :=
  let a := JS.get smoothedData (i - 1) in
  let b := JS.get smoothedData i in
  let c := JS.get smoothedData (i + 1) in
  (a - c) / (2 * (a - 2 * b + c)).

Definition refinedPeak (smoothedData : list float) (i : Z) : float :=
  JS.of_Z i + peakOffset smoothedData i.

Definition findPeaksEnhanced (data : list float) (minDistance : Z)
    (adaptiveThreshold : bool) : list float :=
  let smoothedData := movingAverage data 3 in
  let threshold := peakThreshold smoothedData adaptiveThreshold in
  fst (Arr.peakLoop smoothedData threshold minDistance
                    (refinedPeak smoothedData)).

Definition intervalsOf (peaks : list float) : list float :=
  Arr.consecutive (fun prev cur => cur - prev) peaks.

Definition validIntervals (peaks : list float) (fps : float) : list float :=
  let intervals := intervalsOf peaks in
  let mean := Arr.mean intervals in
  let stdDev := Arr.stdDevAround mean intervals in
  let maxZScore := 2.0 in
  filter (fun i =>
            PrimFloat.leb (JS.Math_abs (i - mean)) (maxZScore * stdDev) &&
            JS.gtb i (fps * 0.4) &&
            PrimFloat.ltb i (fps * 1.5))
         intervals.

(** [frameDataRef] is declared inside the component, and
    [calculateHeartRateEnhanced] outside of it: where the function reads
    [frameDataRef.current] the identifier is not bound, and evaluating it
    throws. *)
Definition frameDataRef_current : JS.Completion (list float) :=
  JS.Throw (JS.ReferenceError "frameDataRef").

(** [peaks.reduce((sum, peakIdx) => ..., 0) / peaks.length]: the callback
    reads [frameDataRef.current] for a [peakIdx] below [totalFrames]. *)
Definition signalStrength (peaks : list float) (totalFrames : float)
  : JS.Completion float :=
  JS.bind
    (fold_left
       (fun acc peakIdx =>
          JS.bind acc (fun sum =>
            if PrimFloat.ltb peakIdx totalFrames
            then JS.bind frameDataRef_current (fun current =>
                   JS.Normal (sum + JS.getF current (JS.Math_floor peakIdx)))
            else JS.Normal sum))
       peaks (JS.Normal 0))
    (fun total => JS.Normal (total / JS.of_nat (length peaks))).

Definition calculateHeartRateEnhanced (peaks : list float)
    (totalFrames fps : float) : JS.Completion (float * float) :=
  if (length peaks <? 4)%nat then JS.Normal (0, 0)
  else
    let validIntervals := validIntervals peaks fps in
    if (length validIntervals <? 3)%nat then JS.Normal (0, 0)
    else
      let filteredMean := Arr.mean validIntervals in
      let filteredStdDev := Arr.stdDevAround filteredMean validIntervals in
      let bpm := JS.Math_round ((fps * 60) / filteredMean) in
      let intervalVariability := filteredStdDev / filteredMean in
      let peakDensity := JS.of_nat (length peaks) / (totalFrames / fps) in
      let expectedDensity := bpm / 60 in
      let densityError := JS.Math_abs (1 - peakDensity / expectedDensity) in
      JS.bind (signalStrength peaks totalFrames) (fun signalStrength =>
        let confidence :=
          JS.max2 0 (JS.min2 100
            (100 * (1 - intervalVariability) * (1 - densityError)
             * JS.min2 1 (signalStrength / 100))) in
        JS.Normal (bpm, JS.Math_round confidence)).

Inductive MeasurementMode := finger | face | sound.

Definition isFinger (m : MeasurementMode) : bool :=
  match m with finger => true | _ => false end.

(** [random] is the value returned by the call of [Math.random()]. *)
Definition calculateSpO2 (measurementMode : MeasurementMode) (random : float)
    (redValues : list float) (frameCount : float) : float * float :=
  if (length redValues <? 60)%nat || negb (isFinger measurementMode)
  then (0, 0)
  else
    let normalizedRed := normalizeSignal redValues in
    let mean := Arr.mean normalizedRed in
    let acComponent := Arr.stdDevAround mean normalizedRed in
    let dcComponent := mean in
    let rValue := acComponent / dcComponent in
    let calculatedSpo2 := 110 - 25 * rValue in
    let naturalVariation := (random * 2 - 1) * 0.5 in
    let normalBias :=
      if PrimFloat.ltb calculatedSpo2 95 then 0.5
      else if JS.gtb calculatedSpo2 99 then (-0.3) else 0 in
    let calculatedSpo2 := calculatedSpo2 + (naturalVariation + normalBias) in
    let calculatedSpo2 := JS.min2 100 (JS.max2 70 calculatedSpo2) in
    let confidence :=
      JS.min2 100 (JS.max2 0
        (50 + (frameCount / 60) * 10
         + (if JS.gtb acComponent 0.05 then 20 else 0)
         - (if JS.gtb rValue 0.7 then 30 else 0))) in
    (JS.Math_round (calculatedSpo2 * 10) / 10, JS.Math_round confidence).

(** ** Controller state and [stopMeasurement] *)

Inductive Phase := idle | calibrating | measuring_phase | analyzing | complete.

Record HeartRateHistory := {
  timestamp : float;
  h_heartRate : float;
  h_confidence : float;
  h_spo2 : option float;
  h_respirationRate : option float
}.

Inductive Effect :=
| ToastSuccess (text : String.string)
| ToastError (text : String.string)
| ToastMeasurementComplete (bpm confidence : float)
| Speak (text : String.string)
| SpeakMeasurementComplete (bpm confidence : float)
| Vibrate (pattern : list Z)
| ApplyTorch (on : bool).

(** The [useState] cells and refs that the measurement code reads or writes;
    [stream] is [None] for a null stream and otherwise tells whether the
    video track has the [torch] capability. *)
Record State := {
  measuring : bool;
  progress : float;
  phase : Phase;
  heartRate : option float;
  confidence : float;
  spo2 : option float;
  respirationRate : option float;
  measurementHistory : list HeartRateHistory;
  flashActive : bool;
  measurementMode : MeasurementMode;
  audioEnabled : bool;
  hapticEnabled : bool;
  faceTrackingActive : bool;
  frameData : list float;
  peaks : list float;
  stream : option bool
}.


(** [toggleFlash()] is an async function.  A call runs it up to
    [await videoTrack.applyConstraints(...)]; without a stream it returns
    at once, and without the [torch] capability it only shows a toast. *)
Definition toggleFlash (s : State) : list Effect :=
  match stream s with
  | None => []
  | Some true => [ApplyTorch (negb (flashActive s))]
  | Some false => [ToastError "Flash not available on this device"%string]
  end.

(** What follows the [await] in [toggleFlash()], with [applyConstraints]
    succeeding: the new value of [flashActive] and the effects.  It runs
    once the promise is fulfilled, after the caller that did not await the
    call has finished. *)
Definition toggleFlash_resumed (s : State) : bool * list Effect :=
  match stream s with
  | Some true =>
      (negb (flashActive s),
       [ToastSuccess (if flashActive s then "Flash turned off"%string
                      else "Flash turned on"%string)])
  | _ => (flashActive s, [])
  end.



End AIProcessingVisualizer.

(* ================================================================== *)
(** * Specification-side definitions *)
(* ================================================================== *)

Module Spec.

Local Open Scope float_scope.

(** [v] clamped to [[lo, hi]], as [Math.max(lo, Math.min(hi, v))]. *)
Definition clamp (lo hi v : float) : float := JS.max2 lo (JS.min2 hi v).

(** The intervals the rate estimator keeps, in the words of the
    specification: within [2.0] standard deviations of the mean and within
    [0.4 * fps <= interval <= 1.5 * fps]. *)
Definition validIntervals (intervals : list float) (fps : float) : list float :=
  let mean := Arr.mean intervals in
  let stddev := Arr.stdDevAround mean intervals in
  filter (fun i =>
            PrimFloat.leb (JS.Math_abs (i - mean)) (2.0 * stddev) &&
            PrimFloat.leb (0.4 * fps) i &&
            PrimFloat.leb i (1.5 * fps))
         intervals.

(** The rate estimator in the words of the specification, for a minimum
    number of peaks and of surviving intervals. *)
Definition heartRate (minPeaks minIntervals : nat) (peaks : list float)
    (totalFrames fps : float) : float * float :=
  if (length peaks <? minPeaks)%nat then (0, 0)
  else
    let valid :=
      validIntervals (Arr.consecutive (fun prev cur => cur - prev) peaks) fps in
    if (length valid <? minIntervals)%nat then (0, 0)
    else
      let mean := Arr.mean valid in
      let bpm := JS.Math_round (fps * 60 / mean) in
      let intervalVariability := Arr.stdDevAround mean valid / mean in
      let observedPeakDensity :=
        JS.of_nat (length peaks) / (totalFrames / fps) in
      let expectedDensity := bpm / 60 in
      let densityError :=
        JS.Math_abs (1 - observedPeakDensity / expectedDensity) in
      (bpm, clamp 0 100 (100 * (1 - intervalVariability) * (1 - densityError))).

(** Two integer peak indices, the earlier first: increasing and at least
    [minDistance] apart. *)
Definition apart (minDistance : Z) (p q : Z) : Prop :=
  (p < q /\ minDistance <= q - p)%Z.

(** The same for two fractional peak indices. *)
Definition apartF (minDistance : Z) (p q : float) : Prop :=
  PrimFloat.ltb p q = true /\
  PrimFloat.leb (JS.of_Z minDistance) (q - p) = true.

(** The number of indices at which [data] holds a value equal to [v]. *)
Definition attained (v : float) (data : list float) : nat :=
  length (filter (fun y => PrimFloat.eqb y v) data).

Definition inUnitRange (y : float) : Prop :=
  PrimFloat.leb 0 y = true /\ PrimFloat.leb y 1 = true.

(** A sample of magnitude at most [1e300]. *)
Definition bounded (x : float) : Prop :=
  PrimFloat.leb (JS.Math_abs x) 1e300 = true.

(** The invariant of the peak loops: with every counter still to come at
    least [lo], the accepted counters are pairwise [apart], lie in
    [[2, lo)] and are at most [lastPeakIndex]. *)
Definition peakInv (minDistance lo : Z) (st : list Z * Z) : Prop :=
  ForallOrdPairs (apart minDistance) (fst st) /\
  Forall (fun p => 2 <= p < lo /\ p <= snd st)%Z (fst st).

End Spec.

(** Sample inputs used below. *)
Module Samples.

Local Open Scope float_scope.

(** Two pulses whose smoothed maxima sit at samples 5 and 10. *)
Definition twoPulses : list float :=
  [0; 0; 0; 1; 2; 3; 0; 0; 3; 2; 1; 0; 0; 0].

(** Finite samples so large that the sums of the moving average overflow. *)
Definition hugeSwing : list float :=
  [-1e308; -1e308; 0; 1.3e308; -1.3e308; 0].

(** Sixty frames of a saturated red channel. *)
Definition saturated : list float := repeat 255 60.

(** Sixty frames of a sawtooth. *)
Definition sawtooth : list float :=
  map (fun k => JS.of_nat (k mod 7)) (seq 0 60).

(** Twelve beats, one every 14 frames. *)
Definition regularBeats : list float :=
  map (fun k => JS.of_Z (14 * k)) (Arr.range 0 12).




End Samples.

(* ================================================================== *)
(** * Binary64 arithmetic: auxiliary notions *)
(* ================================================================== *)

(** A positive mantissa in canonical position for its exponent. *)
Definition canonical (m e : Z) : Prop :=
  (0 < m)%Z /\ fexp prec emax (Zdigits2 m + e) = e.

(** [m / 2^k] rounded to the nearest integer, ties to even. *)
Definition rne (m k : Z) : Z :=
  let q := (m / 2 ^ k)%Z in
  match (2 * (m mod 2 ^ k) ?= 2 ^ k)%Z with
  | Lt => q
  | Eq => if Z.even q then q else (q + 1)%Z
  | Gt => (q + 1)%Z
  end.

(** The value of a finite float as a multiple of [2^-1074]. *)
Definition ulps (f : spec_float) : Z :=
  match f with
  | S754_finite s m e => cond_Zopp s (Z.pos m * 2 ^ (e + 1074))
  | _ => 0%Z
  end.

Definition SFfinite (f : spec_float) : bool :=
  match f with
  | S754_zero _ | S754_finite _ _ _ => true
  | _ => false
  end.

(** [X * 2^-t] units, [X >= 0], rounded to a binary64 magnitude in units:
    53 significant bits, and no bit below one unit. *)
Definition RNmag (t X : Z) : Z :=
  let K := Z.max t (Zdigits2 X - 53) in
  (rne X K * 2 ^ (K - t))%Z.

(** The first magnitude, in units, that no finite binary64 number reaches. *)
Definition overflow : Z := (2 ^ 2098)%Z.

(** The signed rounding of an integer number of units. *)
Definition RN (X : Z) : Z := (Z.sgn X * RNmag 0 (Z.abs X))%Z.

(** What an operation returns when [R] is its rounded result, in units: the
    float of [R], or an infinity when [R] is out of range. *)
Definition returns (R : Z) (r : spec_float) : Prop :=
  ((Z.abs R < overflow)%Z -> SFfinite r = true /\ ulps r = R) /\
  ((overflow <= R)%Z -> r = S754_infinity false) /\
  ((R <= - overflow)%Z -> r = S754_infinity true).

(** The same for the exact result [X] of an addition or subtraction. *)
Definition rounds_to (X : Z) (r : spec_float) : Prop := returns (RN X) r.

(** The rounding of a product of two numbers of units. *)
Definition RNprod (P : Z) : Z := (Z.sgn P * RNmag 1074 (Z.abs P))%Z.

(** The value of a finite number as a multiple of [2^-1074]. *)
Definition units (x : float) : Z := ulps (Prim2SF x).

(** A number that is neither zero nor NaN. *)
Definition nonzeroNumber (x : float) : Prop :=
  PrimFloat.is_nan x = false /\ PrimFloat.eqb x 0 = false.

(** A finite number of magnitude at most [2^j] units. *)
Definition within (j : Z) (x : float) : Prop :=
  JS.isFinite x = true /\ (Z.abs (units x) <= 2 ^ j)%Z.

(** The value of a number on the integer line: units for a finite number,
    and [INF] beyond every finite number for the infinities. *)
Definition INF : Z := (3 * overflow)%Z.

Definition ext (x : float) : Z :=
  match Prim2SF x with
  | S754_infinity s => cond_Zopp s INF
  | f => ulps f
  end.

(* ================================================================== *)
(** * Binary64 arithmetic: rounding at the level of bits *)
(* ================================================================== *)

Lemma fexp_eq x : fexp prec emax x = Z.max (x - 53) (-1074).
Proof. reflexivity. Qed.

Lemma digits2_size p : digits2_pos p = Pos.size p.
Proof. induction p; simpl; congruence. Qed.

Lemma digits_bounds p :
  (2 ^ (Z.pos (digits2_pos p) - 1) <= Z.pos p < 2 ^ Z.pos (digits2_pos p))%Z.
Proof.
  rewrite digits2_size. split.
  - pose proof (Pos.size_le p) as H.
    assert (H' : (Z.pos (2 ^ Pos.size p) <= Z.pos p~0)%Z) by exact H.
    rewrite Pos2Z.inj_pow in H'.
    replace (Z.pos (Pos.size p)) with (Z.pos (Pos.size p) - 1 + 1)%Z in H' by lia.
    rewrite Z.pow_add_r in H' by lia. lia.
  - pose proof (Pos.size_gt p) as H.
    assert (H' : (Z.pos p < Z.pos (2 ^ Pos.size p))%Z) by exact H.
    rewrite Pos2Z.inj_pow in H'. exact H'.
Qed.

Lemma digits_unique p k :
  (2 ^ (k - 1) <= Z.pos p < 2 ^ k)%Z -> Z.pos (digits2_pos p) = k.
Proof.
  intros [Hl Hu]. pose proof (digits_bounds p) as [Hl' Hu'].
  assert (0 < k)%Z.
  { destruct (Z_lt_le_dec 0 k); [assumption|].
    rewrite (Z.pow_neg_r 2 (k - 1)) in Hl by lia.
    destruct (Z.eq_dec k 0) as [->|]; [simpl in Hu; lia|].
    rewrite Z.pow_neg_r in Hu by lia. lia. }
  destruct (Z_lt_le_dec (Z.pos (digits2_pos p)) k) as [Hlt|Hge].
  - assert (2 ^ Z.pos (digits2_pos p) <= 2 ^ (k - 1))%Z
      by (apply Z.pow_le_mono_r; lia). lia.
  - destruct (Z_lt_le_dec k (Z.pos (digits2_pos p))) as [Hlt|Hge'].
    + assert (2 ^ k <= 2 ^ (Z.pos (digits2_pos p) - 1))%Z
        by (apply Z.pow_le_mono_r; lia). lia.
    + lia.
Qed.

(** ** Right shifts with round and sticky bits *)

Lemma iter_pos_nat {A} (f : A -> A) p x :
  iter_pos f p x = Nat.iter (Pos.to_nat p) f x.
Proof.
  revert x. induction p as [p IH|p IH|]; intros x; cbn [iter_pos].
  - rewrite !IH. rewrite Pos2Nat.inj_xI.
    replace (S (2 * Pos.to_nat p)) with (Pos.to_nat p + (Pos.to_nat p + 1))%nat by lia.
    rewrite !Nat.iter_add. simpl. reflexivity.
  - rewrite !IH. rewrite Pos2Nat.inj_xO.
    replace (2 * Pos.to_nat p)%nat with (Pos.to_nat p + Pos.to_nat p)%nat by lia.
    rewrite Nat.iter_add. reflexivity.
  - reflexivity.
Qed.

Lemma shr_1_nonneg m r s :
  (0 <= m)%Z ->
  shr_1 {| shr_m := m; shr_r := r; shr_s := s |}
  = {| shr_m := m / 2; shr_r := Z.odd m; shr_s := r || s |}.
Proof.
  intros H. destruct m as [|p|p]; [reflexivity| |lia].
  destruct p as [p|p|]; simpl shr_1.
  - f_equal. rewrite Pos2Z.inj_xI. 
    replace (2 * Z.pos p + 1)%Z with (1 + Z.pos p * 2)%Z by lia.
    rewrite Z.div_add by lia. reflexivity.
  - f_equal. rewrite Pos2Z.inj_xO.
    replace (2 * Z.pos p)%Z with (Z.pos p * 2)%Z by lia.
    rewrite Z.div_mul by lia. reflexivity.
  - reflexivity.
Qed.

(** After [k + 1] shifts of a non-negative mantissa. *)
Lemma shr_iter m r s k :
  (0 <= m)%Z ->
  Nat.iter (S k) shr_1 {| shr_m := m; shr_r := r; shr_s := s |}
  = {| shr_m := m / 2 ^ Z.of_nat (S k);
       shr_r := Z.odd (m / 2 ^ Z.of_nat k);
       shr_s := negb (m mod 2 ^ Z.of_nat k =? 0)%Z || (r || s) |}.
Proof.
  intros Hm. induction k as [|k IH].
  - unfold Nat.iter; cbn [nat_rect]. rewrite shr_1_nonneg by assumption.
    change (2 ^ Z.of_nat 1)%Z with 2%Z. change (2 ^ Z.of_nat 0)%Z with 1%Z.
    rewrite Z.div_1_r, Z.mod_1_r. reflexivity.
  - change (Nat.iter (S (S k)) shr_1 ?x) with (shr_1 (Nat.iter (S k) shr_1 x)).
    rewrite IH. rewrite shr_1_nonneg by (apply Z.div_pos; lia).
    assert (E1 : (m / 2 ^ Z.of_nat (S k) / 2 = m / 2 ^ Z.of_nat (S (S k)))%Z).
    { rewrite Z.div_div by lia.
      f_equal. rewrite (Nat2Z.inj_succ (S k)). rewrite Z.pow_succ_r by lia. lia. }
    assert (E2 : Z.odd (m / 2 ^ Z.of_nat k)
                 || (negb (m mod 2 ^ Z.of_nat k =? 0)%Z || (r || s))
                 = negb (m mod 2 ^ Z.of_nat (S k) =? 0)%Z || (r || s)).
    { rewrite (Nat2Z.inj_succ k), Z.pow_succ_r by lia.
      set (q := (2 ^ Z.of_nat k)%Z).
      assert (0 < q)%Z by (apply Z.pow_pos_nonneg; lia).
      assert (E : (m mod (2 * q) = m mod q + q * ((m / q) mod 2))%Z).
      { rewrite (Z.mul_comm 2 q). rewrite Z.rem_mul_r by lia. reflexivity. }
      rewrite E. rewrite Zodd_mod.
      pose proof (Z.mod_pos_bound m q ltac:(lia)).
      pose proof (Z.mod_pos_bound (m / q) 2 ltac:(lia)).
      destruct (Z.eqb_spec ((m / q) mod 2) 1) as [F1|F1];
        destruct (Z.eqb_spec (m mod q) 0) as [F2|F2]; simpl.
      - rewrite F1, F2. destruct (Z.eqb_spec (0 + q * 1) 0); [lia|]. reflexivity.
      - rewrite F1. destruct (Z.eqb_spec (m mod q + q * 1) 0); [lia|]. reflexivity.
      - assert (F3 : ((m / q) mod 2 = 0)%Z) by lia. rewrite F3, F2.
        replace (0 + q * 0)%Z with 0%Z by lia. reflexivity.
      - assert (F3 : ((m / q) mod 2 = 0)%Z) by lia. rewrite F3.
        destruct (Z.eqb_spec (m mod q + q * 0) 0); [lia|]. reflexivity. }
    rewrite E1, E2. reflexivity.
Qed.

Lemma Zdigits2_pos p : Zdigits2 (Z.pos p) = Z.pos (digits2_pos p).
Proof. reflexivity. Qed.

(** Digits of a non-negative integer: [0] for [0]. *)
Lemma Zdigits2_bounds m :
  (0 < m)%Z -> (2 ^ (Zdigits2 m - 1) <= m < 2 ^ Zdigits2 m)%Z /\ (0 < Zdigits2 m)%Z.
Proof.
  intros H. destruct m as [|p|p]; try lia.
  rewrite Zdigits2_pos. split; [apply digits_bounds | lia].
Qed.

Lemma Zdigits2_unique m k :
  (0 < m)%Z -> (2 ^ (k - 1) <= m < 2 ^ k)%Z -> Zdigits2 m = k.
Proof.
  intros H. destruct m as [|p|p]; try lia. apply digits_unique.
Qed.

Lemma Zdigits2_div m k :
  (0 < m)%Z -> (0 <= k < Zdigits2 m)%Z ->
  (0 < m / 2 ^ k)%Z /\ Zdigits2 (m / 2 ^ k) = (Zdigits2 m - k)%Z.
Proof.
  intros Hm Hk. destruct (Zdigits2_bounds m Hm) as [[Hl Hu] Hd].
  set (d := Zdigits2 m) in *.
  assert (P : (0 < 2 ^ k)%Z) by (apply Z.pow_pos_nonneg; lia).
  assert (E1 : (2 ^ (d - 1) = 2 ^ (d - k - 1) * 2 ^ k)%Z).
  { rewrite <- Z.pow_add_r by lia. f_equal. lia. }
  assert (E2 : (2 ^ d = 2 ^ (d - k) * 2 ^ k)%Z).
  { rewrite <- Z.pow_add_r by lia. f_equal. lia. }
  assert (L : (2 ^ (d - k - 1) <= m / 2 ^ k)%Z).
  { apply Z.div_le_lower_bound; [lia|]. rewrite Z.mul_comm, <- E1. exact Hl. }
  assert (U : (m / 2 ^ k < 2 ^ (d - k))%Z).
  { apply Z.div_lt_upper_bound; [lia|]. rewrite Z.mul_comm, <- E2. exact Hu. }
  assert (0 < 2 ^ (d - k - 1))%Z by (apply Z.pow_pos_nonneg; lia).
  split; [lia|]. apply Zdigits2_unique; [lia|].
  replace (d - k - 1)%Z with (d - k - 1)%Z in L by lia. 
  split; [exact L | exact U].
Qed.

Lemma shr_record_of_loc_m m l : shr_m (shr_record_of_loc m l) = m.
Proof. destruct l as [|[]]; reflexivity. Qed.

(** The mantissa and exponent after [shr_fexp]. *)
Lemma shr_fexp_m m e l :
  (0 <= m)%Z ->
  let e' := Z.max e (fexp prec emax (Zdigits2 m + e)) in
  snd (shr_fexp prec emax m e l) = e' /\
  shr_m (fst (shr_fexp prec emax m e l)) = (m / 2 ^ (e' - e))%Z.
Proof.
  intros Hm e'. unfold shr_fexp, shr.
  destruct (fexp prec emax (Zdigits2 m + e) - e)%Z as [|k|k] eqn:E; simpl fst; simpl snd.
  - replace (e' - e)%Z with 0%Z by (subst e'; lia). rewrite Z.div_1_r.
    split; [subst e'; lia | apply shr_record_of_loc_m].
  - split; [subst e'; lia|].
    rewrite iter_pos_nat.
    destruct (Pos.to_nat k) as [|j] eqn:Ek; [lia|].
    destruct (shr_record_of_loc m l) as [m0 r0 s0] eqn:Er.
    assert (m0 = m) by (rewrite <- (shr_record_of_loc_m m l), Er; reflexivity).
    subst m0. rewrite shr_iter by assumption. cbn [shr_m].
    assert (Z.of_nat (S j) = Z.pos k) by (rewrite <- Ek; apply positive_nat_Z).
    replace (e' - e)%Z with (Z.of_nat (S j)) by (subst e'; lia). reflexivity.
  - replace (e' - e)%Z with 0%Z by (subst e'; lia). rewrite Z.div_1_r.
    split; [subst e'; lia | apply shr_record_of_loc_m].
Qed.

Lemma round_nearest_even_cases m l :
  round_nearest_even m l = m \/ round_nearest_even m l = (m + 1)%Z.
Proof.
  destruct l as [|[]]; simpl; auto. destruct (Z.even m); auto.
Qed.

(** An aligned mantissa that does not underflow is canonical after [shr_fexp]. *)
Lemma shr_fexp_canonical m e l :
  (0 < m)%Z ->
  (e <= fexp prec emax (Zdigits2 m + e))%Z ->
  (fexp prec emax (Zdigits2 m + e) - e < Zdigits2 m)%Z ->
  canonical (shr_m (fst (shr_fexp prec emax m e l)))
            (snd (shr_fexp prec emax m e l)).
Proof.
  intros Hm Ha Hn.
  destruct (shr_fexp_m m e l ltac:(lia)) as [-> ->].
  replace (Z.max e (fexp prec emax (Zdigits2 m + e)))
    with (fexp prec emax (Zdigits2 m + e)) by lia.
  destruct (Zdigits2_div m (fexp prec emax (Zdigits2 m + e) - e) Hm ltac:(lia))
    as [Hp Hd].
  split; [exact Hp|]. rewrite Hd. f_equal. lia.
Qed.

Lemma Zdigits2_succ m :
  (0 < m)%Z ->
  Zdigits2 (m + 1) = Zdigits2 m \/
  (Zdigits2 (m + 1) = Zdigits2 m + 1 /\ m + 1 = 2 ^ Zdigits2 m)%Z.
Proof.
  intros Hm. destruct (Zdigits2_bounds m Hm) as [[Hl Hu] Hd].
  destruct (Z.eq_dec (m + 1) (2 ^ Zdigits2 m)) as [E|E].
  - right. split; [|exact E]. apply Zdigits2_unique; [lia|].
    replace (Zdigits2 m + 1 - 1)%Z with (Zdigits2 m) by lia.
    rewrite Z.pow_add_r by lia. lia.
  - left. apply Zdigits2_unique; lia.
Qed.

(** What [binary_round_aux] returns on an aligned positive mantissa that does
    not underflow: a valid positive-mantissa float or an infinity, with the
    given sign. *)
Lemma binary_round_aux_shape s m e l :
  (0 < m)%Z ->
  (e <= fexp prec emax (Zdigits2 m + e))%Z ->
  (fexp prec emax (Zdigits2 m + e) - e < Zdigits2 m)%Z ->
  (exists m' e', binary_round_aux prec emax s m e l = S754_finite s m' e' /\
                 valid_binary (S754_finite s m' e') = true) \/
  binary_round_aux prec emax s m e l = S754_infinity s.
Proof.
  intros Hm Ha Hn. unfold binary_round_aux.
  pose proof (shr_fexp_canonical m e l Hm Ha Hn) as [Hp1 Hc1].
  destruct (shr_fexp prec emax m e l) as [mrs1 e1]. simpl fst in *; simpl snd in *.
  set (m1 := shr_m mrs1) in *.
  set (m2 := round_nearest_even m1 (loc_of_shr_record mrs1)).
  assert (Hm2 : (0 < m2)%Z /\ (e1 <= fexp prec emax (Zdigits2 m2 + e1))%Z /\
                (fexp prec emax (Zdigits2 m2 + e1) - e1 < Zdigits2 m2)%Z).
  { destruct (round_nearest_even_cases m1 (loc_of_shr_record mrs1)) as [E|E];
      fold m2 in E; rewrite E.
    - destruct (Zdigits2_bounds m1 Hp1) as [_ Hd]. rewrite Hc1. lia.
    - destruct (Zdigits2_bounds m1 Hp1) as [_ Hd].
      rewrite fexp_eq in *.
      destruct (Zdigits2_succ m1 Hp1) as [E'|[E' _]]; rewrite E'; lia. }
  destruct Hm2 as [Hp2 [Ha2 Hn2]].
  pose proof (shr_fexp_canonical m2 e1 loc_Exact Hp2 Ha2 Hn2) as [Hp3 Hc3].
  destruct (shr_fexp prec emax m2 e1 loc_Exact) as [mrs3 e3].
  simpl fst in *; simpl snd in *.
  destruct (shr_m mrs3) as [|m3|m3] eqn:E3; try lia.
  destruct (e3 <=? emax - prec)%Z eqn:Ee; [left | right; reflexivity].
  exists m3, e3. split; [reflexivity|].
  unfold valid_binary, SpecFloat.valid_binary, bounded, canonical_mantissa.
  rewrite Zdigits2_pos in Hc3. rewrite Hc3, Z.eqb_refl, Ee. reflexivity.
Qed.

Lemma pos_iter_xO p k : Z.pos (Pos.iter xO p k) = (Z.pos p * 2 ^ Z.pos k)%Z.
Proof.
  induction k as [|k IH] using Pos.peano_ind.
  - simpl. lia.
  - rewrite Pos.iter_succ, Pos2Z.inj_xO, IH, Pos2Z.inj_succ, Z.pow_succ_r by lia.
    lia.
Qed.

(** [shl_align] keeps the value and lowers the exponent to the smaller one. *)
Lemma shl_align_spec mx ex ex' :
  let '(mz, ez) := shl_align mx ex ex' in
  ez = Z.min ex ex' /\ Z.pos mz = (Z.pos mx * 2 ^ (ex - ez))%Z.
Proof.
  unfold shl_align. destruct (ex' - ex)%Z as [|d|d] eqn:E.
  - split; [lia|]. replace (ex - ex)%Z with 0%Z by lia. simpl. lia.
  - split; [lia|]. replace (ex - ex)%Z with 0%Z by lia. simpl. lia.
  - split; [lia|]. rewrite pos_iter_xO. f_equal. f_equal. lia.
Qed.

Lemma Zdigits2_mul_pow m k :
  (0 < m)%Z -> (0 <= k)%Z -> Zdigits2 (m * 2 ^ k) = (Zdigits2 m + k)%Z.
Proof.
  intros Hm Hk. destruct (Zdigits2_bounds m Hm) as [[Hl Hu] Hd].
  assert (P : (0 < 2 ^ k)%Z) by (apply Z.pow_pos_nonneg; lia).
  apply Zdigits2_unique; [nia|].
  replace (Zdigits2 m + k - 1)%Z with ((Zdigits2 m - 1) + k)%Z by lia.
  rewrite !Z.pow_add_r by lia. split; nia.
Qed.

(** [binary_round] on a mantissa whose value is at least the smallest
    positive float: a valid float of the given sign, or an infinity. *)
Lemma binary_round_shape s p e :
  (-1074 < Z.pos (digits2_pos p) + e)%Z ->
  (exists m' e', binary_round prec emax s p e = S754_finite s m' e' /\
                 valid_binary (S754_finite s m' e') = true) \/
  binary_round prec emax s p e = S754_infinity s.
Proof.
  intros Hd. unfold binary_round.
  pose proof (shl_align_spec p e (fexp prec emax (Z.pos (digits2_pos p) + e))) as H.
  destruct (shl_align p e (fexp prec emax (Z.pos (digits2_pos p) + e))) as [mz ez].
  destruct H as [Hez Hmz].
  assert (Hdz : (Zdigits2 (Z.pos mz) + ez = Z.pos (digits2_pos p) + e)%Z).
  { rewrite Hmz, Zdigits2_mul_pow by lia. rewrite Zdigits2_pos. lia. }
  apply binary_round_aux_shape; [lia | rewrite Hdz; lia |].
  rewrite Hdz. rewrite fexp_eq in *. pose proof (Zdigits2_mul_pow (Z.pos p) (e - ez)).
  rewrite Hmz, Zdigits2_mul_pow, Zdigits2_pos by lia. lia.
Qed.

(* ================================================================== *)
(** * Facts on JavaScript numbers *)
(* ================================================================== *)

Lemma of_Z_pos_shape p :
  (exists m e, Prim2SF (JS.of_Z (Z.pos p)) = S754_finite false m e) \/
  Prim2SF (JS.of_Z (Z.pos p)) = S754_infinity false.
Proof.
  unfold JS.of_Z, binary_normalize.
  destruct (binary_round_shape false p 0 ltac:(lia)) as [[m [e [E V]]]|E];
    rewrite E.
  - left. exists m, e. apply Prim2SF_SF2Prim. exact V.
  - right. reflexivity.
Qed.

Lemma ltb_zero_iff y :
  PrimFloat.ltb 0 y = true <->
  (exists m e, Prim2SF y = S754_finite false m e) \/
  Prim2SF y = S754_infinity false.
Proof.
  rewrite ltb_spec. change (Prim2SF 0) with (S754_zero false).
  unfold SFltb, SFcompare.
  destruct (Prim2SF y) as [s|s| |s m e]; try destruct s; simpl;
    split; intros H; try discriminate; try reflexivity; eauto;
    destruct H as [[m' [e' H]]|H]; discriminate.
Qed.

Lemma of_nat_pos n : (0 < n)%nat -> PrimFloat.ltb 0 (JS.of_nat n) = true.
Proof.
  intros H. apply ltb_zero_iff. unfold JS.of_nat.
  destruct (Z.of_nat n) as [|p|p] eqn:E; try lia. apply of_Z_pos_shape.
Qed.

Lemma isFinite_iff x :
  JS.isFinite x = true <->
  (exists s, Prim2SF x = S754_zero s) \/
  (exists s m e, Prim2SF x = S754_finite s m e).
Proof.
  unfold JS.isFinite. destruct (Prim2SF x) as [s|s| |s m e]; split; intros H;
    try discriminate; try reflexivity; eauto;
    destruct H as [[? H]|[? [? [? H]]]]; discriminate.
Qed.

(** A finite number minus itself is [+0]. *)
Lemma sub_self x : JS.isFinite x = true -> (x - x)%float = 0%float.
Proof.
  intros H. apply Prim2SF_inj. rewrite sub_spec.
  apply isFinite_iff in H. destruct H as [[s H]|[s [m [e H]]]]; rewrite H.
  - destruct s; reflexivity.
  - unfold SF64sub, SFsub. rewrite Z.sub_diag. reflexivity.
Qed.

(** [+0] divided by a positive number is [+0]. *)
Lemma zero_div_pos y : PrimFloat.ltb 0 y = true -> (0 / y)%float = 0%float.
Proof.
  intros H. apply Prim2SF_inj. rewrite div_spec.
  apply ltb_zero_iff in H. destruct H as [[m [e H]]|H]; rewrite H; reflexivity.
Qed.

Lemma sum_repeat_zero n :
  fold_left PrimFloat.add (repeat 0%float n) 0%float = 0%float.
Proof. induction n as [|n IH]; simpl; [reflexivity | exact IH]. Qed.

Lemma consecutive_repeat {A} (f : float -> float -> A) (d : float) n :
  Arr.consecutive f (repeat d (S n)) = repeat (f d d) n.
Proof.
  induction n as [|n IH]; [reflexivity|].
  cbn [repeat Arr.consecutive]. f_equal. exact IH.
Qed.

Lemma consecutive_length {A} (f : float -> float -> A) l :
  length (Arr.consecutive f l) = (length l - 1)%nat.
Proof.
  induction l as [|a l IH]; [reflexivity|].
  destruct l as [|b l]; [reflexivity|].
  cbn [Arr.consecutive length] in *. rewrite IH. lia.
Qed.

(** The deviations around a mean equal to the common value all vanish. *)
Lemma stdDevAround_repeat d n :
  JS.isFinite d = true -> (0 < n)%nat ->
  Arr.stdDevAround d (repeat d n) = 0%float.
Proof.
  intros Hd Hn. unfold Arr.stdDevAround.
  assert (E : forall k acc,
             fold_left (fun a b => (a + JS.Math_pow2 (b - d))%float)
                       (repeat d k) acc
             = fold_left PrimFloat.add (repeat 0%float k) acc).
  { induction k as [|k IH]; intros acc; [reflexivity|]. simpl.
    rewrite sub_self by assumption.
    change (JS.Math_pow2 0) with 0%float. apply IH. }
  rewrite E, sum_repeat_zero, repeat_length.
  rewrite zero_div_pos by (apply of_nat_pos; assumption).
  reflexivity.
Qed.

(** ** Comparisons *)

Lemma SFcompare_antisym f1 f2 c :
  SFcompare f1 f2 = Some c -> SFcompare f2 f1 = Some (CompOpp c).
Proof.
  destruct f1 as [s1|s1| |s1 m1 e1], f2 as [s2|s2| |s2 m2 e2]; simpl;
    try discriminate; try destruct s1; try destruct s2;
    intros H; inversion H; subst; clear H; try reflexivity;
    rewrite (Z.compare_antisym e1 e2);
    destruct (e1 ?= e2)%Z; simpl; try reflexivity;
    rewrite (Pos.compare_cont_antisym m1 m2 Eq); simpl;
    try rewrite CompOpp_involutive; reflexivity.
Qed.

Lemma is_nan_spec x :
  PrimFloat.is_nan x = true <-> Prim2SF x = S754_nan.
Proof.
  unfold PrimFloat.is_nan. rewrite negb_true_iff, eqb_spec.
  unfold SFeqb. destruct (Prim2SF x) as [s|s| |s m e]; simpl.
  - split; discriminate.
  - destruct s; split; discriminate.
  - split; reflexivity.
  - rewrite Z.compare_refl, Pos.compare_cont_refl.
    destruct s; split; discriminate.
Qed.

Lemma compare_defined x y :
  PrimFloat.is_nan x = false -> PrimFloat.is_nan y = false ->
  exists c, SFcompare (Prim2SF x) (Prim2SF y) = Some c.
Proof.
  intros Hx Hy.
  assert (Nx : Prim2SF x <> S754_nan)
    by (intros E; apply is_nan_spec in E; congruence).
  assert (Ny : Prim2SF y <> S754_nan)
    by (intros E; apply is_nan_spec in E; congruence).
  destruct (Prim2SF x) as [s1|s1| |s1 m1 e1], (Prim2SF y) as [s2|s2| |s2 m2 e2];
    simpl; try congruence; eauto.
Qed.

(** For numbers, [a <= b] fails only when [b < a]. *)
Lemma leb_of_not_gt a b :
  PrimFloat.is_nan a = false -> PrimFloat.is_nan b = false ->
  PrimFloat.ltb b a = false -> PrimFloat.leb a b = true.
Proof.
  intros Ha Hb. rewrite ltb_spec, leb_spec. unfold SFltb, SFleb.
  destruct (compare_defined a b Ha Hb) as [c E].
  rewrite (SFcompare_antisym _ _ _ E), E. destruct c; simpl; congruence.
Qed.

Lemma leb_of_ltb a b : PrimFloat.ltb a b = true -> PrimFloat.leb a b = true.
Proof.
  rewrite ltb_spec, leb_spec. unfold SFltb, SFleb.
  destruct (SFcompare (Prim2SF a) (Prim2SF b)) as [[]|]; congruence.
Qed.

Lemma ltb_not_nan a b :
  PrimFloat.ltb a b = true ->
  PrimFloat.is_nan a = false /\ PrimFloat.is_nan b = false.
Proof.
  rewrite ltb_spec. unfold SFltb. intros H.
  split; apply not_true_is_false; intros E; apply is_nan_spec in E;
    rewrite E in H; simpl in H; try discriminate.
  destruct (Prim2SF a); discriminate.
Qed.

Lemma leb_refl a : PrimFloat.is_nan a = false -> PrimFloat.leb a a = true.
Proof.
  intros Ha. apply leb_of_not_gt; try assumption.
  rewrite ltb_spec. unfold SFltb.
  destruct (compare_defined a a Ha Ha) as [c E].
  pose proof (SFcompare_antisym _ _ _ E) as E'. rewrite E in *.
  destruct c; simpl in E'; congruence.
Qed.

(** [Math.max(lo, v)] and [Math.min(hi, v)] of numbers are numbers within
    the bound. *)
Lemma max2_ge lo v :
  PrimFloat.is_nan lo = false -> PrimFloat.is_nan v = false ->
  PrimFloat.is_nan (JS.max2 lo v) = false /\
  PrimFloat.leb lo (JS.max2 lo v) = true /\
  (JS.max2 lo v = lo \/ JS.max2 lo v = v).
Proof.
  intros Hlo Hv. unfold JS.max2. rewrite Hlo, Hv. simpl.
  destruct (PrimFloat.ltb lo v) eqn:E1.
  - repeat split; auto using leb_of_ltb.
  - destruct (PrimFloat.ltb v lo) eqn:E2.
    + repeat split; auto using leb_refl.
    + destruct (JS.signbit lo); repeat split; auto using leb_refl, leb_of_not_gt.
Qed.

Lemma min2_le hi v :
  PrimFloat.is_nan hi = false -> PrimFloat.is_nan v = false ->
  PrimFloat.is_nan (JS.min2 hi v) = false /\
  PrimFloat.leb (JS.min2 hi v) hi = true /\
  (JS.min2 hi v = hi \/ JS.min2 hi v = v).
Proof.
  intros Hhi Hv. unfold JS.min2. rewrite Hhi, Hv. simpl.
  destruct (PrimFloat.ltb hi v) eqn:E1.
  - repeat split; auto using leb_refl.
  - destruct (PrimFloat.ltb v hi) eqn:E2.
    + repeat split; auto using leb_of_ltb.
    + destruct (JS.signbit hi); repeat split; auto using leb_refl, leb_of_not_gt.
Qed.

(** [Math.min(hi, Math.max(lo, v))] of a number lies in [[lo, hi]]. *)
Lemma min_max_range lo hi v :
  PrimFloat.leb lo hi = true -> PrimFloat.is_nan lo = false ->
  PrimFloat.is_nan hi = false -> PrimFloat.is_nan v = false ->
  PrimFloat.leb lo (JS.min2 hi (JS.max2 lo v)) = true /\
  PrimFloat.leb (JS.min2 hi (JS.max2 lo v)) hi = true.
Proof.
  intros Hlh Hlo Hhi Hv.
  destruct (max2_ge lo v Hlo Hv) as [Hn [Hge _]].
  destruct (min2_le hi (JS.max2 lo v) Hhi Hn) as [_ [Hle [E|E]]].
  - split; [rewrite E; exact Hlh | exact Hle].
  - split; [rewrite E; exact Hge | exact Hle].
Qed.
(* ================================================================== *)
(** * Binary64 arithmetic: rounding as integer arithmetic *)
(* ================================================================== *)

Lemma rne_zero_shift m : rne m 0 = m.
Proof.
  unfold rne. change (2 ^ 0)%Z with 1%Z. rewrite Z.mod_1_r, Z.div_1_r. reflexivity.
Qed.

Lemma mod_pow_succ m j :
  (0 <= j)%Z ->
  (m mod 2 ^ (j + 1) = m mod 2 ^ j + 2 ^ j * ((m / 2 ^ j) mod 2))%Z.
Proof.
  intros Hj. rewrite Z.pow_add_r by lia. change (2 ^ 1)%Z with 2%Z.
  assert (0 < 2 ^ j)%Z by (apply Z.pow_pos_nonneg; lia).
  rewrite Z.rem_mul_r by lia. reflexivity.
Qed.

(** The first rounding of [binary_round_aux] on an exact mantissa. *)
Lemma shr_fexp_rne m e :
  (0 < m)%Z ->
  let k := Z.max 0 (fexp prec emax (Zdigits2 m + e) - e) in
  snd (shr_fexp prec emax m e loc_Exact) = (e + k)%Z /\
  round_nearest_even
    (shr_m (fst (shr_fexp prec emax m e loc_Exact)))
    (loc_of_shr_record (fst (shr_fexp prec emax m e loc_Exact)))
  = rne m k.
Proof.
  intros Hm k. unfold shr_fexp, shr. subst k.
  destruct (fexp prec emax (Zdigits2 m + e) - e)%Z as [|p|p] eqn:E;
    cbn [fst snd shr_record_of_loc].
  - change (Z.max 0 0) with 0%Z. rewrite rne_zero_shift. split; [lia|reflexivity].
  - replace (Z.max 0 (Z.pos p)) with (Z.pos p) by lia. split; [reflexivity|].
    rewrite iter_pos_nat.
    destruct (Pos.to_nat p) as [|j] eqn:Ep; [lia|].
    assert (Hp : Z.pos p = (Z.of_nat j + 1)%Z).
    { rewrite <- (positive_nat_Z p), Ep. lia. }
    rewrite shr_iter by lia. rewrite Hp. cbn [shr_m loc_of_shr_record].
    rewrite orb_false_r.
    unfold rne.
    replace (Z.of_nat (S j)) with (Z.of_nat j + 1)%Z by lia.
    rewrite (mod_pow_succ m (Z.of_nat j)) by lia.
    rewrite (Z.pow_add_r 2 (Z.of_nat j) 1) by lia. change (2 ^ 1)%Z with 2%Z.
    set (q := (2 ^ Z.of_nat j)%Z).
    assert (Hq : (0 < q)%Z) by (apply Z.pow_pos_nonneg; lia).
    pose proof (Z.mod_pos_bound m q Hq) as Hlow.
    pose proof (Z.mod_pos_bound (m / q) 2 ltac:(lia)) as Hbit.
    rewrite Zodd_mod.
    destruct (Z.eqb_spec ((m / q) mod 2) 1) as [B|B];
      destruct (Z.eqb_spec (m mod q) 0) as [L|L]; cbn [negb].
    + rewrite B, L.
      replace (2 * (0 + q * 1) ?= q * 2)%Z with Eq
        by (symmetry; apply Z.compare_eq_iff; lia).
      reflexivity.
    + rewrite B.
      replace (2 * (m mod q + q * 1) ?= q * 2)%Z with Gt
        by (symmetry; apply Z.compare_gt_iff; lia).
      reflexivity.
    + assert (B0 : ((m / q) mod 2 = 0)%Z) by lia. rewrite B0, L.
      replace (2 * (0 + q * 0) ?= q * 2)%Z with Lt
        by (symmetry; apply Z.compare_lt_iff; lia).
      reflexivity.
    + assert (B0 : ((m / q) mod 2 = 0)%Z) by lia. rewrite B0.
      replace (2 * (m mod q + q * 0) ?= q * 2)%Z with Lt
        by (symmetry; apply Z.compare_lt_iff; lia).
      reflexivity.
  - replace (Z.max 0 (Z.neg p)) with 0%Z by lia. rewrite rne_zero_shift.
    split; [lia|reflexivity].
Qed.

Lemma Zdigits2_zero_or m : (0 <= m)%Z -> (0 <= Zdigits2 m)%Z.
Proof. destruct m as [|p|p]; simpl; lia. Qed.

Lemma rne_cases m k :
  rne m k = (m / 2 ^ k)%Z \/ rne m k = (m / 2 ^ k + 1)%Z.
Proof.
  unfold rne. destruct (2 * (m mod 2 ^ k) ?= 2 ^ k)%Z; auto.
  destruct (Z.even (m / 2 ^ k)); auto.
Qed.

(** The second, exact shift of [binary_round_aux]: it only undoes a carry. *)
Lemma shr_fexp_carry m2 e1 :
  (0 < m2)%Z ->
  fexp prec emax (Zdigits2 m2 + e1) = e1 \/
  (fexp prec emax (Zdigits2 m2 + e1) = (e1 + 1)%Z /\
   exists j, (1 <= j)%Z /\ m2 = (2 ^ j)%Z) ->
  exists m3 e3,
    shr_m (fst (shr_fexp prec emax m2 e1 loc_Exact)) = Z.pos m3 /\
    snd (shr_fexp prec emax m2 e1 loc_Exact) = e3 /\
    (Z.pos m3 * 2 ^ (e3 - e1) = m2)%Z /\ (e1 <= e3)%Z /\
    canonical (Z.pos m3) e3.
Proof.
  intros Hm H.
  destruct (shr_fexp_m m2 e1 loc_Exact ltac:(lia)) as [He Hs].
  rewrite He, Hs. clear He Hs.
  destruct H as [H|[H [j [Hj Ej]]]]; rewrite H.
  - replace (Z.max e1 e1) with e1 by lia.
    replace (e1 - e1)%Z with 0%Z by lia. change (2 ^ 0)%Z with 1%Z.
    rewrite Z.div_1_r. destruct m2 as [|p|p]; try lia.
    exists p, e1. split; [reflexivity|]. split; [reflexivity|].
    split; [replace (e1 - e1)%Z with 0%Z by lia; lia|]. split; [lia|].
    split; [lia | exact H].
  - replace (Z.max e1 (e1 + 1)) with (e1 + 1)%Z by lia.
    replace (e1 + 1 - e1)%Z with 1%Z by lia. change (2 ^ 1)%Z with 2%Z.
    assert (E2 : (m2 = 2 ^ (j - 1) * 2)%Z).
    { rewrite Ej. replace j with (j - 1 + 1)%Z at 1 by lia.
      rewrite Z.pow_add_r by lia. reflexivity. }
    assert (P : (0 < 2 ^ (j - 1))%Z) by (apply Z.pow_pos_nonneg; lia).
    assert (E3 : (m2 / 2 = 2 ^ (j - 1))%Z).
    { rewrite E2. apply Z.div_mul. lia. }
    rewrite E3. destruct (2 ^ (j - 1))%Z as [|p|p] eqn:Ep; try lia.
    exists p, (e1 + 1)%Z. split; [reflexivity|]. split; [reflexivity|].
    split; [replace (e1 + 1 - e1)%Z with 1%Z by lia; lia|]. split; [lia|].
    split; [lia|].
    assert (D2 : Zdigits2 m2 = (j + 1)%Z).
    { apply Zdigits2_unique; [lia|]. rewrite Ej.
      replace (j + 1 - 1)%Z with j by lia.
      split; [lia | apply Z.pow_lt_mono_r; lia]. }
    assert (D3 : Zdigits2 (Z.pos p) = j).
    { apply Zdigits2_unique; [lia|]. rewrite <- Ep.
      split; [lia | apply Z.pow_lt_mono_r; lia]. }
    rewrite D3. rewrite D2 in H. rewrite <- H. f_equal. lia.
Qed.

(** [binary_round_aux] on an aligned mantissa [m] with location [l]: the
    mantissa is shifted to the exponent [fexp] and rounded to [m2], one of the
    two neighbours; the result is zero, a canonical float of the value of
    [m2], or an infinity past the top exponent. *)
Lemma binary_round_aux_cases s m e l :
  (0 <= m)%Z ->
  (e <= fexp prec emax (Zdigits2 m + e))%Z ->
  (0 < m \/ e <= -1074)%Z ->
  let k := (fexp prec emax (Zdigits2 m + e) - e)%Z in
  let m2 := round_nearest_even
              (shr_m (fst (shr_fexp prec emax m e l)))
              (loc_of_shr_record (fst (shr_fexp prec emax m e l))) in
  let e1 := (e + k)%Z in
  (m2 = (m / 2 ^ k)%Z \/ m2 = (m / 2 ^ k + 1)%Z) /\
  ((m2 = 0%Z /\ binary_round_aux prec emax s m e l = S754_zero s) \/
   (exists m3 e3,
       (Z.pos m3 * 2 ^ (e3 - e1) = m2)%Z /\ (e1 <= e3)%Z /\
       canonical (Z.pos m3) e3 /\
       binary_round_aux prec emax s m e l
       = if (e3 <=? emax - prec)%Z then S754_finite s m3 e3
         else S754_infinity s)).
Proof.
  intros Hm Ha Hz k m2 e1. unfold binary_round_aux.
  destruct (shr_fexp_m m e l Hm) as [He Hs].
  replace (Z.max e (fexp prec emax (Zdigits2 m + e))) with e1 in He, Hs
    by (subst e1 k; lia).
  replace (e1 - e)%Z with k in Hs by (subst e1; lia).
  assert (Hc2 : m2 = (m / 2 ^ k)%Z \/ m2 = (m / 2 ^ k + 1)%Z).
  { subst m2. rewrite <- Hs. apply round_nearest_even_cases. }
  split; [exact Hc2|].
  destruct (shr_fexp prec emax m e l) as [mrs1 e1'].
  cbn [fst snd] in He, Hs, m2. subst e1'. fold m2.
  assert (Hk : (0 <= k)%Z) by (subst k; lia).
  assert (P : (0 < 2 ^ k)%Z) by (apply Z.pow_pos_nonneg; lia).
  assert (Hq : (0 <= m / 2 ^ k)%Z) by (apply Z.div_pos; lia).
  assert (Hm2 : (0 <= m2)%Z) by lia.
  destruct (Z.eq_dec m2 0) as [Z0|NZ].
  - left. split; [exact Z0|]. rewrite Z0.
    destruct (shr_fexp_m 0 e1 loc_Exact ltac:(lia)) as [_ Hs0].
    destruct (shr_fexp prec emax 0 e1 loc_Exact) as [mrs3 e3].
    cbn [fst snd] in *. rewrite Hs0. rewrite Z.div_0_l; [reflexivity|].
    apply Z.pow_nonzero; lia.
  - right.
    assert (Hc : fexp prec emax (Zdigits2 m2 + e1) = e1 \/
                 (fexp prec emax (Zdigits2 m2 + e1) = (e1 + 1)%Z /\
                  exists j, (1 <= j)%Z /\ m2 = (2 ^ j)%Z)).
    { destruct (Z_lt_le_dec k (Zdigits2 m)) as [Hlt|Hge].
      - assert (Hm' : (0 < m)%Z).
        { destruct m as [|p|p]; [simpl in Hlt; lia | lia | lia]. }
        destruct (Zdigits2_div m k Hm' ltac:(lia)) as [Hp1 Hd1].
        assert (C1 : fexp prec emax (Zdigits2 (m / 2 ^ k) + e1) = e1).
        { rewrite Hd1. subst e1 k.
          replace (Zdigits2 m - (fexp prec emax (Zdigits2 m + e) - e) +
                   (e + (fexp prec emax (Zdigits2 m + e) - e)))%Z
            with (Zdigits2 m + e)%Z by lia. lia. }
        destruct Hc2 as [E|E]; rewrite E.
        + left. exact C1.
        + destruct (Zdigits2_succ (m / 2 ^ k) Hp1) as [D|[D Ep]].
          * left. rewrite D. exact C1.
          * rewrite D. rewrite !fexp_eq in *.
            destruct (Zdigits2_bounds _ Hp1) as [_ Hpos].
            destruct (Z_lt_le_dec (-1074) (Zdigits2 (m / 2 ^ k) + 1 + e1 - 53))
              as [Hn|Hsn].
            -- right. split; [lia|].
               exists (Zdigits2 (m / 2 ^ k)). split; [lia | exact Ep].
            -- left. lia.
      - (* the mantissa is shifted out entirely *)
        assert (Q0 : (m / 2 ^ k = 0)%Z).
        { destruct (Z.eq_dec m 0) as [->|NM];
            [apply Z.div_0_l; apply Z.pow_nonzero; lia|].
          apply Z.div_small.
          destruct (Zdigits2_bounds m ltac:(lia)) as [[_ Hu] _].
          split; [lia|].
          assert (2 ^ Zdigits2 m <= 2 ^ k)%Z by (apply Z.pow_le_mono_r; lia). lia. }
        assert (E1 : m2 = 1%Z) by lia.
        left. rewrite E1. change (Zdigits2 1) with 1%Z.
        assert (Hd0 : (0 <= Zdigits2 m)%Z) by (apply Zdigits2_zero_or; lia).
        destruct (Z.eq_dec m 0) as [M0|NM].
        + subst m. change (Zdigits2 0) with 0%Z in *.
          subst e1 k. rewrite !fexp_eq in *. lia.
        + subst e1 k. rewrite !fexp_eq in *. lia. }
    destruct (shr_fexp_carry m2 e1 ltac:(lia) Hc)
      as [m3 [e3 [Hs3 [He3 [Hv [Hle Hcan]]]]]].
    destruct (shr_fexp prec emax m2 e1 loc_Exact) as [mrs3 e3'].
    cbn [fst snd] in *. subst e3'. rewrite Hs3.
    exists m3, e3. split; [exact Hv|]. split; [exact Hle|].
    split; [exact Hcan | reflexivity].
Qed.

(** On an exact mantissa the rounding is to nearest, ties to even. *)
Lemma binary_round_aux_rne s m e :
  (0 < m)%Z ->
  (e <= fexp prec emax (Zdigits2 m + e))%Z ->
  let k := (fexp prec emax (Zdigits2 m + e) - e)%Z in
  let m2 := rne m k in
  let e1 := (e + k)%Z in
  (m2 = 0%Z /\ binary_round_aux prec emax s m e loc_Exact = S754_zero s) \/
  (exists m3 e3,
      (Z.pos m3 * 2 ^ (e3 - e1) = m2)%Z /\ (e1 <= e3)%Z /\
      canonical (Z.pos m3) e3 /\
      binary_round_aux prec emax s m e loc_Exact
      = if (e3 <=? emax - prec)%Z then S754_finite s m3 e3
        else S754_infinity s).
Proof.
  intros Hm Ha k m2 e1.
  destruct (binary_round_aux_cases s m e loc_Exact ltac:(lia) Ha ltac:(lia))
    as [_ H].
  destruct (shr_fexp_rne m e Hm) as [_ Hr]. cbv zeta in H.
  replace (Z.max 0 (fexp prec emax (Zdigits2 m + e) - e)) with k in Hr
    by (subst k; lia).
  rewrite Hr in H. exact H.
Qed.

(** ** Values in units of the smallest positive binary64 number *)

Lemma rne_scale m j k :
  (0 <= j)%Z -> (0 <= k)%Z -> rne (m * 2 ^ j) (k + j) = rne m k.
Proof.
  intros Hj Hk. unfold rne.
  assert (Pj : (0 < 2 ^ j)%Z) by (apply Z.pow_pos_nonneg; lia).
  assert (Pk : (0 < 2 ^ k)%Z) by (apply Z.pow_pos_nonneg; lia).
  rewrite Z.pow_add_r by lia.
  rewrite Z.div_mul_cancel_r by lia.
  rewrite Z.mul_mod_distr_r by lia.
  replace (2 * (m mod 2 ^ k * 2 ^ j))%Z with (2 * (m mod 2 ^ k) * 2 ^ j)%Z by lia.
  assert (C : (2 * (m mod 2 ^ k) * 2 ^ j ?= 2 ^ k * 2 ^ j)%Z
              = (2 * (m mod 2 ^ k) ?= 2 ^ k)%Z).
  { destruct (Z.compare_spec (2 * (m mod 2 ^ k)) (2 ^ k)) as [E|E|E].
    - apply Z.compare_eq_iff. nia.
    - apply Z.compare_lt_iff. nia.
    - apply Z.compare_gt_iff. nia. }
  rewrite C. reflexivity.
Qed.

Lemma rne_exact m k : (0 <= k)%Z -> rne (m * 2 ^ k) k = m.
Proof.
  intros Hk. unfold rne.
  assert (Pk : (0 < 2 ^ k)%Z) by (apply Z.pow_pos_nonneg; lia).
  rewrite Z.mod_mul, Z.div_mul by lia.
  replace (2 * 0 ?= 2 ^ k)%Z with Lt by (symmetry; apply Z.compare_lt_iff; lia).
  reflexivity.
Qed.

Lemma canonical_digits m e :
  canonical m e -> (Zdigits2 m <= 53 /\ -1074 <= e)%Z.
Proof. intros [Hm H]. rewrite fexp_eq in H. lia. Qed.

Lemma canonical_bounds m e :
  canonical m e -> (e <= 971)%Z -> (m * 2 ^ (e + 1074) < overflow)%Z.
Proof.
  intros Hc He. destruct (canonical_digits m e Hc) as [Hd Hl].
  destruct Hc as [Hm _]. destruct (Zdigits2_bounds m Hm) as [[_ Hu] _].
  assert (2 ^ Zdigits2 m <= 2 ^ 53)%Z by (apply Z.pow_le_mono_r; lia).
  assert (P : (0 < 2 ^ (e + 1074))%Z) by (apply Z.pow_pos_nonneg; lia).
  assert (2 ^ (e + 1074) <= 2 ^ 2045)%Z by (apply Z.pow_le_mono_r; lia).
  unfold overflow. change (2 ^ 2098)%Z with (2 ^ 53 * 2 ^ 2045)%Z. nia.
Qed.

Lemma canonical_overflow m e :
  canonical m e -> (971 < e)%Z -> (overflow <= m * 2 ^ (e + 1074))%Z.
Proof.
  intros [Hm Hc] He. rewrite fexp_eq in Hc.
  destruct (Zdigits2_bounds m Hm) as [[Hl _] _].
  assert (Zdigits2 m = 53)%Z by lia.
  replace (Zdigits2 m - 1)%Z with 52%Z in Hl by lia.
  assert (2 ^ 2046 <= 2 ^ (e + 1074))%Z by (apply Z.pow_le_mono_r; lia).
  unfold overflow. change (2 ^ 2098)%Z with (2 ^ 52 * 2 ^ 2046)%Z. nia.
Qed.

(** [binary_round_aux] on an exact, aligned mantissa rounds its value, read
    with [t] bits below one unit, by [RNmag]. *)
Lemma binary_round_aux_RN s m e t :
  (0 < m)%Z -> (e <= fexp prec emax (Zdigits2 m + e))%Z ->
  (0 <= t)%Z -> (- 1074 - t <= e)%Z ->
  let X := (m * 2 ^ (e + 1074 + t))%Z in
  let r := binary_round_aux prec emax s m e loc_Exact in
  ((RNmag t X < overflow)%Z ->
   SFfinite r = true /\ valid_binary r = true /\
   ulps r = cond_Zopp s (RNmag t X)) /\
  ((overflow <= RNmag t X)%Z -> r = S754_infinity s).
Proof.
  intros Hm Ha Ht He X r.
  set (k := (fexp prec emax (Zdigits2 m + e) - e)%Z).
  assert (Hk : (0 <= k)%Z) by (subst k; lia).
  assert (HX : Zdigits2 X = (Zdigits2 m + (e + 1074 + t))%Z).
  { unfold X. apply Zdigits2_mul_pow; lia. }
  assert (HK : Z.max t (Zdigits2 X - 53) = (k + (e + 1074 + t))%Z).
  { rewrite HX. subst k. rewrite fexp_eq. lia. }
  assert (HR : RNmag t X = (rne m k * 2 ^ (e + k + 1074))%Z).
  { unfold RNmag. rewrite HK. unfold X. rewrite rne_scale by lia.
    f_equal. f_equal. lia. }
  rewrite HR.
  destruct (binary_round_aux_rne s m e Hm Ha)
    as [[Z0 E]|[m3 [e3 [Hv [Hle [Hc E]]]]]]; fold k in Z0 || fold k in Hv;
    subst r; rewrite E.
  - fold k in Z0. rewrite Z0. split.
    + intros _. repeat split. destruct s; reflexivity.
    + unfold overflow. intros H. simpl in H. lia.
  - fold k in Hv.
    assert (Hval : (rne m k * 2 ^ (e + k + 1074)
                    = Z.pos m3 * 2 ^ (e3 + 1074))%Z).
    { rewrite <- Hv. rewrite <- Z.mul_assoc, <- Z.pow_add_r by lia.
      f_equal. f_equal. lia. }
    rewrite Hval.
    change (emax - prec)%Z with 971%Z.
    destruct (Z.leb_spec e3 971) as [L|G].
    + pose proof (canonical_bounds _ _ Hc L). split.
      * intros _. split; [reflexivity|]. split; [|reflexivity].
        unfold valid_binary, SpecFloat.valid_binary, bounded, canonical_mantissa.
        destruct Hc as [_ Hc]. rewrite Zdigits2_pos in Hc. rewrite Hc, Z.eqb_refl.
        apply Z.leb_le. exact L.
      * intros H'. lia.
    + pose proof (canonical_overflow _ _ Hc G). split.
      * intros H'. lia.
      * intros _. reflexivity.
Qed.

Lemma rne_nonneg m k : (0 <= m)%Z -> (0 <= k)%Z -> (0 <= rne m k)%Z.
Proof.
  intros Hm Hk.
  assert (0 < 2 ^ k)%Z by (apply Z.pow_pos_nonneg; lia).
  assert (0 <= m / 2 ^ k)%Z by (apply Z.div_pos; lia).
  destruct (rne_cases m k) as [E|E]; lia.
Qed.

Lemma rne_ge_quot m k : (m / 2 ^ k <= rne m k)%Z.
Proof. destruct (rne_cases m k) as [E|E]; lia. Qed.

Lemma rne_mono X Y k : (0 <= k)%Z -> (X <= Y)%Z -> (rne X k <= rne Y k)%Z.
Proof.
  intros Hk HXY.
  assert (P : (0 < 2 ^ k)%Z) by (apply Z.pow_pos_nonneg; lia).
  pose proof (Z.div_le_mono X Y (2 ^ k) P HXY) as Hq.
  destruct (Z.eq_dec (X / 2 ^ k) (Y / 2 ^ k)) as [E|N].
  - assert (Hr : (X mod 2 ^ k <= Y mod 2 ^ k)%Z).
    { pose proof (Z.div_mod X (2 ^ k) ltac:(lia)).
      pose proof (Z.div_mod Y (2 ^ k) ltac:(lia)). nia. }
    unfold rne. rewrite E.
    destruct (Z.compare_spec (2 * (X mod 2 ^ k)) (2 ^ k));
      destruct (Z.compare_spec (2 * (Y mod 2 ^ k)) (2 ^ k));
      try lia; destruct (Z.even (Y / 2 ^ k)); lia.
  - pose proof (rne_ge_quot Y k). destruct (rne_cases X k) as [E|E]; lia.
Qed.

Lemma Zdigits2_mono X Y : (0 <= X <= Y)%Z -> (Zdigits2 X <= Zdigits2 Y)%Z.
Proof.
  intros [H0 HXY]. destruct (Z.eq_dec X 0) as [->|NX].
  - apply Zdigits2_zero_or. lia.
  - destruct (Zdigits2_bounds X ltac:(lia)) as [[Hl _] _].
    destruct (Zdigits2_bounds Y ltac:(lia)) as [[_ Hu] _].
    destruct (Z_lt_le_dec (Zdigits2 Y) (Zdigits2 X)) as [Hlt|]; [|assumption].
    assert (2 ^ Zdigits2 Y <= 2 ^ (Zdigits2 X - 1))%Z
      by (apply Z.pow_le_mono_r; lia). lia.
Qed.

Lemma RNmag_nonneg t X : (0 <= t)%Z -> (0 <= X)%Z -> (0 <= RNmag t X)%Z.
Proof.
  intros Ht HX. unfold RNmag.
  apply Z.mul_nonneg_nonneg; [apply rne_nonneg; lia|].
  apply Z.pow_nonneg. lia.
Qed.

Lemma rne_zero k : (0 <= k)%Z -> rne 0 k = 0%Z.
Proof.
  intros Hk. unfold rne. rewrite Z.mod_0_l, Z.div_0_l
    by (apply Z.pow_nonzero; lia).
  assert (0 < 2 ^ k)%Z by (apply Z.pow_pos_nonneg; lia).
  replace (2 * 0 ?= 2 ^ k)%Z with Lt by (symmetry; apply Z.compare_lt_iff; lia).
  reflexivity.
Qed.

(** Rounding is monotone on magnitudes. *)
Lemma RNmag_mono t X Y :
  (0 <= t)%Z -> (0 <= X <= Y)%Z -> (RNmag t X <= RNmag t Y)%Z.
Proof.
  intros Ht [H0 HXY]. destruct (Z.eq_dec X 0) as [->|NX].
  - unfold RNmag at 1. rewrite rne_zero by (simpl; lia).
    rewrite Z.mul_0_l. apply RNmag_nonneg; lia.
  - pose proof (Zdigits2_mono X Y ltac:(lia)) as Hd.
    destruct (Zdigits2_bounds X ltac:(lia)) as [[HlX HuX] HpX].
    destruct (Zdigits2_bounds Y ltac:(lia)) as [[HlY HuY] HpY].
    unfold RNmag. set (KX := Z.max t (Zdigits2 X - 53)).
    set (KY := Z.max t (Zdigits2 Y - 53)).
    destruct (Z.eq_dec KX KY) as [E|N].
    + rewrite <- E. apply Z.mul_le_mono_nonneg_r;
        [apply Z.pow_nonneg; lia | apply rne_mono; subst KX; lia].
    + assert (HK : (KX < KY)%Z) by (subst KX KY; lia).
      assert (PX : (0 < 2 ^ KX)%Z) by (apply Z.pow_pos_nonneg; subst KX; lia).
      assert (PY : (0 < 2 ^ KY)%Z) by (apply Z.pow_pos_nonneg; subst KY; lia).
      set (M := Z.max (Zdigits2 X) KX).
      (* below and above a power of two that separates them *)
      assert (U : (rne X KX * 2 ^ (KX - t) <= 2 ^ (M - t))%Z).
      { assert (EM : (2 ^ M = 2 ^ (M - KX) * 2 ^ KX)%Z).
        { rewrite <- Z.pow_add_r by (subst M KX; lia). f_equal. lia. }
        assert (2 ^ Zdigits2 X <= 2 ^ M)%Z
          by (apply Z.pow_le_mono_r; subst M; lia).
        assert (Q : (X / 2 ^ KX < 2 ^ (M - KX))%Z).
        { apply Z.div_lt_upper_bound; [lia|]. rewrite Z.mul_comm, <- EM. lia. }
        assert (R : (rne X KX <= 2 ^ (M - KX))%Z)
          by (destruct (rne_cases X KX) as [R|R]; rewrite R; lia).
        replace (M - t)%Z with ((M - KX) + (KX - t))%Z by lia.
        rewrite Z.pow_add_r by (subst M KX; lia).
        apply Z.mul_le_mono_nonneg_r; [apply Z.pow_nonneg; lia | exact R]. }
      assert (L : (2 ^ (Zdigits2 Y - 1 - t) <= rne Y KY * 2 ^ (KY - t))%Z).
      { assert (EY : (2 ^ (Zdigits2 Y - 1)
                      = 2 ^ (Zdigits2 Y - 1 - KY) * 2 ^ KY)%Z).
        { rewrite <- Z.pow_add_r by (subst KX KY; lia). f_equal. lia. }
        assert (Q : (2 ^ (Zdigits2 Y - 1 - KY) <= Y / 2 ^ KY)%Z).
        { apply Z.div_le_lower_bound; [lia|]. rewrite Z.mul_comm, <- EY. exact HlY. }
        pose proof (rne_ge_quot Y KY) as R.
        replace (Zdigits2 Y - 1 - t)%Z
          with ((Zdigits2 Y - 1 - KY) + (KY - t))%Z by lia.
        rewrite Z.pow_add_r by (subst KX KY; lia).
        apply Z.mul_le_mono_nonneg_r; [apply Z.pow_nonneg; subst KY; lia | lia]. }
      assert (2 ^ (M - t) <= 2 ^ (Zdigits2 Y - 1 - t))%Z
        by (apply Z.pow_le_mono_r; subst M KX KY; lia).
      lia.
Qed.

Lemma RN_zero : RN 0 = 0%Z.
Proof. reflexivity. Qed.

Lemma RN_pos X : (0 < X)%Z -> RN X = RNmag 0 X.
Proof.
  intros H. unfold RN. rewrite Z.sgn_pos, Z.abs_eq by lia. lia.
Qed.

Lemma RN_neg X : (X < 0)%Z -> RN X = (- RNmag 0 (- X))%Z.
Proof.
  intros H. unfold RN. rewrite Z.sgn_neg, Z.abs_neq by lia. lia.
Qed.

Lemma RN_opp X : RN (- X) = (- RN X)%Z.
Proof.
  destruct (Z.lt_trichotomy X 0) as [H|[->|H]].
  - rewrite (RN_pos (- X)), (RN_neg X) by lia. lia.
  - reflexivity.
  - rewrite (RN_neg (- X)), (RN_pos X) by lia. rewrite Z.opp_involutive. lia.
Qed.

(** Rounding is monotone. *)
Lemma RN_mono X Y : (X <= Y)%Z -> (RN X <= RN Y)%Z.
Proof.
  intros H.
  assert (HX0 : forall Z0, (0 <= Z0)%Z -> (0 <= RN Z0)%Z).
  { intros Z0 HZ. destruct (Z.eq_dec Z0 0) as [->|]; [rewrite RN_zero; lia|].
    rewrite RN_pos by lia. apply RNmag_nonneg; lia. }
  assert (HX1 : forall Z0, (Z0 <= 0)%Z -> (RN Z0 <= 0)%Z).
  { intros Z0 HZ. destruct (Z.eq_dec Z0 0) as [->|]; [rewrite RN_zero; lia|].
    rewrite RN_neg by lia.
    pose proof (RNmag_nonneg 0 (- Z0) ltac:(lia) ltac:(lia)). lia. }
  destruct (Z_lt_le_dec X 0) as [HX|HX]; destruct (Z_lt_le_dec Y 0) as [HY|HY].
  - rewrite (RN_neg X), (RN_neg Y) by lia.
    pose proof (RNmag_mono 0 (- Y) (- X) ltac:(lia) ltac:(lia)). lia.
  - pose proof (HX0 Y HY). pose proof (HX1 X ltac:(lia)). lia.
  - lia.
  - destruct (Z.eq_dec X 0) as [->|NX]; [rewrite RN_zero; apply HX0; lia|].
    rewrite (RN_pos X), (RN_pos Y) by lia. apply RNmag_mono; lia.
Qed.

(** Canonical values are fixed points of the rounding. *)
Lemma RNmag_canonical m e :
  canonical m e -> RNmag 0 (m * 2 ^ (e + 1074)) = (m * 2 ^ (e + 1074))%Z.
Proof.
  intros Hc. destruct (canonical_digits m e Hc) as [Hd He].
  destruct Hc as [Hm Hc]. rewrite fexp_eq in Hc.
  unfold RNmag. rewrite Zdigits2_mul_pow by lia.
  replace (Z.max 0 (Zdigits2 m + (e + 1074) - 53)) with (e + 1074)%Z by lia.
  rewrite rne_exact by lia. rewrite Z.sub_0_r. reflexivity.
Qed.

(** [binary_round] rounds the value [p * 2^e], [e >= -1074], by [RNmag]. *)
Lemma binary_round_RN s p e :
  (-1074 <= e)%Z ->
  let X := (Z.pos p * 2 ^ (e + 1074))%Z in
  let r := binary_round prec emax s p e in
  ((RNmag 0 X < overflow)%Z ->
   SFfinite r = true /\ valid_binary r = true /\
   ulps r = cond_Zopp s (RNmag 0 X)) /\
  ((overflow <= RNmag 0 X)%Z -> r = S754_infinity s).
Proof.
  intros He X r. subst r. unfold binary_round.
  pose proof (shl_align_spec p e (fexp prec emax (Z.pos (digits2_pos p) + e))) as H.
  destruct (shl_align p e (fexp prec emax (Z.pos (digits2_pos p) + e))) as [mz ez].
  destruct H as [Hez Hmz].
  assert (Hf : (-1074 <= fexp prec emax (Z.pos (digits2_pos p) + e))%Z)
    by (rewrite fexp_eq; lia).
  assert (Hdz : (Zdigits2 (Z.pos mz) + ez = Z.pos (digits2_pos p) + e)%Z).
  { rewrite Hmz, Zdigits2_mul_pow by lia. rewrite Zdigits2_pos. lia. }
  assert (HX : X = (Z.pos mz * 2 ^ (ez + 1074 + 0))%Z).
  { unfold X. rewrite Hmz, <- Z.mul_assoc, <- Z.pow_add_r by lia.
    f_equal. f_equal. lia. }
  rewrite HX.
  apply binary_round_aux_RN; try lia. rewrite Hdz. lia.
Qed.

(** [binary_normalize] rounds the signed value [M * 2^e] by [RN]. *)
Lemma binary_normalize_RN M e :
  (-1074 <= e)%Z ->
  let X := (M * 2 ^ (e + 1074))%Z in
  let r := binary_normalize prec emax M e false in
  ((Z.abs (RN X) < overflow)%Z ->
   SFfinite r = true /\ valid_binary r = true /\ ulps r = RN X) /\
  ((overflow <= RN X)%Z -> r = S754_infinity false) /\
  ((RN X <= - overflow)%Z -> r = S754_infinity true).
Proof.
  intros He X r. subst r X.
  assert (P : (0 < 2 ^ (e + 1074))%Z) by (apply Z.pow_pos_nonneg; lia).
  assert (O : (0 < overflow)%Z) by reflexivity.
  destruct M as [|p|p]; cbn [binary_normalize].
  - rewrite Z.mul_0_l, RN_zero. repeat split; intros; try reflexivity; lia.
  - rewrite RN_pos by lia.
    pose proof (RNmag_nonneg 0 (Z.pos p * 2 ^ (e + 1074)) ltac:(lia) ltac:(lia)).
    destruct (binary_round_RN false p e He) as [Hf Hi]. cbv zeta in Hf, Hi.
    repeat split; intros; try (apply Hf; lia); try (apply Hi; lia); lia.
  - assert (E : (Z.neg p * 2 ^ (e + 1074) = - (Z.pos p * 2 ^ (e + 1074)))%Z) by lia.
    rewrite E, RN_opp, RN_pos by lia.
    pose proof (RNmag_nonneg 0 (Z.pos p * 2 ^ (e + 1074)) ltac:(lia) ltac:(lia)).
    destruct (binary_round_RN true p e He) as [Hf Hi]. cbv zeta in Hf, Hi.
    repeat split; intros; try (apply Hf; lia); try (apply Hi; lia); lia.
Qed.

Lemma valid_finite_canonical s m e :
  valid_binary (S754_finite s m e) = true ->
  canonical (Z.pos m) e /\ (e <= 971)%Z.
Proof.
  unfold valid_binary, SpecFloat.valid_binary, bounded, canonical_mantissa.
  intros H. apply andb_true_iff in H. destruct H as [H1 H2].
  apply Z.eqb_eq in H1. apply Z.leb_le in H2.
  split; [split; [lia | rewrite Zdigits2_pos; exact H1] | exact H2].
Qed.

(** The units of a valid finite float: a fixed point of [RN], below
    [overflow] in magnitude. *)
Lemma ulps_valid f :
  SFfinite f = true -> valid_binary f = true ->
  RN (ulps f) = ulps f /\ (Z.abs (ulps f) < overflow)%Z.
Proof.
  intros Hf Hv. destruct f as [s|s| |s m e]; try discriminate.
  - split; reflexivity.
  - destruct (valid_finite_canonical s m e Hv) as [Hc He].
    pose proof (RNmag_canonical _ _ Hc) as Hid.
    pose proof (canonical_bounds _ _ Hc He) as Hb.
    destruct (canonical_digits _ _ Hc) as [_ Hl].
    assert (P : (0 < 2 ^ (e + 1074))%Z) by (apply Z.pow_pos_nonneg; lia).
    cbn [ulps]. destruct s; cbn [cond_Zopp].
    + rewrite RN_opp, RN_pos, Hid by lia. split; lia.
    + rewrite RN_pos, Hid by lia. split; lia.
Qed.

Lemma shl_align_value mx ex ez :
  (ez <= ex)%Z ->
  (Z.pos (fst (shl_align mx ex ez)) * 2 ^ (ez + 1074)
   = Z.pos mx * 2 ^ (ex + 1074))%Z \/ (ez < -1074)%Z.
Proof.
  intros H. destruct (Z_lt_le_dec ez (-1074)) as [|Hl]; [right; assumption|left].
  pose proof (shl_align_spec mx ex ez) as S.
  destruct (shl_align mx ex ez) as [mz ez']. destruct S as [S1 S2].
  cbn [fst]. rewrite S2. replace ez' with ez by lia.
  rewrite <- Z.mul_assoc, <- Z.pow_add_r by lia. f_equal. f_equal. lia.
Qed.

(** The exact integer on which [SFadd] and [SFsub] call [binary_normalize]. *)
Lemma aligned_units s m e ez :
  (-1074 <= ez <= e)%Z ->
  (cond_Zopp s (Z.pos (fst (shl_align m e ez))) * 2 ^ (ez + 1074)
   = ulps (S754_finite s m e))%Z.
Proof.
  intros H. cbn [ulps].
  destruct (shl_align_value m e ez ltac:(lia)) as [E|E]; [|lia].
  destruct s; cbn [cond_Zopp]; lia.
Qed.

Lemma rounds_to_exact f :
  SFfinite f = true -> valid_binary f = true -> rounds_to (ulps f) f.
Proof.
  intros Hf Hv. destruct (ulps_valid f Hf Hv) as [Hid Hb].
  unfold rounds_to. rewrite Hid. repeat split; intros; try assumption; lia.
Qed.

Lemma rounds_to_eq X Y r : X = Y -> rounds_to X r -> rounds_to Y r.
Proof. intros ->. exact (fun H => H). Qed.

Lemma binary_normalize_rounds M e :
  (-1074 <= e)%Z ->
  rounds_to (M * 2 ^ (e + 1074)) (binary_normalize prec emax M e false).
Proof.
  intros He. destruct (binary_normalize_RN M e He) as [Hf [Hp Hn]].
  cbv zeta in Hf, Hp, Hn. unfold rounds_to.
  repeat split; intros; try (apply Hf; assumption); auto.
Qed.

Lemma ulps_opp s m e :
  ulps (S754_finite (negb s) m e) = (- ulps (S754_finite s m e))%Z.
Proof. destruct s; cbn [ulps negb cond_Zopp]; lia. Qed.

Lemma valid_opp s m e :
  valid_binary (S754_finite s m e) = true ->
  valid_binary (S754_finite (negb s) m e) = true.
Proof. exact (fun H => H). Qed.

(** Subtraction of finite floats rounds the exact difference. *)
Lemma SFsub_rounds x y :
  SFfinite x = true -> SFfinite y = true ->
  valid_binary x = true -> valid_binary y = true ->
  rounds_to (ulps x - ulps y) (SFsub prec emax x y).
Proof.
  intros Fx Fy Vx Vy.
  destruct x as [sx|sx| |sx mx ex], y as [sy|sy| |sy my ey]; try discriminate.
  - apply (rounds_to_eq 0); [reflexivity|].
    destruct sx, sy; apply (rounds_to_exact (S754_zero _)); reflexivity.
  - cbn [SFsub]. eapply rounds_to_eq;
      [|apply (rounds_to_exact (S754_finite (negb sy) my ey));
        [reflexivity | apply valid_opp; exact Vy]].
    rewrite ulps_opp. cbn [ulps]. lia.
  - cbn [SFsub]. eapply rounds_to_eq; [|apply (rounds_to_exact _ Fx Vx)].
    cbn [ulps]. lia.
  - cbn [SFsub].
    destruct (valid_finite_canonical _ _ _ Vx) as [Cx _].
    destruct (valid_finite_canonical _ _ _ Vy) as [Cy _].
    destruct (canonical_digits _ _ Cx) as [_ Hx].
    destruct (canonical_digits _ _ Cy) as [_ Hy].
    eapply rounds_to_eq; [|apply binary_normalize_rounds; lia].
    rewrite Z.mul_sub_distr_r.
    rewrite !aligned_units by lia. reflexivity.
Qed.

(** Addition of finite floats rounds the exact sum. *)
Lemma SFadd_rounds x y :
  SFfinite x = true -> SFfinite y = true ->
  valid_binary x = true -> valid_binary y = true ->
  rounds_to (ulps x + ulps y) (SFadd prec emax x y).
Proof.
  intros Fx Fy Vx Vy.
  destruct x as [sx|sx| |sx mx ex], y as [sy|sy| |sy my ey]; try discriminate.
  - apply (rounds_to_eq 0); [reflexivity|].
    destruct sx, sy; apply (rounds_to_exact (S754_zero _)); reflexivity.
  - cbn [SFadd]. eapply rounds_to_eq; [|apply (rounds_to_exact _ Fy Vy)].
    cbn [ulps]. lia.
  - cbn [SFadd]. eapply rounds_to_eq; [|apply (rounds_to_exact _ Fx Vx)].
    cbn [ulps]. lia.
  - cbn [SFadd].
    destruct (valid_finite_canonical _ _ _ Vx) as [Cx _].
    destruct (valid_finite_canonical _ _ _ Vy) as [Cy _].
    destruct (canonical_digits _ _ Cx) as [_ Hx].
    destruct (canonical_digits _ _ Cy) as [_ Hy].
    eapply rounds_to_eq; [|apply binary_normalize_rounds; lia].
    rewrite Z.mul_add_distr_r.
    rewrite !aligned_units by lia. reflexivity.
Qed.

(** A canonical mantissa at a lower exponent is the smaller value. *)
Lemma canonical_exponent_lt m1 e1 m2 e2 :
  canonical m1 e1 -> canonical m2 e2 -> (e1 < e2)%Z ->
  (m1 * 2 ^ (e1 + 1074) < m2 * 2 ^ (e2 + 1074))%Z.
Proof.
  intros C1 C2 H.
  destruct (canonical_digits _ _ C1) as [_ L1].
  destruct C1 as [P1 C1], C2 as [P2 C2]. rewrite fexp_eq in C1, C2.
  destruct (Zdigits2_bounds m1 P1) as [[_ U1] D1].
  destruct (Zdigits2_bounds m2 P2) as [[L2 _] D2].
  assert (Hd : (Zdigits2 m1 + e1 < Zdigits2 m2 + e2)%Z) by lia.
  assert (Q1 : (0 < 2 ^ (e1 + 1074))%Z) by (apply Z.pow_pos_nonneg; lia).
  assert (Q2 : (0 < 2 ^ (e2 + 1074))%Z) by (apply Z.pow_pos_nonneg; lia).
  assert (A : (m1 * 2 ^ (e1 + 1074) < 2 ^ (Zdigits2 m1 + (e1 + 1074)))%Z).
  { rewrite (Z.pow_add_r 2 (Zdigits2 m1) (e1 + 1074)) by lia. nia. }
  assert (B : (2 ^ (Zdigits2 m2 - 1 + (e2 + 1074)) <= m2 * 2 ^ (e2 + 1074))%Z).
  { rewrite (Z.pow_add_r 2 (Zdigits2 m2 - 1) (e2 + 1074)) by lia. nia. }
  assert (2 ^ (Zdigits2 m1 + (e1 + 1074))
          <= 2 ^ (Zdigits2 m2 - 1 + (e2 + 1074)))%Z
    by (apply Z.pow_le_mono_r; lia).
  lia.
Qed.

(** On valid finite floats [SFcompare] compares the values. *)
Lemma SFcompare_ulps x y :
  SFfinite x = true -> SFfinite y = true ->
  valid_binary x = true -> valid_binary y = true ->
  SFcompare x y = Some (ulps x ?= ulps y)%Z.
Proof.
  intros Fx Fy Vx Vy.
  assert (Pos : forall s m e, valid_binary (S754_finite s m e) = true ->
                              (0 < Z.pos m * 2 ^ (e + 1074))%Z).
  { intros s m e V. destruct (valid_finite_canonical _ _ _ V) as [C _].
    destruct (canonical_digits _ _ C). 
    assert (0 < 2 ^ (e + 1074))%Z by (apply Z.pow_pos_nonneg; lia). lia. }
  destruct x as [sx|sx| |sx mx ex], y as [sy|sy| |sy my ey]; try discriminate.
  - reflexivity.
  - pose proof (Pos _ _ _ Vy). cbn [SFcompare ulps]. f_equal. symmetry.
    destruct sy; cbn [cond_Zopp];
      [apply Z.compare_gt_iff | apply Z.compare_lt_iff]; lia.
  - pose proof (Pos _ _ _ Vx). cbn [SFcompare ulps]. f_equal. symmetry.
    destruct sx; cbn [cond_Zopp];
      [apply Z.compare_lt_iff | apply Z.compare_gt_iff]; lia.
  - pose proof (Pos _ _ _ Vx). pose proof (Pos _ _ _ Vy).
    destruct (valid_finite_canonical _ _ _ Vx) as [Cx _].
    destruct (valid_finite_canonical _ _ _ Vy) as [Cy _].
    cbn [SFcompare ulps]. f_equal. symmetry.
    destruct sx, sy; cbn [cond_Zopp].
    + destruct (Z.compare_spec ex ey) as [E|E|E].
      * subst ey. rewrite Pos.compare_cont_spec.
        change (mx ?= my)%positive with (Z.pos mx ?= Z.pos my)%Z.
        assert (Q : (0 < 2 ^ (ex + 1074))%Z) by
            (destruct (canonical_digits _ _ Cx); apply Z.pow_pos_nonneg; lia).
        destruct (Z.compare_spec (Z.pos mx) (Z.pos my)) as [F|F|F];
          cbn [CompOpp Pos.switch_Eq].
        -- apply Z.compare_eq_iff. rewrite F. reflexivity.
        -- apply Z.compare_gt_iff. nia.
        -- apply Z.compare_lt_iff. nia.
      * pose proof (canonical_exponent_lt _ _ _ _ Cx Cy E).
        apply Z.compare_gt_iff. lia.
      * pose proof (canonical_exponent_lt _ _ _ _ Cy Cx E).
        apply Z.compare_lt_iff. lia.
    + apply Z.compare_lt_iff. lia.
    + apply Z.compare_gt_iff. lia.
    + destruct (Z.compare_spec ex ey) as [E|E|E].
      * subst ey. rewrite Pos.compare_cont_spec.
        change (mx ?= my)%positive with (Z.pos mx ?= Z.pos my)%Z.
        assert (Q : (0 < 2 ^ (ex + 1074))%Z) by
            (destruct (canonical_digits _ _ Cx); apply Z.pow_pos_nonneg; lia).
        destruct (Z.compare_spec (Z.pos mx) (Z.pos my)) as [F|F|F];
          cbn [Pos.switch_Eq].
        -- apply Z.compare_eq_iff. rewrite F. reflexivity.
        -- apply Z.compare_lt_iff. nia.
        -- apply Z.compare_gt_iff. nia.
      * pose proof (canonical_exponent_lt _ _ _ _ Cx Cy E).
        apply Z.compare_lt_iff. lia.
      * pose proof (canonical_exponent_lt _ _ _ _ Cy Cx E).
        apply Z.compare_gt_iff. lia.
Qed.

(** ** Multiplication *)

Lemma Zdigits2_lower m n :
  (0 < m)%Z -> (2 ^ (n - 1) <= m)%Z -> (n <= Zdigits2 m)%Z.
Proof.
  intros Hm H. destruct (Zdigits2_bounds m Hm) as [[_ Hu] _].
  destruct (Z_lt_le_dec (Zdigits2 m) n) as [Hlt|]; [|assumption].
  assert (2 ^ Zdigits2 m <= 2 ^ (n - 1))%Z by (apply Z.pow_le_mono_r; lia). lia.
Qed.

Lemma Zdigits2_mul m1 m2 :
  (0 < m1)%Z -> (0 < m2)%Z ->
  (Zdigits2 m1 + Zdigits2 m2 - 1 <= Zdigits2 (m1 * m2))%Z.
Proof.
  intros H1 H2.
  destruct (Zdigits2_bounds m1 H1) as [[L1 _] D1].
  destruct (Zdigits2_bounds m2 H2) as [[L2 _] D2].
  apply Zdigits2_lower; [nia|].
  replace (Zdigits2 m1 + Zdigits2 m2 - 1 - 1)%Z
    with ((Zdigits2 m1 - 1) + (Zdigits2 m2 - 1))%Z by lia.
  rewrite Z.pow_add_r by lia.
  assert (0 < 2 ^ (Zdigits2 m1 - 1))%Z by (apply Z.pow_pos_nonneg; lia).
  assert (0 < 2 ^ (Zdigits2 m2 - 1))%Z by (apply Z.pow_pos_nonneg; lia).
  nia.
Qed.

(** The product of two canonical mantissas is aligned. *)
Lemma canonical_mul_aligned m1 e1 m2 e2 :
  canonical m1 e1 -> canonical m2 e2 -> (e1 <= 971)%Z -> (e2 <= 971)%Z ->
  (e1 + e2 <= fexp prec emax (Zdigits2 (m1 * m2) + (e1 + e2)))%Z.
Proof.
  intros [P1 C1] [P2 C2] H1 H2.
  pose proof (Zdigits2_mul m1 m2 P1 P2) as Hd.
  destruct (Zdigits2_bounds m1 P1) as [_ D1].
  destruct (Zdigits2_bounds m2 P2) as [_ D2].
  rewrite fexp_eq in *. lia.
Qed.

Lemma RNprod_zero : RNprod 0 = 0%Z.
Proof. reflexivity. Qed.

(** Multiplication of finite floats rounds the exact product. *)
Lemma SFmul_returns x y :
  SFfinite x = true -> SFfinite y = true ->
  valid_binary x = true -> valid_binary y = true ->
  returns (RNprod (ulps x * ulps y)) (SFmul prec emax x y).
Proof.
  intros Fx Fy Vx Vy.
  assert (O : (0 < overflow)%Z) by reflexivity.
  assert (Z0 : forall s, returns 0 (S754_zero s)).
  { intros s. unfold returns. repeat split; intros; try reflexivity; lia. }
  destruct x as [sx|sx| |sx mx ex], y as [sy|sy| |sy my ey]; try discriminate;
    cbn [SFmul ulps]; rewrite ?Z.mul_0_l, ?Z.mul_0_r, ?RNprod_zero;
    try apply Z0.
  destruct (valid_finite_canonical _ _ _ Vx) as [Cx Hx].
  destruct (valid_finite_canonical _ _ _ Vy) as [Cy Hy].
  destruct (canonical_digits _ _ Cx) as [_ Lx].
  destruct (canonical_digits _ _ Cy) as [_ Ly].
  pose proof (canonical_mul_aligned _ _ _ _ Cx Cy Hx Hy) as Ha.
  assert (Px : (0 < 2 ^ (ex + 1074))%Z) by (apply Z.pow_pos_nonneg; lia).
  assert (Py : (0 < 2 ^ (ey + 1074))%Z) by (apply Z.pow_pos_nonneg; lia).
  set (X := (Z.pos (mx * my) * 2 ^ (ex + ey + 1074 + 1074))%Z).
  assert (HX : (X = (Z.pos mx * 2 ^ (ex + 1074)) * (Z.pos my * 2 ^ (ey + 1074)))%Z).
  { unfold X. rewrite Pos2Z.inj_mul.
    replace (ex + ey + 1074 + 1074)%Z with ((ex + 1074) + (ey + 1074))%Z by lia.
    rewrite Z.pow_add_r by lia. ring. }
  assert (XP : (0 < X)%Z) by (rewrite HX; nia).
  destruct (binary_round_aux_RN (xorb sx sy) (Z.pos (mx * my)) (ex + ey) 1074
              ltac:(lia) ltac:(rewrite Pos2Z.inj_mul; exact Ha) ltac:(lia) ltac:(lia))
    as [Hf Hi].
  cbv zeta in Hf, Hi. fold X in Hf, Hi.
  pose proof (RNmag_nonneg 1074 X ltac:(lia) ltac:(lia)) as HR.
  assert (HP : RNprod (cond_Zopp sx (Z.pos mx * 2 ^ (ex + 1074)) *
                       cond_Zopp sy (Z.pos my * 2 ^ (ey + 1074)))
               = cond_Zopp (xorb sx sy) (RNmag 1074 X)).
  { unfold RNprod. destruct sx, sy; cbn [cond_Zopp xorb].
    - replace (- (Z.pos mx * 2 ^ (ex + 1074)) * - (Z.pos my * 2 ^ (ey + 1074)))%Z
        with X by (rewrite HX; ring).
      rewrite Z.sgn_pos, Z.abs_eq by lia. lia.
    - replace (- (Z.pos mx * 2 ^ (ex + 1074)) * (Z.pos my * 2 ^ (ey + 1074)))%Z
        with (- X)%Z by (rewrite HX; ring).
      rewrite Z.sgn_neg, Z.abs_neq by lia. rewrite Z.opp_involutive. lia.
    - replace (Z.pos mx * 2 ^ (ex + 1074) * - (Z.pos my * 2 ^ (ey + 1074)))%Z
        with (- X)%Z by (rewrite HX; ring).
      rewrite Z.sgn_neg, Z.abs_neq by lia. rewrite Z.opp_involutive. lia.
    - rewrite <- HX. rewrite Z.sgn_pos, Z.abs_eq by lia. lia. }
  rewrite HP. unfold returns.
  destruct (xorb sx sy); cbn [cond_Zopp]; repeat split; intros;
    try (apply Hf; lia); try (apply Hi; lia); try lia.
Qed.

(** ** Division *)

Lemma new_location_zero n : new_location n 0 = loc_Exact.
Proof.
  unfold new_location, new_location_even, new_location_odd.
  destruct (Z.even n); reflexivity.
Qed.

Lemma rne_divisible m k :
  (0 <= k)%Z -> (m mod 2 ^ k = 0)%Z -> rne m k = (m / 2 ^ k)%Z.
Proof.
  intros Hk H. unfold rne. rewrite H.
  assert (0 < 2 ^ k)%Z by (apply Z.pow_pos_nonneg; lia).
  replace (2 * 0 ?= 2 ^ k)%Z with Lt by (symmetry; apply Z.compare_lt_iff; lia).
  reflexivity.
Qed.

(** The quotient, exponent and location on which [SFdiv] calls
    [binary_round_aux], for a dividend not above the divisor. *)
Lemma SFdiv_core_le m1 e1 m2 e2 :
  canonical m1 e1 -> canonical m2 e2 ->
  (m1 * 2 ^ (e1 + 1074) <= m2 * 2 ^ (e2 + 1074))%Z ->
  exists q e' l,
    SFdiv_core_binary prec emax m1 e1 m2 e2 = (q, e', l) /\
    (0 <= q <= 2 ^ (- e'))%Z /\ (e' <= -53)%Z /\
    (q = 2 ^ (- e') -> l = loc_Exact)%Z /\
    (e' <= fexp prec emax (Zdigits2 q + e'))%Z /\
    (0 < q \/ e' <= -1074)%Z.
Proof.
  intros C1 C2 Hle.
  destruct (canonical_digits _ _ C1) as [D1 L1].
  destruct (canonical_digits _ _ C2) as [D2 L2].
  destruct C1 as [P1 C1], C2 as [P2 C2].
  destruct (Zdigits2_bounds m1 P1) as [[Lo1 Up1] Dp1].
  destruct (Zdigits2_bounds m2 P2) as [[Lo2 Up2] Dp2].
  assert (Q1 : (0 < 2 ^ (e1 + 1074))%Z) by (apply Z.pow_pos_nonneg; lia).
  assert (Q2 : (0 < 2 ^ (e2 + 1074))%Z) by (apply Z.pow_pos_nonneg; lia).
  (* magnitudes *)
  assert (Hmag : (Zdigits2 m1 + e1 <= Zdigits2 m2 + e2)%Z).
  { destruct (Z_lt_le_dec (Zdigits2 m2 + e2) (Zdigits2 m1 + e1)) as [Hlt|];
      [exfalso|assumption].
    assert (A : (2 ^ (Zdigits2 m2 + (e2 + 1074))
                 <= 2 ^ (Zdigits2 m1 - 1 + (e1 + 1074)))%Z)
      by (apply Z.pow_le_mono_r; lia).
    rewrite (Z.pow_add_r 2 (Zdigits2 m2) (e2 + 1074)) in A by lia.
    rewrite (Z.pow_add_r 2 (Zdigits2 m1 - 1) (e1 + 1074)) in A by lia.
    nia. }
  unfold SFdiv_core_binary.
  set (z := (Zdigits2 m1 + e1 - (Zdigits2 m2 + e2))%Z).
  set (e' := Z.min (fexp prec emax z) (e1 - e2)).
  set (s := (e1 - e2 - e')%Z).
  assert (He' : (e' <= -53)%Z) by (subst e' z; rewrite fexp_eq; lia).
  assert (Hs : (0 <= s)%Z) by (subst s e'; lia).
  assert (Ps : (0 < 2 ^ s)%Z) by (apply Z.pow_pos_nonneg; lia).
  set (m' := match s with
             | 0%Z => m1
             | Z.pos _ => Z.shiftl m1 s
             | Z.neg _ => 0%Z
             end).
  assert (Hm' : m' = (m1 * 2 ^ s)%Z).
  { subst m'. destruct s as [|p|p] eqn:Es; [simpl; lia | | lia].
    apply Z.shiftl_mul_pow2. lia. }
  rewrite Hm'. clear m' Hm'.
  pose proof (Z.div_mod (m1 * 2 ^ s) m2 ltac:(lia)) as Hdm.
  pose proof (Z.mod_pos_bound (m1 * 2 ^ s) m2 P2) as Hr.
  assert (Hde : Z.div_eucl (m1 * 2 ^ s) m2
                = ((m1 * 2 ^ s) / m2, (m1 * 2 ^ s) mod m2)%Z).
  { unfold Z.div, Z.modulo. destruct (Z.div_eucl (m1 * 2 ^ s) m2). reflexivity. }
  rewrite Hde.
  set (q := ((m1 * 2 ^ s) / m2)%Z) in *.
  set (r := ((m1 * 2 ^ s) mod m2)%Z) in *.
  exists q, e', (new_location m2 r). split; [reflexivity|].
  (* the dividend against the divisor, at the quotient's exponent *)
  assert (Pe : (0 < 2 ^ (- e'))%Z) by (apply Z.pow_pos_nonneg; lia).
  assert (Hnum : (m1 * 2 ^ s <= m2 * 2 ^ (- e'))%Z).
  { assert (E1 : (m1 * 2 ^ (e1 + 1074) * 2 ^ (- e')
                  = m1 * 2 ^ s * 2 ^ (e2 + 1074))%Z).
    { rewrite <- !Z.mul_assoc, <- !Z.pow_add_r by lia.
      f_equal. f_equal. subst s. lia. }
    nia. }
  assert (Hq0 : (0 <= q)%Z) by (apply Z.div_pos; nia).
  assert (Hqu : (q <= 2 ^ (- e'))%Z).
  { apply Z.div_le_upper_bound; [lia|]. lia. }
  split; [lia|]. split; [exact He'|]. split.
  - intros Eq. replace r with 0%Z; [apply new_location_zero|]. nia.
  - destruct (Z_lt_le_dec 0 (Zdigits2 m1 + s - Zdigits2 m2)) as [Hpos|Hneg].
    + (* the quotient has enough digits *)
      assert (Hql : (2 ^ (Zdigits2 m1 + s - Zdigits2 m2 - 1) <= q)%Z).
      { apply Z.div_le_lower_bound; [lia|].
        assert (E : (2 ^ (Zdigits2 m1 - 1 + s)
                     = 2 ^ Zdigits2 m2
                       * 2 ^ (Zdigits2 m1 + s - Zdigits2 m2 - 1))%Z).
        { rewrite <- Z.pow_add_r by lia. f_equal. lia. }
        assert (F : (2 ^ (Zdigits2 m1 - 1 + s) = 2 ^ (Zdigits2 m1 - 1) * 2 ^ s)%Z)
          by (apply Z.pow_add_r; lia).
        assert (0 < 2 ^ (Zdigits2 m1 + s - Zdigits2 m2 - 1))%Z
          by (apply Z.pow_pos_nonneg; lia).
        nia. }
      assert (0 < 2 ^ (Zdigits2 m1 + s - Zdigits2 m2 - 1))%Z
        by (apply Z.pow_pos_nonneg; lia).
      assert (Hq : (0 < q)%Z) by lia.
      pose proof (Zdigits2_lower q (Zdigits2 m1 + s - Zdigits2 m2) Hq Hql) as Hdq.
      split; [|left; exact Hq].
      subst s e' z. rewrite !fexp_eq in *. lia.
    + (* the quotient underflows *)
      assert (Hdq : (0 <= Zdigits2 q)%Z) by (apply Zdigits2_zero_or; lia).
      assert (Hem : (e' <= -1074)%Z) by (subst s e' z; rewrite !fexp_eq in *; lia).
      split; [rewrite fexp_eq; lia | right; exact Hem].
Qed.

(** A non-negative dividend not above a positive divisor: the quotient is
    finite and between zero and one. *)
Lemma SFdiv_unit_range x y :
  SFfinite x = true -> SFfinite y = true ->
  valid_binary x = true -> valid_binary y = true ->
  (0 <= ulps x <= ulps y)%Z -> (0 < ulps y)%Z ->
  SFfinite (SFdiv prec emax x y) = true /\
  (0 <= ulps (SFdiv prec emax x y) <= 2 ^ 1074)%Z.
Proof.
  intros Fx Fy Vx Vy [Hx0 Hxy] Hy0.
  assert (T : (0 < 2 ^ 1074)%Z) by reflexivity.
  destruct y as [sy|sy| |sy my ey]; try discriminate.
  destruct (valid_finite_canonical _ _ _ Vy) as [Cy _].
  destruct (canonical_digits _ _ Cy) as [_ Ly].
  assert (Py : (0 < 2 ^ (ey + 1074))%Z) by (apply Z.pow_pos_nonneg; lia).
  destruct sy; cbn [ulps cond_Zopp] in Hy0, Hxy; [lia|].
  destruct x as [sx|sx| |sx mx ex]; try discriminate.
  - cbn [SFdiv]. split; [reflexivity | simpl; lia].
  - destruct (valid_finite_canonical _ _ _ Vx) as [Cx _].
    destruct (canonical_digits _ _ Cx) as [_ Lx].
    assert (Px : (0 < 2 ^ (ex + 1074))%Z) by (apply Z.pow_pos_nonneg; lia).
    destruct sx; cbn [ulps cond_Zopp] in Hx0, Hxy; [lia|].
    cbn [SFdiv xorb].
    destruct (SFdiv_core_le _ _ _ _ Cx Cy Hxy)
      as [q [e' [l [E [[Hq0 Hqu] [He' [Hex [Hal Hnz]]]]]]]].
    rewrite E.
    destruct (binary_round_aux_cases false q e' l Hq0 Hal Hnz) as [Hm2 Hres].
    cbv zeta in Hm2, Hres.
    set (k := (fexp prec emax (Zdigits2 q + e') - e')%Z) in *.
    set (m2 := round_nearest_even
                 (shr_m (fst (shr_fexp prec emax q e' l)))
                 (loc_of_shr_record (fst (shr_fexp prec emax q e' l)))) in *.
    assert (Hk : (0 <= k)%Z) by (subst k; lia).
    assert (Pk : (0 < 2 ^ k)%Z) by (apply Z.pow_pos_nonneg; lia).
    assert (Pe : (0 < 2 ^ (- e'))%Z) by (apply Z.pow_pos_nonneg; lia).
    (* the rounded exponent is not positive *)
    assert (Hdq : (Zdigits2 q + e' <= 1)%Z).
    { destruct (Z.eq_dec q 0) as [->|NQ]; [simpl; lia|].
      destruct (Zdigits2_bounds q ltac:(lia)) as [[Lq _] Dq].
      destruct (Z_lt_le_dec (- e') (Zdigits2 q - 1)) as [Hlt|]; [|lia].
      assert (2 ^ (- e' + 1) <= 2 ^ (Zdigits2 q - 1))%Z
        by (apply Z.pow_le_mono_r; lia).
      rewrite Z.pow_add_r in * by lia. lia. }
    assert (He1 : (-1074 <= e' + k <= -52)%Z) by (subst k; rewrite fexp_eq; lia).
    assert (Eke : (2 ^ (- e') = 2 ^ (- (e' + k)) * 2 ^ k)%Z).
    { rewrite <- Z.pow_add_r by lia. f_equal. lia. }
    assert (P1 : (0 < 2 ^ (- (e' + k)))%Z) by (apply Z.pow_pos_nonneg; lia).
    (* the rounded mantissa stays within one *)
    assert (Hb : (0 <= m2 <= 2 ^ (- (e' + k)))%Z).
    { assert (0 <= q / 2 ^ k)%Z by (apply Z.div_pos; lia).
      destruct (Z.eq_dec q (2 ^ (- e'))) as [Eq|Nq].
      - pose proof (Hex Eq) as El. subst l.
        destruct (shr_fexp_rne q e' ltac:(lia)) as [_ Hr].
        replace (Z.max 0 (fexp prec emax (Zdigits2 q + e') - e')) with k in Hr
          by (subst k; lia).
        fold m2 in Hr. rewrite Hr, Eq, Eke, rne_exact by lia. lia.
      - assert (q / 2 ^ k < 2 ^ (- (e' + k)))%Z
          by (apply Z.div_lt_upper_bound; lia).
        lia. }
    assert (P2 : (0 < 2 ^ (e' + k + 1074))%Z) by (apply Z.pow_pos_nonneg; lia).
    assert (E2 : (2 ^ (- (e' + k)) * 2 ^ (e' + k + 1074) = 2 ^ 1074)%Z).
    { rewrite <- Z.pow_add_r by lia. f_equal. lia. }
    destruct Hres as [[Z0 R]|[m3 [e3 [Hv [Hle3 [Hc R]]]]]]; rewrite R.
    + split; [reflexivity | simpl; lia].
    + assert (P3 : (0 < 2 ^ (e3 - (e' + k)))%Z) by (apply Z.pow_pos_nonneg; lia).
      assert (He3 : (e3 <= 0)%Z).
      { destruct (Z_lt_le_dec 0 e3) as [Hlt|]; [exfalso|assumption].
        assert (2 ^ (- (e' + k) + 1) <= 2 ^ (e3 - (e' + k)))%Z
          by (apply Z.pow_le_mono_r; lia).
        rewrite Z.pow_add_r in * by lia. nia. }
      change (emax - prec)%Z with 971%Z.
      destruct (Z.leb_spec e3 971) as [_|]; [|lia].
      split; [reflexivity|]. cbn [ulps cond_Zopp].
      assert (E3 : (Z.pos m3 * 2 ^ (e3 + 1074) = m2 * 2 ^ (e' + k + 1074))%Z).
      { rewrite <- Hv, <- Z.mul_assoc, <- Z.pow_add_r by lia.
        f_equal. f_equal. lia. }
      rewrite E3. split; [nia|]. rewrite <- E2. nia.
Qed.

(** A finite non-zero float divided by itself is one. *)
Lemma SFdiv_self s m e :
  SFdiv prec emax (S754_finite s m e) (S754_finite s m e)
  = S754_finite false 4503599627370496 (-52).
Proof.
  cbn [SFdiv]. unfold SFdiv_core_binary.
  replace (Zdigits2 (Z.pos m) + e - (Zdigits2 (Z.pos m) + e))%Z with 0%Z by lia.
  replace (e - e)%Z with 0%Z by lia.
  change (Z.min (fexp prec emax 0) 0) with (-53)%Z.
  change (0 - -53)%Z with 53%Z. cbv iota.
  rewrite Z.shiftl_mul_pow2 by lia.
  assert (Hde : Z.div_eucl (Z.pos m * 2 ^ 53) (Z.pos m) = (2 ^ 53, 0)%Z).
  { pose proof (Z.div_mod (Z.pos m * 2 ^ 53) (Z.pos m) ltac:(lia)) as H.
    unfold Z.div, Z.modulo in *.
    pose proof (Z.div_mul (2 ^ 53) (Z.pos m) ltac:(lia)) as Hq.
    pose proof (Z.mod_mul (2 ^ 53) (Z.pos m) ltac:(lia)) as Hr.
    unfold Z.div, Z.modulo in *. rewrite (Z.mul_comm (Z.pos m)) in *.
    destruct (Z.div_eucl (2 ^ 53 * Z.pos m) (Z.pos m)) as [q r].
    cbn [fst snd] in *. subst. reflexivity. }
  rewrite Hde, new_location_zero. destruct s; reflexivity.
Qed.

(* ================================================================== *)
(** * Arithmetic and comparisons of JavaScript numbers, in units *)
(* ================================================================== *)

Lemma isFinite_SF x : JS.isFinite x = SFfinite (Prim2SF x).
Proof. unfold JS.isFinite. destruct (Prim2SF x); reflexivity. Qed.

Lemma units_valid x :
  JS.isFinite x = true ->
  RN (units x) = units x /\ (Z.abs (units x) < overflow)%Z.
Proof.
  intros H. rewrite isFinite_SF in H.
  apply ulps_valid; [exact H | apply Prim2SF_valid].
Qed.

(** The three ways an operation can end. *)
Lemma returns_cases R x :
  returns R (Prim2SF x) ->
  ((Z.abs R < overflow)%Z /\ JS.isFinite x = true /\ units x = R) \/
  ((overflow <= R)%Z /\ x = infinity) \/
  ((R <= - overflow)%Z /\ x = neg_infinity).
Proof.
  intros [Hf [Hp Hn]].
  assert (O : (0 < overflow)%Z) by reflexivity.
  destruct (Z_lt_le_dec (Z.abs R) overflow) as [H|H].
  - left. destruct (Hf H) as [F E]. rewrite isFinite_SF. auto.
  - destruct (Z_lt_le_dec R 0) as [N|P].
    + right. right. split; [lia|]. apply Prim2SF_inj. apply Hn. lia.
    + right. left. split; [lia|]. apply Prim2SF_inj. apply Hp. lia.
Qed.

Lemma sub_returns x y :
  JS.isFinite x = true -> JS.isFinite y = true ->
  returns (RN (units x - units y)) (Prim2SF (x - y)).
Proof.
  intros Hx Hy. rewrite isFinite_SF in Hx, Hy. rewrite sub_spec.
  apply (SFsub_rounds _ _ Hx Hy (Prim2SF_valid x) (Prim2SF_valid y)).
Qed.

Lemma add_returns x y :
  JS.isFinite x = true -> JS.isFinite y = true ->
  returns (RN (units x + units y)) (Prim2SF (x + y)).
Proof.
  intros Hx Hy. rewrite isFinite_SF in Hx, Hy. rewrite add_spec.
  apply (SFadd_rounds _ _ Hx Hy (Prim2SF_valid x) (Prim2SF_valid y)).
Qed.

Lemma mul_returns x y :
  JS.isFinite x = true -> JS.isFinite y = true ->
  returns (RNprod (units x * units y)) (Prim2SF (x * y)).
Proof.
  intros Hx Hy. rewrite isFinite_SF in Hx, Hy. rewrite mul_spec.
  apply (SFmul_returns _ _ Hx Hy (Prim2SF_valid x) (Prim2SF_valid y)).
Qed.

Lemma compare_units x y :
  JS.isFinite x = true -> JS.isFinite y = true ->
  SFcompare (Prim2SF x) (Prim2SF y) = Some (units x ?= units y)%Z.
Proof.
  intros Hx Hy. rewrite isFinite_SF in Hx, Hy.
  apply (SFcompare_ulps _ _ Hx Hy (Prim2SF_valid x) (Prim2SF_valid y)).
Qed.

Lemma ltb_units x y :
  JS.isFinite x = true -> JS.isFinite y = true ->
  PrimFloat.ltb x y = (units x <? units y)%Z.
Proof.
  intros Hx Hy. rewrite ltb_spec. unfold SFltb.
  rewrite (compare_units x y Hx Hy). unfold Z.ltb.
  destruct (units x ?= units y)%Z; reflexivity.
Qed.

Lemma leb_units x y :
  JS.isFinite x = true -> JS.isFinite y = true ->
  PrimFloat.leb x y = (units x <=? units y)%Z.
Proof.
  intros Hx Hy. rewrite leb_spec. unfold SFleb.
  rewrite (compare_units x y Hx Hy). unfold Z.leb.
  destruct (units x ?= units y)%Z; reflexivity.
Qed.

(** Doubling is exact. *)
Lemma RNprod_double x :
  JS.isFinite x = true -> RNprod (2 ^ 1075 * units x) = (2 * units x)%Z.
Proof.
  intros H. rewrite isFinite_SF in H. unfold units.
  pose proof (Prim2SF_valid x) as V.
  destruct (Prim2SF x) as [s|s| |s m e]; try discriminate; try reflexivity.
  destruct (valid_finite_canonical _ _ _ V) as [C He].
  destruct (canonical_digits _ _ C) as [Hd Hl]. destruct C as [_ C].
  rewrite fexp_eq in C.
  destruct (Zdigits2_bounds (Z.pos m) ltac:(lia)) as [_ Dp].
  assert (P : (0 < 2 ^ (e + 1074))%Z) by (apply Z.pow_pos_nonneg; lia).
  assert (M : RNmag 1074 (2 ^ 1075 * (Z.pos m * 2 ^ (e + 1074)))
              = (2 * (Z.pos m * 2 ^ (e + 1074)))%Z).
  { unfold RNmag.
    replace (2 ^ 1075 * (Z.pos m * 2 ^ (e + 1074)))%Z
      with (Z.pos m * 2 ^ (e + 2149))%Z
      by (replace (e + 2149)%Z with (1075 + (e + 1074))%Z by lia;
          rewrite Z.pow_add_r by lia; ring).
    rewrite Zdigits2_mul_pow by lia.
    set (K := Z.max 1074 (Zdigits2 (Z.pos m) + (e + 2149) - 53)).
    replace (Z.pos m * 2 ^ (e + 2149))%Z
      with (Z.pos m * 2 ^ (e + 2149 - K) * 2 ^ K)%Z
      by (rewrite <- Z.mul_assoc, <- Z.pow_add_r by (subst K; lia);
          f_equal; f_equal; lia).
    rewrite rne_exact by (subst K; lia).
    rewrite <- !Z.mul_assoc, <- Z.pow_add_r by (subst K; lia).
    replace (e + 2149 - K + (K - 1074))%Z with (1 + (e + 1074))%Z by lia.
    rewrite Z.pow_add_r by lia. change (2 ^ 1)%Z with 2%Z. ring. }
  unfold RNprod. cbn [ulps]. destruct s; cbn [cond_Zopp].
  - replace (2 ^ 1075 * - (Z.pos m * 2 ^ (e + 1074)))%Z
      with (- (2 ^ 1075 * (Z.pos m * 2 ^ (e + 1074))))%Z by ring.
    rewrite Z.sgn_neg, Z.abs_neq, Z.opp_involutive, M by nia. lia.
  - rewrite Z.sgn_pos, Z.abs_eq, M by nia. lia.
Qed.

Lemma units_two : units 2 = (2 ^ 1075)%Z.
Proof. reflexivity. Qed.

Lemma double_returns x :
  JS.isFinite x = true -> returns (2 * units x) (Prim2SF (2 * x)).
Proof.
  intros H. pose proof (mul_returns 2 x eq_refl H) as R.
  rewrite units_two, RNprod_double in R by assumption. exact R.
Qed.

(** ** Infinite operands *)

Lemma finite_sub_inf a :
  JS.isFinite a = true ->
  (a - infinity)%float = neg_infinity /\ (a - neg_infinity)%float = infinity.
Proof.
  intros H. rewrite isFinite_SF in H.
  split; apply Prim2SF_inj; rewrite sub_spec;
    destruct (Prim2SF a) as [s|s| |s m e]; try discriminate; reflexivity.
Qed.

Lemma inf_add_finite c :
  JS.isFinite c = true ->
  (infinity + c)%float = infinity /\ (neg_infinity + c)%float = neg_infinity.
Proof.
  intros H. rewrite isFinite_SF in H.
  split; apply Prim2SF_inj; rewrite add_spec;
    destruct (Prim2SF c) as [s|s| |s m e]; try discriminate; reflexivity.
Qed.

Lemma nonzeroNumber_finite x :
  JS.isFinite x = true -> units x <> 0%Z -> nonzeroNumber x.
Proof.
  intros F N. unfold nonzeroNumber. unfold units in N.
  rewrite isFinite_SF in F.
  assert (E : exists s m e, Prim2SF x = S754_finite s m e).
  { destruct (Prim2SF x) as [s|s| |s m e]; try discriminate; eauto.
    exfalso. apply N. reflexivity. }
  destruct E as [s [m [e E]]]. split.
  - apply not_true_is_false. intros H. apply is_nan_spec in H. congruence.
  - rewrite eqb_spec, E. destruct s; reflexivity.
Qed.

(** At a strict local maximum [b] with finite neighbours [a] and [c], the
    denominator [2 * (a - 2 * b + c)] of the interpolation offset is a number
    other than zero. *)
Lemma offset_denominator_nonzero a b c :
  JS.isFinite a = true -> JS.isFinite b = true -> JS.isFinite c = true ->
  PrimFloat.ltb a b = true -> PrimFloat.ltb c b = true ->
  nonzeroNumber (2 * (a - 2 * b + c))%float.
Proof.
  intros Fa Fb Fc Hab Hcb.
  rewrite (ltb_units a b Fa Fb) in Hab. rewrite (ltb_units c b Fc Fb) in Hcb.
  apply Z.ltb_lt in Hab, Hcb.
  destruct (units_valid b Fb) as [Ib Bb].
  destruct (units_valid c Fc) as [Ic Bc].
  assert (O : (0 < overflow)%Z) by reflexivity.
  assert (Inf : nonzeroNumber infinity /\ nonzeroNumber neg_infinity)
    by (split; split; reflexivity).
  destruct Inf as [PI NI].
  destruct (finite_sub_inf a Fa) as [S1 S2].
  destruct (inf_add_finite c Fc) as [A1 A2].
  (* V := a - 2 * b + c is infinite or a negative finite number *)
  assert (V : (a - 2 * b + c)%float = infinity \/
              (a - 2 * b + c)%float = neg_infinity \/
              (JS.isFinite (a - 2 * b + c)%float = true /\
               (units (a - 2 * b + c)%float < 0)%Z)).
  { destruct (returns_cases _ _ (double_returns b Fb)) as [[_ [F2 U2]]|[[_ E]|[_ E]]].
    - (* 2 * b is finite *)
      pose proof (sub_returns a (2 * b)%float Fa F2) as R. rewrite U2 in R.
      assert (Rle : (RN (units a - 2 * units b) <= - units b)%Z).
      { rewrite <- Ib at 2. rewrite <- RN_opp. apply RN_mono. lia. }
      destruct (returns_cases _ _ R) as [[_ [Fu Uu]]|[[Hov _]|[_ E]]].
      + pose proof (add_returns _ c Fu Fc) as R'. rewrite Uu in R'.
        assert (Rlt : (RN (RN (units a - 2 * units b) + units c) <= -1)%Z).
        { change (-1)%Z with (RN (-1)). apply RN_mono. lia. }
        destruct (returns_cases _ _ R') as [[_ [Fv Uv]]|[[Hov _]|[_ E]]].
        * right. right. split; [exact Fv | lia].
        * lia.
        * right. left. exact E.
      + lia.
      + right. left. rewrite E. exact A2.
    - right. left. rewrite E, S1. exact A2.
    - left. rewrite E, S2. exact A1. }
  destruct V as [E|[E|[Fv Nv]]].
  - rewrite E. exact PI.
  - rewrite E. exact NI.
  - destruct (returns_cases _ _ (double_returns _ Fv)) as [[_ [Fd Ud]]|[[_ E]|[_ E]]].
    + apply nonzeroNumber_finite; [exact Fd | lia].
    + rewrite E. exact PI.
    + rewrite E. exact NI.
Qed.

Lemma RNprod_mono P Q : (P <= Q)%Z -> (RNprod P <= RNprod Q)%Z.
Proof.
  intros H. unfold RNprod.
  assert (N : forall Z0, (0 <= RNmag 1074 (Z.abs Z0))%Z)
    by (intros; apply RNmag_nonneg; lia).
  destruct (Z_lt_le_dec P 0) as [HP|HP]; destruct (Z_lt_le_dec Q 0) as [HQ|HQ].
  - rewrite !Z.sgn_neg, !Z.abs_neq by lia.
    pose proof (RNmag_mono 1074 (- Q) (- P) ltac:(lia) ltac:(lia)). lia.
  - rewrite (Z.sgn_neg P) by lia. pose proof (N P). pose proof (N Q).
    destruct (Z.eq_dec Q 0) as [->|]; [cbn [Z.sgn]; lia|].
    rewrite Z.sgn_pos by lia. lia.
  - lia.
  - destruct (Z.eq_dec P 0) as [->|NP].
    + pose proof (N Q). cbn [Z.sgn]. destruct (Z.eq_dec Q 0) as [->|];
        [cbn [Z.sgn]; lia|].
      rewrite Z.sgn_pos by lia. lia.
    + rewrite !Z.sgn_pos, !Z.abs_eq by lia.
      pose proof (RNmag_mono 1074 P Q ltac:(lia) ltac:(lia)). lia.
Qed.

(** A number between two finite numbers is finite. *)
Lemma finite_between lo hi x :
  JS.isFinite lo = true -> JS.isFinite hi = true ->
  PrimFloat.leb lo x = true -> PrimFloat.leb x hi = true ->
  JS.isFinite x = true.
Proof.
  rewrite !isFinite_SF, !leb_spec. unfold SFleb.
  destruct (Prim2SF lo) as [sl|sl| |sl ml el]; try discriminate;
    destruct (Prim2SF hi) as [sh|sh| |sh mh eh]; try discriminate;
    destruct (Prim2SF x) as [s|[]| |s m e]; simpl; try reflexivity;
    try discriminate; intros _ _; try destruct sl; try destruct sh;
    discriminate.
Qed.

Lemma range_In lo hi n : (lo <= n < hi)%Z -> In n (Arr.range lo hi).
Proof.
  intros H. unfold Arr.range. apply in_map_iff.
  exists (Z.to_nat (n - lo)). split; [lia|]. apply in_seq. lia.
Qed.

(** Every integer from 700 to 1000, divided by 10, is within [[70, 100]]. *)
Lemma tenths_in_range n :
  (700 <= n <= 1000)%Z ->
  PrimFloat.leb 70 (JS.of_Z n / 10) = true /\
  PrimFloat.leb (JS.of_Z n / 10) 100 = true.
Proof.
  intros H.
  assert (A : forallb (fun k => PrimFloat.leb 70 (JS.of_Z k / 10) &&
                                PrimFloat.leb (JS.of_Z k / 10) 100)
                      (Arr.range 700 1001) = true) by (vm_compute; reflexivity).
  rewrite forallb_forall in A. specialize (A n (range_In 700 1001 n ltac:(lia))).
  apply andb_true_iff in A. exact A.
Qed.

(** [Math.round] of a number between 700 and 1000 is an integer in that range. *)
Lemma Math_round_700_1000 y :
  JS.isFinite y = true ->
  (700 * 2 ^ 1074 <= units y <= 1000 * 2 ^ 1074)%Z ->
  exists n, (700 <= n <= 1000)%Z /\ JS.Math_round y = JS.of_Z n.
Proof.
  intros F [Hl Hu]. unfold units in Hl, Hu. rewrite isFinite_SF in F.
  pose proof (Prim2SF_valid y) as V. unfold JS.Math_round.
  destruct (Prim2SF y) as [s|s| |s m e]; try discriminate.
  - simpl in Hl. lia.
  - destruct (valid_finite_canonical _ _ _ V) as [C He].
    destruct (canonical_digits _ _ C) as [Hd Hle]. destruct C as [_ C].
    rewrite fexp_eq in C.
    destruct (Zdigits2_bounds (Z.pos m) ltac:(lia)) as [[Lm Um] Dm].
    assert (P : (0 < 2 ^ (e + 1074))%Z) by (apply Z.pow_pos_nonneg; lia).
    cbn [ulps] in Hl, Hu.
    destruct s; cbn [cond_Zopp] in Hl, Hu; [lia|].
    assert (Eneg : (e < 0)%Z).
    { destruct (Z_lt_le_dec e 0) as [|Hge]; [assumption|exfalso].
      assert (Zdigits2 (Z.pos m) = 53)%Z by lia.
      replace (Zdigits2 (Z.pos m) - 1)%Z with 52%Z in Lm by lia.
      assert (2 ^ 1074 <= 2 ^ (e + 1074))%Z by (apply Z.pow_le_mono_r; lia).
      assert (1000 < 2 ^ 52)%Z by reflexivity.
      assert (0 < 2 ^ 1074)%Z by reflexivity. nia. }
    destruct (Z.leb_spec 0 e) as [|_]; [lia|].
    set (q := (2 ^ (- e))%Z).
    assert (Q : (0 < q)%Z) by (apply Z.pow_pos_nonneg; lia).
    assert (E1 : (2 ^ 1074 = q * 2 ^ (e + 1074))%Z).
    { unfold q. rewrite <- Z.pow_add_r by lia. f_equal. lia. }
    assert (E2 : (2 ^ (1 - e) = 2 * q)%Z).
    { unfold q. replace (1 - e)%Z with (1 + - e)%Z by lia.
      rewrite Z.pow_add_r by lia. reflexivity. }
    rewrite E1 in Hl, Hu. rewrite E2.
    assert (Bl : (700 * q <= Z.pos m)%Z) by nia.
    assert (Bu : (Z.pos m <= 1000 * q)%Z) by nia.
    set (n := ((2 * Z.pos m + q) / (2 * q))%Z).
    assert (Nl : (700 <= n)%Z).
    { apply Z.div_le_lower_bound; lia. }
    assert (Nu : (n <= 1000)%Z).
    { assert (n < 1001)%Z; [|lia]. apply Z.div_lt_upper_bound; lia. }
    exists n. split; [lia|].
    destruct (Z.eqb_spec n 0); [lia | reflexivity].
Qed.

Lemma units_consts :
  units 70 = (70 * 2 ^ 1074)%Z /\ units 100 = (100 * 2 ^ 1074)%Z /\
  units 10 = (10 * 2 ^ 1074)%Z /\
  RNprod (70 * 2 ^ 1074 * (10 * 2 ^ 1074)) = (700 * 2 ^ 1074)%Z /\
  RNprod (100 * 2 ^ 1074 * (10 * 2 ^ 1074)) = (1000 * 2 ^ 1074)%Z.
Proof. repeat split; vm_compute; reflexivity. Qed.

(** A number within [[70, 100]], rounded to one decimal as
    [Math.round(c * 10) / 10], stays within [[70, 100]]. *)
Lemma round_tenth_in_range c :
  PrimFloat.leb 70 c = true -> PrimFloat.leb c 100 = true ->
  PrimFloat.leb 70 (JS.Math_round (c * 10) / 10) = true /\
  PrimFloat.leb (JS.Math_round (c * 10) / 10) 100 = true.
Proof.
  intros Hl Hu.
  pose proof (finite_between 70 100 c eq_refl eq_refl Hl Hu) as Fc.
  rewrite (leb_units 70 c eq_refl Fc) in Hl.
  rewrite (leb_units c 100 Fc eq_refl) in Hu.
  apply Z.leb_le in Hl, Hu.
  destruct units_consts as [U70 [U100 [U10 [P70 P100]]]].
  rewrite U70 in Hl. rewrite U100 in Hu.
  pose proof (mul_returns c 10 Fc eq_refl) as R. rewrite U10 in R.
  assert (T : (0 < 2 ^ 1074)%Z) by reflexivity.
  assert (Rl : (700 * 2 ^ 1074 <= RNprod (units c * (10 * 2 ^ 1074)))%Z).
  { rewrite <- P70. apply RNprod_mono. nia. }
  assert (Ru : (RNprod (units c * (10 * 2 ^ 1074)) <= 1000 * 2 ^ 1074)%Z).
  { rewrite <- P100. apply RNprod_mono. nia. }
  assert (O : (1000 * 2 ^ 1074 < overflow)%Z) by reflexivity.
  destruct (returns_cases _ _ R) as [[_ [Fy Uy]]|[[Hov _]|[Hov _]]]; try lia.
  destruct (Math_round_700_1000 _ Fy ltac:(rewrite Uy; lia)) as [n [Hn ->]].
  apply tenths_in_range. exact Hn.
Qed.

(** ** Quotients *)

Lemma units_one : units 1 = (2 ^ 1074)%Z.
Proof. reflexivity. Qed.

Lemma div_unit_range p d :
  JS.isFinite p = true -> JS.isFinite d = true ->
  (0 <= units p <= units d)%Z -> (0 < units d)%Z ->
  PrimFloat.leb 0 (p / d) = true /\ PrimFloat.leb (p / d) 1 = true.
Proof.
  intros Fp Fd Hp Hd. rewrite isFinite_SF in Fp, Fd.
  destruct (SFdiv_unit_range _ _ Fp Fd (Prim2SF_valid p) (Prim2SF_valid d) Hp Hd)
    as [F [L U]].
  change (SFdiv prec emax (Prim2SF p) (Prim2SF d))
    with (SF64div (Prim2SF p) (Prim2SF d)) in F, L, U.
  rewrite <- div_spec in F, L, U. rewrite <- isFinite_SF in F.
  fold (units (p / d)) in L, U.
  rewrite (leb_units 0 (p / d) eq_refl F), (leb_units (p / d) 1 F eq_refl).
  rewrite units_one. change (units 0) with 0%Z.
  split; apply Z.leb_le; lia.
Qed.

Lemma div_self d :
  JS.isFinite d = true -> units d <> 0%Z -> (d / d)%float = 1%float.
Proof.
  intros F N. apply Prim2SF_inj. rewrite div_spec.
  rewrite isFinite_SF in F. unfold units in N.
  destruct (Prim2SF d) as [s|s| |s m e]; try discriminate.
  - exfalso. apply N. reflexivity.
  - apply SFdiv_self.
Qed.

Lemma finite_div_inf p :
  JS.isFinite p = true ->
  PrimFloat.leb 0 (p / infinity) = true /\ PrimFloat.leb (p / infinity) 1 = true.
Proof.
  intros F. rewrite isFinite_SF in F. rewrite !leb_spec, div_spec.
  destruct (Prim2SF p) as [s|s| |s m e]; try discriminate;
    destruct s; split; reflexivity.
Qed.

Lemma finite_not_nan x : JS.isFinite x = true -> PrimFloat.is_nan x = false.
Proof.
  intros F. apply not_true_is_false. intros H. apply is_nan_spec in H.
  rewrite isFinite_SF, H in F. discriminate.
Qed.

(** ** Minimum and maximum of finite numbers *)

Lemma min2_finite a b :
  JS.isFinite a = true -> JS.isFinite b = true ->
  (JS.min2 a b = a \/ JS.min2 a b = b) /\
  units (JS.min2 a b) = Z.min (units a) (units b).
Proof.
  intros Fa Fb. unfold JS.min2.
  rewrite (finite_not_nan a Fa), (finite_not_nan b Fb). cbn [orb].
  rewrite (ltb_units a b Fa Fb), (ltb_units b a Fb Fa).
  destruct (Z.ltb_spec (units a) (units b)); [split; [auto | lia]|].
  destruct (Z.ltb_spec (units b) (units a)); [split; [auto | lia]|].
  destruct (JS.signbit a); split; auto; lia.
Qed.

Lemma max2_finite a b :
  JS.isFinite a = true -> JS.isFinite b = true ->
  (JS.max2 a b = a \/ JS.max2 a b = b) /\
  units (JS.max2 a b) = Z.max (units a) (units b).
Proof.
  intros Fa Fb. unfold JS.max2.
  rewrite (finite_not_nan a Fa), (finite_not_nan b Fb). cbn [orb].
  rewrite (ltb_units a b Fa Fb), (ltb_units b a Fb Fa).
  destruct (Z.ltb_spec (units a) (units b)); [split; [auto | lia]|].
  destruct (Z.ltb_spec (units b) (units a)); [split; [auto | lia]|].
  destruct (JS.signbit a); split; auto; lia.
Qed.

Lemma fold_min2 l :
  Forall (fun x => JS.isFinite x = true) l ->
  forall acc, JS.isFinite acc = true ->
    let r := fold_left JS.min2 l acc in
    JS.isFinite r = true /\ In r (acc :: l) /\
    (units r <= units acc)%Z /\ Forall (fun x => units r <= units x)%Z l.
Proof.
  induction 1 as [|x l Fx Fl IH]; intros acc Fa; cbn [fold_left].
  - repeat split; auto; [left; reflexivity | lia].
  - destruct (min2_finite acc x Fa Fx) as [Hc Hu].
    assert (Fm : JS.isFinite (JS.min2 acc x) = true) by (destruct Hc as [->| ->]; auto).
    destruct (IH _ Fm) as [Fr [Hin [Hle Hall]]]. cbv zeta in *.
    split; [exact Fr|]. split.
    + destruct Hin as [E|Hin]; [|right; right; exact Hin].
      rewrite <- E. destruct Hc as [->| ->]; [left | right; left]; reflexivity.
    + split; [lia|]. constructor; [lia | exact Hall].
Qed.

Lemma fold_max2 l :
  Forall (fun x => JS.isFinite x = true) l ->
  forall acc, JS.isFinite acc = true ->
    let r := fold_left JS.max2 l acc in
    JS.isFinite r = true /\ In r (acc :: l) /\
    (units acc <= units r)%Z /\ Forall (fun x => units x <= units r)%Z l.
Proof.
  induction 1 as [|x l Fx Fl IH]; intros acc Fa; cbn [fold_left].
  - repeat split; auto; [left; reflexivity | lia].
  - destruct (max2_finite acc x Fa Fx) as [Hc Hu].
    assert (Fm : JS.isFinite (JS.max2 acc x) = true) by (destruct Hc as [->| ->]; auto).
    destruct (IH _ Fm) as [Fr [Hin [Hle Hall]]]. cbv zeta in *.
    split; [exact Fr|]. split.
    + destruct Hin as [E|Hin]; [|right; right; exact Hin].
      rewrite <- E. destruct Hc as [->| ->]; [left | right; left]; reflexivity.
    + split; [lia|]. constructor; [lia | exact Hall].
Qed.

Lemma min2_inf x : JS.isFinite x = true -> JS.min2 infinity x = x.
Proof.
  intros F. unfold JS.min2. rewrite (finite_not_nan x F).
  rewrite isFinite_SF in F. rewrite !ltb_spec. change (PrimFloat.is_nan infinity) with false.
  change (Prim2SF infinity) with (S754_infinity false).
  destruct (Prim2SF x) as [s|s| |s m e]; try discriminate; reflexivity.
Qed.

Lemma max2_neg_inf x : JS.isFinite x = true -> JS.max2 neg_infinity x = x.
Proof.
  intros F. unfold JS.max2. rewrite (finite_not_nan x F).
  rewrite isFinite_SF in F. rewrite !ltb_spec.
  change (PrimFloat.is_nan neg_infinity) with false.
  change (Prim2SF neg_infinity) with (S754_infinity true).
  destruct (Prim2SF x) as [s|s| |s m e]; try discriminate; reflexivity.
Qed.

(** The minimum of a non-empty array of finite numbers is one of them and
    bounds them all from below. *)
Lemma Math_min_spec data :
  data <> [] -> Forall (fun x => JS.isFinite x = true) data ->
  JS.isFinite (JS.Math_min data) = true /\ In (JS.Math_min data) data /\
  Forall (fun x => units (JS.Math_min data) <= units x)%Z data.
Proof.
  intros N F. destruct data as [|x l]; [congruence|].
  inversion F as [|? ? Fx Fl]; subst.
  unfold JS.Math_min. cbn [fold_left]. rewrite (min2_inf x Fx).
  destruct (fold_min2 l Fl x Fx) as [Fr [Hin [Hle Hall]]]. cbv zeta in *.
  repeat split; try assumption. constructor; assumption.
Qed.

Lemma Math_max_spec data :
  data <> [] -> Forall (fun x => JS.isFinite x = true) data ->
  JS.isFinite (JS.Math_max data) = true /\ In (JS.Math_max data) data /\
  Forall (fun x => units x <= units (JS.Math_max data))%Z data.
Proof.
  intros N F. destruct data as [|x l]; [congruence|].
  inversion F as [|? ? Fx Fl]; subst.
  unfold JS.Math_max. cbn [fold_left]. rewrite (max2_neg_inf x Fx).
  destruct (fold_max2 l Fl x Fx) as [Fr [Hin [Hle Hall]]]. cbv zeta in *.
  repeat split; try assumption. constructor; assumption.
Qed.

(** ** The error of rounding, and the spacing of representable values *)

Lemma rne_error m k :
  (0 <= k)%Z -> (2 * Z.abs (rne m k * 2 ^ k - m) <= 2 ^ k)%Z.
Proof.
  intros Hk. unfold rne.
  assert (P : (0 < 2 ^ k)%Z) by (apply Z.pow_pos_nonneg; lia).
  pose proof (Z.div_mod m (2 ^ k) ltac:(lia)) as D.
  pose proof (Z.mod_pos_bound m (2 ^ k) P) as B.
  set (p := (2 ^ k)%Z) in *. set (q := (m / p)%Z) in *.
  set (r := (m mod p)%Z) in *.
  destruct (Z.compare_spec (2 * r) p) as [E|E|E].
  - destruct (Z.even q); nia.
  - nia.
  - nia.
Qed.

Lemma Zdigits2_upper X n :
  (0 < X)%Z -> (X < 2 ^ n)%Z -> (Zdigits2 X <= n)%Z.
Proof.
  intros HX Hn. destruct (Zdigits2_bounds X HX) as [[L _] D].
  destruct (Z_lt_le_dec n (Zdigits2 X)) as [H|]; [exfalso|assumption].
  assert (0 <= n)%Z.
  { destruct (Z_lt_le_dec n 0) as [N|]; [|assumption].
    rewrite Z.pow_neg_r in Hn by assumption. lia. }
  assert (2 ^ n <= 2 ^ (Zdigits2 X - 1))%Z by (apply Z.pow_le_mono_r; lia).
  lia.
Qed.

Lemma RNmag_error X k :
  (0 <= k)%Z -> (0 <= X < 2 ^ (53 + k))%Z ->
  (2 * Z.abs (RNmag 0 X - X) <= 2 ^ k)%Z.
Proof.
  intros Hk [H0 HX]. unfold RNmag.
  assert (Pk : (0 < 2 ^ k)%Z) by (apply Z.pow_pos_nonneg; lia).
  destruct (Z.eq_dec X 0) as [->|NX].
  - change (Zdigits2 0) with 0%Z. change (Z.max 0 (0 - 53)) with 0%Z.
    rewrite rne_zero by lia. simpl. lia.
  - pose proof (Zdigits2_upper X (53 + k) ltac:(lia) HX) as Hd.
    set (K := Z.max 0 (Zdigits2 X - 53)).
    assert (HK : (0 <= K <= k)%Z) by (subst K; lia).
    rewrite Z.sub_0_r.
    pose proof (rne_error X K ltac:(lia)) as E.
    assert (2 ^ K <= 2 ^ k)%Z by (apply Z.pow_le_mono_r; lia).
    lia.
Qed.

Lemma RN_error X k :
  (0 <= k)%Z -> (Z.abs X < 2 ^ (53 + k))%Z ->
  (2 * Z.abs (RN X - X) <= 2 ^ k)%Z.
Proof.
  intros Hk HX.
  assert (Pk : (0 < 2 ^ k)%Z) by (apply Z.pow_pos_nonneg; lia).
  destruct (Z.lt_trichotomy X 0) as [N|[->|P]].
  - rewrite (RN_neg X N).
    pose proof (RNmag_error (- X) k Hk ltac:(lia)). lia.
  - rewrite RN_zero. simpl. lia.
  - rewrite (RN_pos X P).
    pose proof (RNmag_error X k Hk ltac:(lia)). lia.
Qed.

(** A representable value of magnitude at least [2^(52+j)] is a multiple of
    [2^j]. *)
Lemma RN_fixed_multiple X j :
  RN X = X -> (0 <= j)%Z -> (2 ^ (52 + j) <= Z.abs X)%Z ->
  exists n, X = (n * 2 ^ j)%Z.
Proof.
  intros F Hj HX.
  assert (P52 : (0 < 2 ^ (52 + j))%Z) by (apply Z.pow_pos_nonneg; lia).
  assert (M : forall Y, (0 < Y)%Z -> RNmag 0 Y = Y ->
              (2 ^ (52 + j) <= Y)%Z -> exists n, Y = (n * 2 ^ j)%Z).
  { intros Y HY FY LY. unfold RNmag in FY. rewrite Z.sub_0_r in FY.
    pose proof (Zdigits2_lower Y (53 + j) HY) as Hd.
    replace (53 + j - 1)%Z with (52 + j)%Z in Hd by lia. specialize (Hd LY).
    set (K := Z.max 0 (Zdigits2 Y - 53)) in *.
    assert (HK : (j <= K)%Z) by (subst K; lia).
    exists (rne Y K * 2 ^ (K - j))%Z.
    rewrite <- Z.mul_assoc, <- Z.pow_add_r by lia.
    replace (K - j + j)%Z with K by lia. symmetry. exact FY. }
  destruct (Z.lt_trichotomy X 0) as [N|[->|P]].
  - rewrite (RN_neg X N) in F.
    destruct (M (- X)%Z ltac:(lia) ltac:(lia) ltac:(lia)) as [n Hn].
    exists (- n)%Z. rewrite Z.mul_opp_l. lia.
  - change (Z.abs 0) with 0%Z in HX. lia.
  - rewrite (RN_pos X P) in F.
    apply M; lia.
Qed.

Lemma RN_double X : RN (2 * X) = (2 * RN X)%Z.
Proof.
  assert (M : forall Y, (0 < Y)%Z -> RNmag 0 (2 * Y) = (2 * RNmag 0 Y)%Z).
  { intros Y HY. unfold RNmag. rewrite !Z.sub_0_r.
    replace (2 * Y)%Z with (Y * 2 ^ 1)%Z by (change (2 ^ 1)%Z with 2%Z; lia).
    rewrite Zdigits2_mul_pow by lia.
    destruct (Z_lt_le_dec (Zdigits2 Y) 53) as [S|L].
    - rewrite !Z.max_l by lia. rewrite !rne_zero_shift. change (2 ^ 1)%Z with 2%Z. change (2 ^ 0)%Z with 1%Z. lia.
    - rewrite !Z.max_r by lia.
      replace (Zdigits2 Y + 1 - 53)%Z with (Zdigits2 Y - 53 + 1)%Z by lia.
      rewrite rne_scale by lia.
      rewrite Z.pow_add_r by lia. change (2 ^ 1)%Z with 2%Z. lia. }
  destruct (Z.lt_trichotomy X 0) as [N|[->|P]].
  - rewrite (RN_neg X N), (RN_neg (2 * X)) by lia.
    replace (- (2 * X))%Z with (2 * - X)%Z by lia. rewrite M by lia. lia.
  - reflexivity.
  - rewrite (RN_pos X P), (RN_pos (2 * X)) by lia. apply M. exact P.
Qed.

Lemma RN_abs X : RN (Z.abs X) = Z.abs (RN X).
Proof.
  destruct (Z.lt_trichotomy X 0) as [N|[->|P]].
  - rewrite Z.abs_neq by lia. rewrite RN_opp.
    pose proof (RN_mono X 0 ltac:(lia)) as H. rewrite RN_zero in H. lia.
  - reflexivity.
  - rewrite Z.abs_eq by lia.
    pose proof (RN_mono 0 X ltac:(lia)) as H. rewrite RN_zero in H. lia.
Qed.

Lemma RN_pow2 j : (0 <= j)%Z -> RN (2 ^ j) = (2 ^ j)%Z.
Proof.
  intros Hj. assert (P : (0 < 2 ^ j)%Z) by (apply Z.pow_pos_nonneg; lia).
  rewrite (RN_pos _ P). unfold RNmag. rewrite Z.sub_0_r.
  assert (D : Zdigits2 (2 ^ j) = (j + 1)%Z).
  { apply Zdigits2_unique; [exact P|].
    replace (j + 1 - 1)%Z with j by lia. rewrite Z.pow_add_r by lia. lia. }
  rewrite D. set (K := Z.max 0 (j + 1 - 53)).
  assert (HK : (0 <= K <= j)%Z) by (subst K; lia).
  replace (2 ^ j)%Z with (2 ^ (j - K) * 2 ^ K)%Z at 1
    by (rewrite <- Z.pow_add_r by lia; f_equal; lia).
  rewrite rne_exact by lia. rewrite <- Z.pow_add_r by lia. f_equal. lia.
Qed.

Lemma RN_bound X j : (0 <= j)%Z -> (Z.abs X <= 2 ^ j)%Z -> (Z.abs (RN X) <= 2 ^ j)%Z.
Proof.
  intros Hj HX. rewrite <- RN_abs, <- (RN_pow2 j Hj). apply RN_mono. exact HX.
Qed.

(** ** The quadratic-interpolation offset, in units *)

(** Two distinct representable values are at least a quarter of [2^k]
    apart when the larger one, in magnitude, is above [2^(51+k)]. *)
Lemma representable_gap A B k :
  RN A = A -> RN B = B -> (2 <= k)%Z -> (A < B)%Z ->
  (2 ^ (51 + k) <= Z.abs B)%Z -> (2 ^ (k - 2) <= B - A)%Z.
Proof.
  intros FA FB Hk Hlt HB.
  assert (Pg : (0 < 2 ^ (k - 2))%Z) by (apply Z.pow_pos_nonneg; lia).
  assert (E51 : (2 ^ (51 + k) = 2 ^ 53 * 2 ^ (k - 2))%Z).
  { rewrite <- Z.pow_add_r by lia. f_equal. lia. }
  assert (E50 : (2 ^ (50 + k) = 2 ^ 52 * 2 ^ (k - 2))%Z).
  { rewrite <- Z.pow_add_r by lia. f_equal. lia. }
  destruct (RN_fixed_multiple B (k - 2) FB ltac:(lia)) as [nB HnB].
  { replace (52 + (k - 2))%Z with (50 + k)%Z by lia. lia. }
  destruct (Z_lt_le_dec (Z.abs A) (2 ^ (50 + k))) as [Small|Large].
  - lia.
  - destruct (RN_fixed_multiple A (k - 2) FA ltac:(lia)) as [nA HnA].
    { replace (52 + (k - 2))%Z with (50 + k)%Z by lia. lia. }
    set (g := (2 ^ (k - 2))%Z) in *.
    assert (nA < nB)%Z by (apply (Z.mul_lt_mono_pos_r g); [exact Pg | lia]).
    rewrite HnA, HnB, <- Z.mul_sub_distr_r.
    rewrite <- (Z.mul_1_l g) at 1. apply Z.mul_le_mono_nonneg_r; lia.
Qed.

Lemma offset_units_bound A B C :
  RN A = A -> RN B = B -> RN C = C -> (A < B)%Z -> (C < B)%Z ->
  let S := RN (RN (A - 2 * B) + C) in
  (S < 0)%Z /\ (Z.abs (RN (A - C)) <= 2 * Z.abs S)%Z.
Proof.
  intros FA FB FC HA HC S.
  set (W := (2 * B - A)%Z). set (P := RN W).
  assert (EP : RN (A - 2 * B) = (- P)%Z).
  { replace (A - 2 * B)%Z with (- W)%Z by (subst W; lia). apply RN_opp. }
  assert (ES : S = (- RN (P - C))%Z).
  { subst S. rewrite EP. replace (- P + C)%Z with (- (P - C))%Z by lia.
    apply RN_opp. }
  assert (HP : (B <= P)%Z).
  { subst P. rewrite <- FB at 1. apply RN_mono. subst W. lia. }
  assert (H1 : (1 <= RN (P - C))%Z).
  { change 1%Z with (RN 1). apply RN_mono. lia. }
  split; [lia|].
  (* the rounding error of [2B - A] *)
  assert (Key : (Z.abs (A - C) <= 2 * (P - C))%Z).
  { destruct (Z_lt_le_dec (Z.abs W) (2 ^ 53)) as [Small|Large].
    - pose proof (RN_error W 0 ltac:(lia) Small) as E.
      change (2 ^ 0)%Z with 1%Z in E. fold P in E. subst W. lia.
    - assert (NW : (0 < Z.abs W)%Z) by lia.
      destruct (Zdigits2_bounds _ NW) as [[Lo Hi] _].
      pose proof (Zdigits2_lower (Z.abs W) 54 NW Large) as Hd.
      set (k := (Zdigits2 (Z.abs W) - 53)%Z).
      replace (Zdigits2 (Z.abs W)) with (53 + k)%Z in Lo, Hi by (subst k; lia).
      replace (53 + k - 1)%Z with (52 + k)%Z in Lo by lia.
      assert (Hk : (1 <= k)%Z) by (subst k; lia). clearbody k.
      pose proof (RN_error W k ltac:(lia) Hi) as E. fold P in E.
      assert (E52 : (2 ^ (52 + k) = 2 ^ 52 * 2 ^ k)%Z)
        by (rewrite <- Z.pow_add_r by lia; reflexivity).
      assert (E51 : (2 * 2 ^ (51 + k) = 2 ^ 52 * 2 ^ k)%Z).
      { change 2%Z with (2 ^ 1)%Z at 1. rewrite <- !Z.pow_add_r by lia.
        f_equal. lia. }
      assert (Pk : (0 < 2 ^ k)%Z) by (apply Z.pow_pos_nonneg; lia).
      destruct (Z_lt_le_dec (Z.abs B) (2 ^ (51 + k))) as [SB|LB].
      + subst W. lia.
      + destruct (Z.eq_dec k 1) as [->|Nk].
        * change (2 ^ 1)%Z with 2%Z in E. subst W. lia.
        * pose proof (representable_gap A B k FA FB ltac:(lia) HA LB) as GA.
          pose proof (representable_gap C B k FC FB ltac:(lia) HC LB) as GC.
          assert (E4 : (2 ^ k = 4 * 2 ^ (k - 2))%Z).
          { change 4%Z with (2 ^ 2)%Z. rewrite <- Z.pow_add_r by lia.
            f_equal. lia. }
          subst W. lia. }
  rewrite ES, Z.abs_opp, <- !RN_abs, <- RN_double.
  apply RN_mono. rewrite (Z.abs_eq (P - C)) by lia. exact Key.
Qed.

(** ** Quotients of either sign *)

Lemma binary_round_aux_sign s m e l :
  SFfinite (binary_round_aux prec emax s m e l)
  = SFfinite (binary_round_aux prec emax false m e l) /\
  ulps (binary_round_aux prec emax s m e l)
  = cond_Zopp s (ulps (binary_round_aux prec emax false m e l)).
Proof.
  unfold binary_round_aux.
  destruct (shr_fexp prec emax m e l) as [mrs' e'].
  destruct (shr_fexp prec emax
              (round_nearest_even (shr_m mrs') (loc_of_shr_record mrs'))
              e' loc_Exact) as [mrs'' e''].
  destruct (shr_m mrs'') as [|p|p]; [destruct s; split; reflexivity| |
                                     destruct s; split; reflexivity].
  destruct (e'' <=? emax - prec)%Z; destruct s; split; reflexivity.
Qed.

(** A dividend not above a non-zero divisor in magnitude: the quotient is
    finite and at most one in magnitude. *)
Lemma SFdiv_magnitude x y :
  SFfinite x = true -> SFfinite y = true ->
  valid_binary x = true -> valid_binary y = true ->
  (Z.abs (ulps x) <= Z.abs (ulps y))%Z -> ulps y <> 0%Z ->
  SFfinite (SFdiv prec emax x y) = true /\
  (Z.abs (ulps (SFdiv prec emax x y)) <= 2 ^ 1074)%Z.
Proof.
  intros Fx Fy Vx Vy Hxy Hy.
  assert (T : (0 < 2 ^ 1074)%Z) by reflexivity.
  destruct y as [sy|sy| |sy my ey]; try discriminate;
    [exfalso; apply Hy; reflexivity|].
  destruct x as [sx|sx| |sx mx ex]; try discriminate.
  - cbn [SFdiv]. split; [reflexivity|]. cbn [ulps]. simpl Z.abs. lia.
  - assert (Px : (0 < Z.pos mx * 2 ^ (ex + 1074))%Z).
    { destruct (valid_finite_canonical _ _ _ Vx) as [Cx _].
      destruct (canonical_digits _ _ Cx) as [_ Lx].
      apply Z.mul_pos_pos; [lia | apply Z.pow_pos_nonneg; lia]. }
    assert (Py : (0 < Z.pos my * 2 ^ (ey + 1074))%Z).
    { destruct (valid_finite_canonical _ _ _ Vy) as [Cy _].
      destruct (canonical_digits _ _ Cy) as [_ Ly].
      apply Z.mul_pos_pos; [lia | apply Z.pow_pos_nonneg; lia]. }
    assert (Hm : (Z.pos mx * 2 ^ (ex + 1074) <= Z.pos my * 2 ^ (ey + 1074))%Z).
    { cbn [ulps] in Hxy. destruct sx, sy; cbn [cond_Zopp] in Hxy; lia. }
    pose proof (SFdiv_unit_range (S754_finite false mx ex)
                  (S754_finite false my ey) eq_refl eq_refl) as U.
    cbn [ulps cond_Zopp] in U.
    specialize (U ltac:(destruct sx; exact Vx) ltac:(destruct sy; exact Vy)
                  ltac:(lia) ltac:(lia)).
    cbn [SFdiv xorb] in U |- *.
    destruct (SFdiv_core_binary prec emax (Z.pos mx) ex (Z.pos my) ey)
      as [[mz ez] lz].
    destruct (binary_round_aux_sign (xorb sx sy) mz ez lz) as [E1 E2].
    rewrite E1, E2. destruct U as [U1 U2]. split; [exact U1|].
    destruct (xorb sx sy); cbn [cond_Zopp]; lia.
Qed.

Lemma div_magnitude p d :
  JS.isFinite p = true -> JS.isFinite d = true ->
  (Z.abs (units p) <= Z.abs (units d))%Z -> units d <> 0%Z ->
  JS.isFinite (p / d) = true /\ (Z.abs (units (p / d)) <= 2 ^ 1074)%Z.
Proof.
  intros Fp Fd Hp Hd. rewrite isFinite_SF in Fp, Fd.
  destruct (SFdiv_magnitude _ _ Fp Fd (Prim2SF_valid p) (Prim2SF_valid d) Hp Hd)
    as [F U].
  change (SFdiv prec emax (Prim2SF p) (Prim2SF d))
    with (SF64div (Prim2SF p) (Prim2SF d)) in F, U.
  rewrite <- div_spec in F, U. rewrite <- isFinite_SF in F.
  split; assumption.
Qed.

(** ** Magnitudes and integers *)

Lemma abs_bound x M :
  JS.isFinite M = true -> PrimFloat.leb (JS.Math_abs x) M = true ->
  JS.isFinite x = true /\ (Z.abs (units x) <= units M)%Z.
Proof.
  intros FM H. unfold JS.Math_abs in H.
  assert (F : JS.isFinite (abs x) = true /\ units (abs x) = Z.abs (units x)
              /\ JS.isFinite x = JS.isFinite (abs x)).
  { rewrite leb_spec, abs_spec in H.
    rewrite !isFinite_SF. unfold units. rewrite abs_spec.
    rewrite isFinite_SF in FM.
    destruct (Prim2SF x) as [s|s| |s m e]; cbn [SFabs SFfinite ulps] in *.
    - repeat split.
    - destruct (Prim2SF M); discriminate.
    - discriminate.
    - repeat split. destruct s; cbn [cond_Zopp]; lia. }
  destruct F as [Fa [Ua Fx]]. rewrite Fx. split; [exact Fa|].
  rewrite (leb_units _ _ Fa FM) in H. apply Z.leb_le in H. lia.
Qed.

Lemma RN_small_integer i :
  (Z.abs i < 2 ^ 53)%Z -> RN (i * 2 ^ 1074) = (i * 2 ^ 1074)%Z.
Proof.
  intros Hi.
  assert (T : (0 < 2 ^ 1074)%Z) by reflexivity.
  assert (M : forall j, (0 < j < 2 ^ 53)%Z ->
              RNmag 0 (j * 2 ^ 1074) = (j * 2 ^ 1074)%Z).
  { intros j Hj. unfold RNmag. rewrite Z.sub_0_r.
    rewrite Zdigits2_mul_pow by lia.
    pose proof (Zdigits2_upper j 53 ltac:(lia) ltac:(lia)) as Hd.
    destruct (Zdigits2_bounds j ltac:(lia)) as [_ D].
    set (K := Z.max 0 (Zdigits2 j + 1074 - 53)).
    assert (HK : (0 <= K <= 1074)%Z) by (subst K; lia).
    replace (j * 2 ^ 1074)%Z with (j * 2 ^ (1074 - K) * 2 ^ K)%Z at 1.
    - rewrite rne_exact by lia. rewrite <- Z.mul_assoc, <- Z.pow_add_r by lia.
      f_equal. f_equal. lia.
    - rewrite <- Z.mul_assoc, <- Z.pow_add_r by lia. f_equal. f_equal. lia. }
  destruct (Z.lt_trichotomy i 0) as [N|[->|P]].
  - rewrite RN_neg by lia.
    replace (- (i * 2 ^ 1074))%Z with (- i * 2 ^ 1074)%Z by lia.
    rewrite M by lia. lia.
  - reflexivity.
  - rewrite RN_pos by lia. apply M. lia.
Qed.

Lemma of_Z_units i :
  (Z.abs i < 2 ^ 53)%Z ->
  JS.isFinite (JS.of_Z i) = true /\ units (JS.of_Z i) = (i * 2 ^ 1074)%Z.
Proof.
  intros Hi. unfold JS.of_Z, units. rewrite isFinite_SF.
  pose proof (binary_normalize_RN i 0 ltac:(lia)) as H. cbv zeta in H.
  change (0 + 1074)%Z with 1074%Z in H.
  rewrite (RN_small_integer i Hi) in H. destruct H as [H _].
  assert (B : (Z.abs (i * 2 ^ 1074) < overflow)%Z).
  { rewrite Z.abs_mul. change (Z.abs (2 ^ 1074)) with (2 ^ 1074)%Z.
    change overflow with (2 ^ 1024 * 2 ^ 1074)%Z.
    apply Z.mul_lt_mono_pos_r; [reflexivity|].
    assert (2 ^ 53 < 2 ^ 1024)%Z by reflexivity. lia. }
  destruct (H B) as [F [V U]].
  rewrite Prim2SF_SF2Prim by exact V. split; assumption.
Qed.

(** An operation whose rounded result is below [2^j] returns it. *)
Lemma returns_bounded R x j :
  returns R (Prim2SF x) -> (0 <= j <= 2097)%Z -> (Z.abs R <= 2 ^ j)%Z ->
  JS.isFinite x = true /\ units x = R.
Proof.
  intros H Hj HR.
  assert (2 ^ j <= 2 ^ 2097)%Z by (apply Z.pow_le_mono_r; lia).
  assert (2 ^ 2097 < overflow)%Z by reflexivity.
  destruct (returns_cases _ _ H) as [[_ [F U]]|[[Hov _]|[Hov _]]]; [auto|lia|lia].
Qed.

(** ** Numbers: finite or infinite, not NaN *)

Lemma number_cases x :
  PrimFloat.is_nan x = false ->
  JS.isFinite x = true \/ x = infinity \/ x = neg_infinity.
Proof.
  intros N. rewrite isFinite_SF.
  destruct (Prim2SF x) as [s|s| |s m e] eqn:E.
  - left. reflexivity.
  - right. destruct s; [right|left]; apply Prim2SF_inj; rewrite E; reflexivity.
  - apply is_nan_spec in E. congruence.
  - left. reflexivity.
Qed.

Lemma returns_number R x : returns R (Prim2SF x) -> PrimFloat.is_nan x = false.
Proof.
  intros H. destruct (returns_cases _ _ H) as [[_ [F _]]|[[_ ->]|[_ ->]]];
    [apply finite_not_nan; exact F | reflexivity | reflexivity].
Qed.

Lemma mul_number k y :
  JS.isFinite k = true -> units k <> 0%Z -> PrimFloat.is_nan y = false ->
  PrimFloat.is_nan (k * y) = false.
Proof.
  intros Fk Nk Ny. destruct (number_cases y Ny) as [Fy|Iy].
  - exact (returns_number _ _ (mul_returns k y Fk Fy)).
  - apply not_true_is_false. intros H. apply is_nan_spec in H.
    rewrite mul_spec in H. rewrite isFinite_SF in Fk. unfold units in Nk.
    destruct (Prim2SF k) as [s|s| |s m e]; try discriminate;
      [apply Nk; reflexivity|].
    destruct Iy as [-> | ->]; discriminate.
Qed.

Lemma sub_number k z :
  JS.isFinite k = true -> PrimFloat.is_nan z = false ->
  PrimFloat.is_nan (k - z) = false.
Proof.
  intros Fk Nz. destruct (number_cases z Nz) as [Fz|[-> | ->]].
  - exact (returns_number _ _ (sub_returns k z Fk Fz)).
  - rewrite (proj1 (finite_sub_inf k Fk)). reflexivity.
  - rewrite (proj2 (finite_sub_inf k Fk)). reflexivity.
Qed.

Lemma add_number r f :
  PrimFloat.is_nan r = false -> JS.isFinite f = true ->
  PrimFloat.is_nan (r + f) = false.
Proof.
  intros Nr Ff. destruct (number_cases r Nr) as [Fr|[-> | ->]].
  - exact (returns_number _ _ (add_returns r f Fr Ff)).
  - rewrite (proj1 (inf_add_finite f Ff)). reflexivity.
  - rewrite (proj2 (inf_add_finite f Ff)). reflexivity.
Qed.

(** The jitter [(random * 2 - 1) * 0.5] of a [random] in [[0, 1]] is finite
    and at most one half in magnitude. *)
Lemma jitter_bounded random :
  PrimFloat.leb 0 random = true -> PrimFloat.leb random 1 = true ->
  JS.isFinite ((random * 2 - 1) * 0.5) = true /\
  (Z.abs (units ((random * 2 - 1) * 0.5)) <= 2 ^ 1073)%Z.
Proof.
  intros H0 H1.
  pose proof (finite_between 0 1 random eq_refl eq_refl H0 H1) as F.
  rewrite (leb_units 0 random eq_refl F) in H0.
  rewrite (leb_units random 1 F eq_refl) in H1.
  apply Z.leb_le in H0, H1. change (units 0) with 0%Z in H0.
  rewrite units_one in H1.
  assert (E75 : (2 ^ 1075 = 2 * 2 ^ 1074)%Z) by reflexivity.
  assert (E74 : (2 ^ 1074 = 2 * 2 ^ 1073)%Z) by reflexivity.
  assert (T : (0 < 2 ^ 1073)%Z) by reflexivity.
  (* random * 2 *)
  pose proof (mul_returns random 2 F eq_refl) as R1.
  rewrite units_two, Z.mul_comm, (RNprod_double random F) in R1.
  destruct (returns_bounded _ _ 1075 R1 ltac:(lia) ltac:(lia)) as [F1 U1].
  (* random * 2 - 1 *)
  pose proof (sub_returns (random * 2) 1 F1 eq_refl) as R2.
  rewrite U1, units_one in R2.
  pose proof (RN_bound (2 * units random - 2 ^ 1074) 1074 ltac:(lia)
                ltac:(lia)) as B2.
  destruct (returns_bounded _ _ 1074 R2 ltac:(lia) B2) as [F2 U2].
  rewrite <- U2 in B2.
  (* (random * 2 - 1) * 0.5 *)
  pose proof (mul_returns (random * 2 - 1) 0.5 F2 eq_refl) as R3.
  change (units 0.5) with (2 ^ 1073)%Z in R3.
  set (v := units (random * 2 - 1)) in *.
  assert (Lo : (RNprod (- 2 ^ 1074 * 2 ^ 1073) <= RNprod (v * 2 ^ 1073))%Z)
    by (apply RNprod_mono; nia).
  assert (Hi : (RNprod (v * 2 ^ 1073) <= RNprod (2 ^ 1074 * 2 ^ 1073))%Z)
    by (apply RNprod_mono; nia).
  replace (RNprod (- 2 ^ 1074 * 2 ^ 1073)) with (- 2 ^ 1073)%Z in Lo
    by (vm_compute; reflexivity).
  replace (RNprod (2 ^ 1074 * 2 ^ 1073)) with (2 ^ 1073)%Z in Hi
    by (vm_compute; reflexivity).
  destruct (returns_bounded _ _ 1073 R3 ltac:(lia) ltac:(lia)) as [F3 U3].
  split; [exact F3 | rewrite U3; lia].
Qed.

(** The value before clamping is a number whenever the ratio [R] is. *)
Lemma spo2_number R random :
  PrimFloat.is_nan R = false ->
  PrimFloat.leb 0 random = true -> PrimFloat.leb random 1 = true ->
  let raw := (110 - 25 * R)%float in
  let jitter := ((random * 2 - 1) * 0.5)%float in
  let bias :=
    if PrimFloat.ltb raw 95 then 0.5%float
    else if PrimFloat.ltb 99 raw then (-0.3)%float else 0%float in
  PrimFloat.is_nan (raw + (jitter + bias)) = false.
Proof.
  intros NR H0 H1 raw jitter bias.
  destruct (jitter_bounded random H0 H1) as [Fj Bj]. fold jitter in Fj, Bj.
  assert (Nraw : PrimFloat.is_nan raw = false).
  { apply sub_number; [reflexivity|].
    apply mul_number; [reflexivity | vm_compute; discriminate | exact NR]. }
  assert (Fb : JS.isFinite bias = true /\ (Z.abs (units bias) <= 2 ^ 1073)%Z).
  { subst bias. destruct (PrimFloat.ltb raw 95);
      [|destruct (PrimFloat.ltb 99 raw)];
      (split; [reflexivity | vm_compute; discriminate]). }
  destruct Fb as [Fb Bb].
  assert (E74 : (2 ^ 1074 = 2 * 2 ^ 1073)%Z) by reflexivity.
  pose proof (RN_bound (units jitter + units bias) 1074 ltac:(lia) ltac:(lia))
    as B.
  destruct (returns_bounded _ _ 1074 (add_returns jitter bias Fj Fb)
              ltac:(lia) B) as [F _].
  apply add_number; assumption.
Qed.

(** ** Division by a number of magnitude at least one *)

(** The quotient, exponent and location on which [SFdiv] calls
    [binary_round_aux]. *)
Lemma SFdiv_core_spec m1 e1 m2 e2 :
  canonical m1 e1 -> canonical m2 e2 ->
  exists q e' l,
    SFdiv_core_binary prec emax m1 e1 m2 e2 = (q, e', l) /\
    (0 <= e1 - e2 - e')%Z /\
    (0 <= q)%Z /\
    (q * m2 <= m1 * 2 ^ (e1 - e2 - e') < (q + 1) * m2)%Z /\
    (q * m2 = m1 * 2 ^ (e1 - e2 - e') -> l = loc_Exact)%Z /\
    (e' <= fexp prec emax (Zdigits2 q + e'))%Z /\
    (0 < q \/ e' <= -1074)%Z.
Proof.
  intros C1 C2.
  destruct (canonical_digits _ _ C1) as [D1 L1].
  destruct (canonical_digits _ _ C2) as [D2 L2].
  destruct C1 as [P1 C1], C2 as [P2 C2].
  destruct (Zdigits2_bounds m1 P1) as [[Lo1 Up1] Dp1].
  destruct (Zdigits2_bounds m2 P2) as [[Lo2 Up2] Dp2].
  unfold SFdiv_core_binary.
  set (z := (Zdigits2 m1 + e1 - (Zdigits2 m2 + e2))%Z).
  set (e' := Z.min (fexp prec emax z) (e1 - e2)).
  set (s := (e1 - e2 - e')%Z).
  assert (Hs : (0 <= s)%Z) by (subst s e'; lia).
  assert (Ps : (0 < 2 ^ s)%Z) by (apply Z.pow_pos_nonneg; lia).
  set (m' := match s with
             | 0%Z => m1
             | Z.pos _ => Z.shiftl m1 s
             | Z.neg _ => 0%Z
             end).
  assert (Hm' : m' = (m1 * 2 ^ s)%Z).
  { subst m'. destruct s as [|p|p] eqn:Es; [simpl; lia | | lia].
    apply Z.shiftl_mul_pow2. lia. }
  rewrite Hm'. clear m' Hm'.
  pose proof (Z.div_mod (m1 * 2 ^ s) m2 ltac:(lia)) as Hdm.
  pose proof (Z.mod_pos_bound (m1 * 2 ^ s) m2 P2) as Hr.
  assert (Hde : Z.div_eucl (m1 * 2 ^ s) m2
                = ((m1 * 2 ^ s) / m2, (m1 * 2 ^ s) mod m2)%Z).
  { unfold Z.div, Z.modulo. destruct (Z.div_eucl (m1 * 2 ^ s) m2). reflexivity. }
  rewrite Hde.
  set (q := ((m1 * 2 ^ s) / m2)%Z) in *.
  set (r := ((m1 * 2 ^ s) mod m2)%Z) in *.
  exists q, e', (new_location m2 r). split; [reflexivity|].
  assert (Hq0 : (0 <= q)%Z) by (apply Z.div_pos; nia).
  split; [exact Hs|]. split; [exact Hq0|].
  split; [fold s; clearbody q r; lia|]. split.
  - fold s. intros Eq. replace r with 0%Z; [apply new_location_zero|].
    clearbody q r. lia.
  - destruct (Z_lt_le_dec 0 (Zdigits2 m1 + s - Zdigits2 m2)) as [Hpos|Hneg].
    + (* the quotient has enough digits *)
      assert (Hql : (2 ^ (Zdigits2 m1 + s - Zdigits2 m2 - 1) <= q)%Z).
      { apply Z.div_le_lower_bound; [lia|].
        assert (E : (2 ^ (Zdigits2 m1 - 1 + s)
                     = 2 ^ Zdigits2 m2
                       * 2 ^ (Zdigits2 m1 + s - Zdigits2 m2 - 1))%Z).
        { rewrite <- Z.pow_add_r by lia. f_equal. lia. }
        assert (F : (2 ^ (Zdigits2 m1 - 1 + s) = 2 ^ (Zdigits2 m1 - 1) * 2 ^ s)%Z)
          by (apply Z.pow_add_r; lia).
        assert (0 < 2 ^ (Zdigits2 m1 + s - Zdigits2 m2 - 1))%Z
          by (apply Z.pow_pos_nonneg; lia).
        nia. }
      assert (0 < 2 ^ (Zdigits2 m1 + s - Zdigits2 m2 - 1))%Z
        by (apply Z.pow_pos_nonneg; lia).
      assert (Hq : (0 < q)%Z) by lia.
      pose proof (Zdigits2_lower q (Zdigits2 m1 + s - Zdigits2 m2) Hq Hql) as Hdq.
      split; [|left; exact Hq].
      subst s e' z. rewrite !fexp_eq in *. lia.
    + (* the quotient underflows *)
      assert (Hdq : (0 <= Zdigits2 q)%Z) by (apply Zdigits2_zero_or; lia).
      assert (Hem : (e' <= -1074)%Z) by (subst s e' z; rewrite !fexp_eq in *; lia).
      split; [rewrite fexp_eq; lia | right; exact Hem].
Qed.

(** The arithmetic behind [SFdiv_le]: with a divisor of at least one unit
    [U], the quotient's mantissa [q], cut at [2^k], is at most the dividend
    [X = mx * pb]; equality makes the division and the cut exact. *)
Lemma quotient_below_dividend q F my mx ps pa pc pb pk U :
  (0 < ps)%Z -> (0 < pa)%Z -> (0 < pc)%Z -> (0 < pb)%Z -> (0 < pk)%Z ->
  (0 < U)%Z -> (0 < my)%Z -> (0 < mx)%Z -> (0 <= F)%Z ->
  (ps * pa * pc = pb * pk * U)%Z ->
  (F * pk <= q)%Z -> (q * my <= mx * ps)%Z -> (U <= my * pc)%Z ->
  (F * pa <= mx * pb)%Z /\
  (F * pa = mx * pb -> F * pk = q /\ q * my = mx * ps)%Z.
Proof.
  intros Ps Pa Pc Pb Pk PU Pmy Pmx HF E HFq Hq HY.
  assert (A1 : (F * pk * my <= q * my)%Z)
    by (apply Z.mul_le_mono_nonneg_r; lia).
  assert (A2 : (F * pk * my * (pa * pc) <= mx * ps * (pa * pc))%Z)
    by (apply Z.mul_le_mono_nonneg_r; nia).
  assert (A3 : (mx * ps * (pa * pc) = pk * (mx * pb * U))%Z).
  { replace (mx * ps * (pa * pc))%Z with (mx * (ps * pa * pc))%Z by ring.
    rewrite E. ring. }
  assert (A4 : (F * pk * my * (pa * pc) = pk * (F * pa * (my * pc)))%Z) by ring.
  assert (A5 : (F * pa * (my * pc) <= mx * pb * U)%Z).
  { apply (Z.mul_le_mono_pos_l _ _ pk Pk). lia. }
  assert (A6 : (F * pa * U <= F * pa * (my * pc))%Z)
    by (apply Z.mul_le_mono_nonneg_l; nia).
  assert (A7 : (F * pa * U <= mx * pb * U)%Z) by lia.
  split.
  - apply (Z.mul_le_mono_pos_r _ _ U PU). exact A7.
  - intros Eq. rewrite Eq in A6, A5.
    assert (B1 : (F * pk * my * (pa * pc) = mx * ps * (pa * pc))%Z).
    { rewrite A4, A3. f_equal. rewrite Eq. lia. }
    assert (B2 : (F * pk * my = mx * ps)%Z).
    { apply (Z.mul_cancel_r _ _ (pa * pc)); [nia | exact B1]. }
    assert (B3 : (q * my = mx * ps)%Z) by lia.
    split; [|exact B3].
    apply (Z.mul_cancel_r _ _ my); lia.
Qed.

(** Dividing by a number of magnitude at least one does not increase the
    magnitude, and the quotient is finite. *)
Lemma SFdiv_le x y :
  SFfinite x = true -> SFfinite y = true ->
  valid_binary x = true -> valid_binary y = true ->
  (2 ^ 1074 <= Z.abs (ulps y))%Z ->
  SFfinite (SFdiv prec emax x y) = true /\
  (Z.abs (ulps (SFdiv prec emax x y)) <= Z.abs (ulps x))%Z.
Proof.
  intros Fx Fy Vx Vy Hy.
  assert (PU : (0 < 2 ^ 1074)%Z) by reflexivity.
  destruct y as [sy|sy| |sy my ey]; try discriminate;
    [cbn [ulps] in Hy; simpl Z.abs in Hy; lia|].
  destruct x as [sx|sx| |sx mx ex]; try discriminate.
  { cbn [SFdiv]. split; [reflexivity|]. cbn [ulps]. lia. }
  destruct (valid_finite_canonical _ _ _ Vx) as [Cx Ex].
  destruct (valid_finite_canonical _ _ _ Vy) as [Cy Ey].
  destruct (canonical_digits _ _ Cx) as [Dx Lx].
  destruct (canonical_digits _ _ Cy) as [Dy Ly].
  pose proof (canonical_bounds _ _ Cx Ex) as Bx.
  assert (Pb : (0 < 2 ^ (ex + 1074))%Z) by (apply Z.pow_pos_nonneg; lia).
  assert (Pc : (0 < 2 ^ (ey + 1074))%Z) by (apply Z.pow_pos_nonneg; lia).
  assert (AX : Z.abs (ulps (S754_finite sx mx ex))
               = (Z.pos mx * 2 ^ (ex + 1074))%Z).
  { cbn [ulps]. destruct sx; cbn [cond_Zopp]; nia. }
  assert (AY : Z.abs (ulps (S754_finite sy my ey))
               = (Z.pos my * 2 ^ (ey + 1074))%Z).
  { cbn [ulps]. destruct sy; cbn [cond_Zopp]; nia. }
  rewrite AX. rewrite AY in Hy. clear AX AY.
  cbn [SFdiv].
  destruct (SFdiv_core_spec _ _ _ _ Cx Cy)
    as [q [e' [l [E [Hs [Hq0 [[Hlo Hhi] [Hex [Hal Hnz]]]]]]]]].
  rewrite E.
  destruct (binary_round_aux_sign (xorb sx sy) q e' l) as [S1 S2].
  rewrite S1, S2.
  assert (Goal' :
            SFfinite (binary_round_aux prec emax false q e' l) = true /\
            (0 <= ulps (binary_round_aux prec emax false q e' l)
             <= Z.pos mx * 2 ^ (ex + 1074))%Z).
  2:{ destruct Goal' as [G1 G2]. split; [exact G1|].
      destruct (xorb sx sy); cbn [cond_Zopp]; lia. }
  destruct (binary_round_aux_cases false q e' l Hq0 Hal Hnz) as [Hm2 Hres].
  cbv zeta in Hm2, Hres.
  set (k := (fexp prec emax (Zdigits2 q + e') - e')%Z) in *.
  set (m2 := round_nearest_even
               (shr_m (fst (shr_fexp prec emax q e' l)))
               (loc_of_shr_record (fst (shr_fexp prec emax q e' l)))) in *.
  set (s := (ex - ey - e')%Z) in *.
  assert (Hk : (0 <= k)%Z) by (subst k; lia).
  assert (Ha : (0 <= e' + k + 1074)%Z) by (subst k; rewrite fexp_eq; lia).
  assert (Ps : (0 < 2 ^ s)%Z) by (apply Z.pow_pos_nonneg; lia).
  assert (Pk : (0 < 2 ^ k)%Z) by (apply Z.pow_pos_nonneg; lia).
  assert (Pa : (0 < 2 ^ (e' + k + 1074))%Z) by (apply Z.pow_pos_nonneg; lia).
  assert (HF : (0 <= q / 2 ^ k)%Z) by (apply Z.div_pos; lia).
  assert (HFq : (q / 2 ^ k * 2 ^ k <= q)%Z)
    by (rewrite Z.mul_comm; apply Z.mul_div_le; lia).
  assert (EP : (2 ^ s * 2 ^ (e' + k + 1074) * 2 ^ (ey + 1074)
                = 2 ^ (ex + 1074) * 2 ^ k * 2 ^ 1074)%Z).
  { rewrite <- !Z.pow_add_r by lia. f_equal. subst s. lia. }
  destruct (quotient_below_dividend q (q / 2 ^ k) (Z.pos my) (Z.pos mx)
              (2 ^ s) (2 ^ (e' + k + 1074)) (2 ^ (ey + 1074)) (2 ^ (ex + 1074))
              (2 ^ k) (2 ^ 1074) Ps Pa Pc Pb Pk PU ltac:(lia) ltac:(lia) HF EP
              HFq Hlo Hy) as [Below Exact].
  (* the result's exponent is not above the dividend's *)
  assert (Hab : (e' + k <= ex)%Z).
  { destruct (Z.eq_dec q 0) as [Q0|Q0].
    - subst k. rewrite Q0 in *. change (Zdigits2 0) with 0%Z in *.
      rewrite fexp_eq in *. lia.
    - assert (Qp : (0 < q)%Z) by lia.
      destruct (Zdigits2_bounds q Qp) as [[Lq _] Dq].
      destruct (Zdigits2_bounds (Z.pos mx) ltac:(lia)) as [[_ Ux] Dxp].
      assert (M : (Zdigits2 q + 1074 <= Zdigits2 (Z.pos mx) + s + (ey + 1074))%Z).
      { destruct (Z_lt_le_dec (Zdigits2 (Z.pos mx) + s + (ey + 1074))
                    (Zdigits2 q + 1074)) as [Hlt|]; [exfalso|assumption].
        assert (T1 : (2 ^ (Zdigits2 (Z.pos mx) + s + (ey + 1074))
                      <= 2 ^ (Zdigits2 q - 1 + 1074))%Z)
          by (apply Z.pow_le_mono_r; lia).
        rewrite (Z.pow_add_r 2 (Zdigits2 q - 1) 1074) in T1 by lia.
        rewrite (Z.pow_add_r 2 (Zdigits2 (Z.pos mx) + s) (ey + 1074)),
          (Z.pow_add_r 2 (Zdigits2 (Z.pos mx)) s) in T1 by lia.
        assert (T2 : (2 ^ (Zdigits2 q - 1) * 2 ^ 1074
                      <= q * (Z.pos my * 2 ^ (ey + 1074)))%Z)
          by (apply Z.mul_le_mono_nonneg; lia).
        assert (T3 : (q * (Z.pos my * 2 ^ (ey + 1074))
                      < 2 ^ Zdigits2 (Z.pos mx) * 2 ^ s * 2 ^ (ey + 1074))%Z).
        { replace (q * (Z.pos my * 2 ^ (ey + 1074)))%Z
            with (q * Z.pos my * 2 ^ (ey + 1074))%Z by ring.
          apply Z.mul_lt_mono_pos_r; [exact Pc|].
          apply Z.le_lt_trans with (Z.pos mx * 2 ^ s)%Z; [exact Hlo|].
          apply Z.mul_lt_mono_pos_r; [exact Ps | exact Ux]. }
        lia. }
      destruct Cx as [_ Cx]. subst k s. rewrite !fexp_eq in *. lia. }
  assert (EX : (Z.pos mx * 2 ^ (ex + 1074)
                = Z.pos mx * 2 ^ (ex - (e' + k)) * 2 ^ (e' + k + 1074))%Z).
  { rewrite <- Z.mul_assoc, <- Z.pow_add_r by lia. f_equal. f_equal. lia. }
  (* the rounded mantissa, in units, is not above the dividend *)
  assert (Hb : (0 <= m2)%Z /\
               (m2 * 2 ^ (e' + k + 1074) <= Z.pos mx * 2 ^ (ex + 1074))%Z).
  { split; [lia|].
    destruct (Z.eq_dec (q / 2 ^ k * 2 ^ (e' + k + 1074))
                (Z.pos mx * 2 ^ (ex + 1074))) as [Eq|Ne].
    - destruct (Exact Eq) as [Eq1 Eq2].
      pose proof (Hex Eq2) as El. subst l.
      assert (Qp : (0 < q)%Z) by nia.
      destruct (shr_fexp_rne q e' Qp) as [_ Hr].
      replace (Z.max 0 (fexp prec emax (Zdigits2 q + e') - e')) with k in Hr
        by (subst k; lia).
      fold m2 in Hr. rewrite Hr, <- Eq1, rne_exact by lia. lia.
    - assert (Lt : (q / 2 ^ k * 2 ^ (e' + k + 1074)
                    < Z.pos mx * 2 ^ (ex + 1074))%Z) by lia.
      rewrite EX in Lt |- *.
      apply Z.mul_lt_mono_pos_r in Lt; [|exact Pa].
      apply Z.mul_le_mono_nonneg_r; lia. }
  destruct Hb as [Hm0 Hb].
  destruct Hres as [[Z0 R]|[m3 [e3 [Hv [Hle3 [Hc R]]]]]]; rewrite R.
  - split; [reflexivity|]. cbn [ulps]. lia.
  - assert (E3 : (Z.pos m3 * 2 ^ (e3 + 1074) = m2 * 2 ^ (e' + k + 1074))%Z).
    { rewrite <- Hv, <- Z.mul_assoc, <- Z.pow_add_r by lia.
      f_equal. f_equal. lia. }
    change (emax - prec)%Z with 971%Z.
    destruct (Z.leb_spec e3 971) as [Le|Gt].
    + split; [reflexivity|]. cbn [ulps cond_Zopp]. rewrite E3.
      split; [apply Z.mul_nonneg_nonneg; lia | exact Hb].
    + exfalso. pose proof (canonical_overflow _ _ Hc Gt) as Ov. lia.
Qed.

Lemma div_le x y :
  JS.isFinite x = true -> JS.isFinite y = true ->
  (2 ^ 1074 <= Z.abs (units y))%Z ->
  JS.isFinite (x / y) = true /\ (Z.abs (units (x / y)) <= Z.abs (units x))%Z.
Proof.
  intros Fx Fy Hy. rewrite isFinite_SF in Fx, Fy.
  destruct (SFdiv_le _ _ Fx Fy (Prim2SF_valid x) (Prim2SF_valid y) Hy)
    as [F U].
  change (SFdiv prec emax (Prim2SF x) (Prim2SF y))
    with (SF64div (Prim2SF x) (Prim2SF y)) in F, U.
  rewrite <- div_spec in F, U. rewrite <- isFinite_SF in F.
  split; assumption.
Qed.

(** ** Sums and moving averages of bounded samples *)

Lemma within_mono j j' x : (0 <= j <= j')%Z -> within j x -> within j' x.
Proof.
  intros H [F B]. split; [exact F|].
  assert (2 ^ j <= 2 ^ j')%Z by (apply Z.pow_le_mono_r; lia). lia.
Qed.

Lemma bounded_within x : Spec.bounded x -> within 2071 x.
Proof.
  intros H. destruct (abs_bound x 1e300 eq_refl H) as [F B].
  split; [exact F|].
  assert (units 1e300 <= 2 ^ 2071)%Z by (vm_compute; discriminate). lia.
Qed.

Lemma add_within j x y :
  (0 <= j <= 2096)%Z -> within j x -> within j y -> within (j + 1) (x + y).
Proof.
  intros Hj [Fx Bx] [Fy By].
  assert (E : (2 ^ (j + 1) = 2 * 2 ^ j)%Z)
    by (rewrite Z.pow_add_r by lia; change (2 ^ 1)%Z with 2%Z; lia).
  pose proof (RN_bound (units x + units y) (j + 1) ltac:(lia) ltac:(lia)) as B.
  destruct (returns_bounded _ _ (j + 1) (add_returns x y Fx Fy) ltac:(lia) B)
    as [F U].
  split; [exact F | rewrite U; exact B].
Qed.

Lemma sum_within l :
  forall acc j,
    Forall (within j) l -> within j acc ->
    (0 <= j)%Z -> (j + Z.of_nat (length l) <= 2097)%Z ->
    within (j + Z.of_nat (length l)) (fold_left PrimFloat.add l acc).
Proof.
  induction l as [|x l IH]; intros acc j Hl Ha Hj Hn; cbn [fold_left length].
  - replace (j + Z.of_nat 0)%Z with j by lia. exact Ha.
  - inversion Hl as [|? ? Hx Hl']; subst. cbn [length] in Hn.
    replace (j + Z.of_nat (S (length l)))%Z
      with (j + 1 + Z.of_nat (length l))%Z by lia.
    apply IH; [| apply add_within; [lia | exact Ha | exact Hx] | lia | lia].
    eapply Forall_impl; [|exact Hl']. intros y. apply within_mono. lia.
Qed.

Lemma In_firstn {A} (x : A) n l : In x (firstn n l) -> In x l.
Proof.
  revert l. induction n as [|n IH]; intros [|a l] H; cbn [firstn] in H;
    try contradiction.
  destruct H as [->|H]; [left; reflexivity | right; apply IH; exact H].
Qed.

Lemma In_skipn {A} (x : A) n l : In x (skipn n l) -> In x l.
Proof.
  revert l. induction n as [|n IH]; intros [|a l] H; cbn [skipn] in H;
    try contradiction; [exact H|]. right. apply IH. exact H.
Qed.

Lemma In_range lo hi i : In i (Arr.range lo hi) -> (lo <= i < hi)%Z.
Proof.
  unfold Arr.range. intros H. apply in_map_iff in H.
  destruct H as [k [<- Hk]]. apply in_seq in Hk. lia.
Qed.

(** The moving average over at most three bounded samples is bounded. *)
Lemma movingAverage_within data j :
  (0 <= j <= 2090)%Z -> Forall (within j) data ->
  Forall (within (j + 3)) (Arr.movingAverage data 3).
Proof.
  intros Hj Hd. unfold Arr.movingAverage. apply Forall_forall.
  intros y Hy. apply in_map_iff in Hy. destruct Hy as [i [<- Hi]].
  apply In_range in Hi. cbv zeta.
  set (start := Z.max 0 (i - 3 + 1)). set (n := (i + 1 - start)%Z).
  assert (Hn : (1 <= n <= 3)%Z) by (subst n start; lia).
  assert (Hs : Forall (within j) (Arr.slice data start (i + 1))).
  { apply Forall_forall. intros x Hx. unfold Arr.slice in Hx.
    apply In_firstn, In_skipn in Hx. rewrite Forall_forall in Hd. auto. }
  assert (Hl : (Z.of_nat (length (Arr.slice data start (i + 1))) <= 3)%Z).
  { unfold Arr.slice. fold n.
    pose proof (firstn_le_length (Z.to_nat n) (skipn (Z.to_nat start) data)).
    lia. }
  assert (Z0 : within j 0%float).
  { split; [reflexivity|]. change (units 0) with 0%Z.
    assert (0 < 2 ^ j)%Z by (apply Z.pow_pos_nonneg; lia). simpl Z.abs. lia. }
  pose proof (sum_within _ 0%float j Hs Z0 ltac:(lia) ltac:(lia)) as Hsum.
  fold (JS.sum (Arr.slice data start (i + 1))) in Hsum.
  apply (within_mono _ (j + 3)) in Hsum; [|lia].
  destruct Hsum as [Fs Bs].
  assert (T : (3 < 2 ^ 53)%Z) by reflexivity.
  destruct (of_Z_units n ltac:(lia)) as [Fn Un].
  assert (P : (0 < 2 ^ 1074)%Z) by reflexivity.
  destruct (div_le (JS.sum (Arr.slice data start (i + 1))) (JS.of_Z n) Fs Fn)
    as [Fq Bq].
  { rewrite Un. rewrite Z.abs_eq by nia. nia. }
  split; [exact Fq | lia].
Qed.

(* ================================================================== *)
(** * Numbers on the extended integer line *)
(* ================================================================== *)

Lemma overflow_pos : (0 < overflow)%Z.
Proof. reflexivity. Qed.

Lemma ext_finite x : JS.isFinite x = true -> ext x = units x.
Proof.
  rewrite isFinite_SF. unfold ext, units.
  destruct (Prim2SF x); try discriminate; reflexivity.
Qed.

Lemma ext_cases x :
  PrimFloat.is_nan x = false ->
  (JS.isFinite x = true /\ ext x = units x /\
   (Z.abs (units x) < overflow)%Z) \/
  (x = infinity /\ ext x = INF) \/
  (x = neg_infinity /\ ext x = (- INF)%Z).
Proof.
  intros N. destruct (number_cases x N) as [F|[->| ->]].
  - left. split; [exact F|]. split; [apply ext_finite; exact F|].
    apply units_valid. exact F.
  - right. left. split; reflexivity.
  - right. right. split; reflexivity.
Qed.

Lemma finite_vs_inf x :
  JS.isFinite x = true ->
  PrimFloat.leb x infinity = true /\ PrimFloat.ltb x infinity = true /\
  PrimFloat.leb infinity x = false /\ PrimFloat.ltb infinity x = false /\
  PrimFloat.leb neg_infinity x = true /\ PrimFloat.ltb neg_infinity x = true /\
  PrimFloat.leb x neg_infinity = false /\ PrimFloat.ltb x neg_infinity = false.
Proof.
  intros F. rewrite isFinite_SF in F. rewrite !leb_spec, !ltb_spec.
  destruct (Prim2SF x) as [s|s| |s m e]; try discriminate;
    destruct s; repeat split; reflexivity.
Qed.

Lemma leb_ext x y :
  PrimFloat.is_nan x = false -> PrimFloat.is_nan y = false ->
  PrimFloat.leb x y = (ext x <=? ext y)%Z.
Proof.
  intros Nx Ny. pose proof overflow_pos as O.
  destruct (ext_cases x Nx) as [[Fx [Ex Bx]]|[[-> Ex]|[-> Ex]]];
    destruct (ext_cases y Ny) as [[Fy [Ey By]]|[[-> Ey]|[-> Ey]]];
    rewrite ?Ex, ?Ey; unfold INF.
  - apply leb_units; assumption.
  - destruct (finite_vs_inf x Fx) as [-> _]. symmetry. apply Z.leb_le. lia.
  - destruct (finite_vs_inf x Fx) as [_ [_ [_ [_ [_ [_ [-> _]]]]]]].
    symmetry. apply Z.leb_gt. lia.
  - destruct (finite_vs_inf y Fy) as [_ [_ [-> _]]].
    symmetry. apply Z.leb_gt. lia.
  - symmetry. apply Z.leb_le. lia.
  - symmetry. apply Z.leb_gt. lia.
  - destruct (finite_vs_inf y Fy) as [_ [_ [_ [_ [-> _]]]]].
    symmetry. apply Z.leb_le. lia.
  - symmetry. apply Z.leb_le. lia.
  - symmetry. apply Z.leb_le. lia.
Qed.

Lemma ltb_ext x y :
  PrimFloat.is_nan x = false -> PrimFloat.is_nan y = false ->
  PrimFloat.ltb x y = (ext x <? ext y)%Z.
Proof.
  intros Nx Ny. pose proof overflow_pos as O.
  destruct (ext_cases x Nx) as [[Fx [Ex Bx]]|[[-> Ex]|[-> Ex]]];
    destruct (ext_cases y Ny) as [[Fy [Ey By]]|[[-> Ey]|[-> Ey]]];
    rewrite ?Ex, ?Ey; unfold INF.
  - apply ltb_units; assumption.
  - destruct (finite_vs_inf x Fx) as [_ [-> _]]. symmetry. apply Z.ltb_lt. lia.
  - destruct (finite_vs_inf x Fx) as [_ [_ [_ [_ [_ [_ [_ ->]]]]]]].
    symmetry. apply Z.ltb_ge. lia.
  - destruct (finite_vs_inf y Fy) as [_ [_ [_ [-> _]]]].
    symmetry. apply Z.ltb_ge. lia.
  - symmetry. apply Z.ltb_ge. lia.
  - symmetry. apply Z.ltb_ge. lia.
  - destruct (finite_vs_inf y Fy) as [_ [_ [_ [_ [_ [-> _]]]]]].
    symmetry. apply Z.ltb_lt. lia.
  - symmetry. apply Z.ltb_lt. lia.
  - symmetry. apply Z.ltb_ge. lia.
Qed.

Lemma max2_ext a b :
  PrimFloat.is_nan a = false -> PrimFloat.is_nan b = false ->
  PrimFloat.is_nan (JS.max2 a b) = false /\
  ext (JS.max2 a b) = Z.max (ext a) (ext b).
Proof.
  intros Na Nb. unfold JS.max2. rewrite Na, Nb. cbn [orb].
  rewrite (ltb_ext a b Na Nb), (ltb_ext b a Nb Na).
  destruct (Z.ltb_spec (ext a) (ext b)); [split; [exact Nb|lia]|].
  destruct (Z.ltb_spec (ext b) (ext a)); [split; [exact Na|lia]|].
  destruct (JS.signbit a); [split; [exact Nb|lia] | split; [exact Na|lia]].
Qed.

Lemma min2_ext a b :
  PrimFloat.is_nan a = false -> PrimFloat.is_nan b = false ->
  PrimFloat.is_nan (JS.min2 a b) = false /\
  ext (JS.min2 a b) = Z.min (ext a) (ext b).
Proof.
  intros Na Nb. unfold JS.min2. rewrite Na, Nb. cbn [orb].
  rewrite (ltb_ext a b Na Nb), (ltb_ext b a Nb Na).
  destruct (Z.ltb_spec (ext a) (ext b)); [split; [exact Na|lia]|].
  destruct (Z.ltb_spec (ext b) (ext a)); [split; [exact Nb|lia]|].
  destruct (JS.signbit a); [split; [exact Na|lia] | split; [exact Nb|lia]].
Qed.

(** ** Signs *)

Lemma not_nan_SF x : PrimFloat.is_nan x = false <-> Prim2SF x <> S754_nan.
Proof.
  split.
  - intros N E. apply is_nan_spec in E. congruence.
  - intros N. destruct (PrimFloat.is_nan x) eqn:E; [|reflexivity].
    apply is_nan_spec in E. contradiction.
Qed.

Lemma valid_finite_pos s m e :
  valid_binary (S754_finite s m e) = true ->
  (0 < Z.pos m * 2 ^ (e + 1074))%Z.
Proof.
  intros V. destruct (valid_finite_canonical _ _ _ V) as [C _].
  destruct (canonical_digits _ _ C) as [_ L].
  apply Z.mul_pos_pos; [lia | apply Z.pow_pos_nonneg; lia].
Qed.

(** ** [Math.round] between two integers *)

Lemma Math_round_units a b y :
  (Z.abs a < 2 ^ 53)%Z -> (Z.abs b < 2 ^ 53)%Z ->
  JS.isFinite y = true ->
  (a * 2 ^ 1074 <= units y <= b * 2 ^ 1074)%Z ->
  JS.isFinite (JS.Math_round y) = true /\
  (a * 2 ^ 1074 <= units (JS.Math_round y) <= b * 2 ^ 1074)%Z.
Proof.
  intros Ha Hb F [Hl Hu].
  assert (K : JS.Math_round y = y \/
              exists n, (a <= n <= b)%Z /\
                (JS.Math_round y = JS.of_Z n \/
                 (n = 0%Z /\ units (JS.Math_round y) = 0%Z /\
                  JS.isFinite (JS.Math_round y) = true))).
  { unfold units in Hl, Hu. pose proof F as F'. rewrite isFinite_SF in F'.
    pose proof (Prim2SF_valid y) as V. unfold JS.Math_round.
    destruct (Prim2SF y) as [s|s| |s m e]; try discriminate; [left; reflexivity|].
    destruct (Z.leb_spec 0 e) as [|Eneg]; [left; reflexivity|]. right.
    destruct (valid_finite_canonical _ _ _ V) as [C He].
    destruct (canonical_digits _ _ C) as [Hd Hle].
    assert (P : (0 < 2 ^ (e + 1074))%Z) by (apply Z.pow_pos_nonneg; lia).
    set (q := (2 ^ (- e))%Z).
    assert (Q : (0 < q)%Z) by (apply Z.pow_pos_nonneg; lia).
    assert (E1 : (2 ^ 1074 = q * 2 ^ (e + 1074))%Z).
    { unfold q. rewrite <- Z.pow_add_r by lia. f_equal. lia. }
    assert (E2 : (2 ^ (1 - e) = 2 * q)%Z).
    { unfold q. replace (1 - e)%Z with (1 + - e)%Z by lia.
      rewrite Z.pow_add_r by lia. reflexivity. }
    rewrite E2. cbn [ulps] in Hl, Hu. rewrite E1 in Hl, Hu.
    set (sm := if s then Z.neg m else Z.pos m).
    assert (Esm : cond_Zopp s (Z.pos m * 2 ^ (e + 1074))
                  = (sm * 2 ^ (e + 1074))%Z)
      by (subst sm; destruct s; cbn [cond_Zopp]; lia).
    rewrite Esm in Hl, Hu.
    rewrite Z.mul_assoc in Hl, Hu.
    apply Z.mul_le_mono_pos_r in Hl; [|exact P].
    apply Z.mul_le_mono_pos_r in Hu; [|exact P].
    set (n := ((2 * sm + q) / (2 * q))%Z).
    assert (Nl : (a <= n)%Z) by (apply Z.div_le_lower_bound; lia).
    assert (Nu : (n <= b)%Z).
    { assert (n < b + 1)%Z; [|lia]. apply Z.div_lt_upper_bound; lia. }
    exists n. split; [lia|].
    destruct (Z.eqb_spec n 0) as [N0|N0]; [|left; reflexivity].
    right. split; [exact N0|]. destruct s; split; reflexivity. }
  assert (T : (0 < 2 ^ 1074)%Z) by reflexivity.
  destruct K as [->|[n [Hn [->|[N0 [U0 F0]]]]]].
  - split; [exact F | split; assumption].
  - destruct (of_Z_units n ltac:(lia)) as [Fn Un]. split; [exact Fn|].
    rewrite Un. split; apply Z.mul_le_mono_nonneg_r; lia.
  - split; [exact F0|]. rewrite U0. subst n. split; lia.
Qed.

(** ** Array lengths as numbers *)

Lemma of_nat_units n :
  (Z.of_nat n < 2 ^ 53)%Z ->
  JS.isFinite (JS.of_nat n) = true /\
  units (JS.of_nat n) = (Z.of_nat n * 2 ^ 1074)%Z.
Proof. intros H. apply of_Z_units. lia. Qed.

(* ================================================================== *)
(** * Quotients between representable bounds *)
(* ================================================================== *)

Lemma RN_multiple i k :
  (0 <= i)%Z -> (Z.abs k < 2 ^ 53)%Z -> RN (k * 2 ^ i) = (k * 2 ^ i)%Z.
Proof.
  intros Hi Hk.
  assert (T : (0 < 2 ^ i)%Z) by (apply Z.pow_pos_nonneg; lia).
  assert (M : forall j, (0 < j < 2 ^ 53)%Z ->
              RNmag 0 (j * 2 ^ i) = (j * 2 ^ i)%Z).
  { intros j Hj. unfold RNmag. rewrite Z.sub_0_r.
    rewrite Zdigits2_mul_pow by lia.
    pose proof (Zdigits2_upper j 53 ltac:(lia) ltac:(lia)) as Hd.
    destruct (Zdigits2_bounds j ltac:(lia)) as [_ D].
    set (K := Z.max 0 (Zdigits2 j + i - 53)).
    assert (HK : (0 <= K <= i)%Z) by (subst K; lia).
    replace (j * 2 ^ i)%Z with (j * 2 ^ (i - K) * 2 ^ K)%Z at 1.
    - rewrite rne_exact by lia. rewrite <- Z.mul_assoc, <- Z.pow_add_r by lia.
      f_equal. f_equal. lia.
    - rewrite <- Z.mul_assoc, <- Z.pow_add_r by lia. f_equal. f_equal. lia. }
  destruct (Z.lt_trichotomy k 0) as [N|[->|P]].
  - rewrite RN_neg by lia.
    replace (- (k * 2 ^ i))%Z with (- k * 2 ^ i)%Z by lia.
    rewrite M by lia. lia.
  - reflexivity.
  - rewrite RN_pos by lia. apply M. lia.
Qed.

(** The quotient of two positive floats on its grid: with [G = 2^j] the
    spacing of the floats around the exact quotient [Q = X * 2^1074 / Y],
    the division returns [F * G] or [(F + 1) * G], where
    [F * G <= Q < (F + 1) * G], and [F * G] when the quotient is exact. *)
Lemma SFdiv_grid mx ex my ey :
  valid_binary (S754_finite false mx ex) = true ->
  valid_binary (S754_finite false my ey) = true ->
  let X := (Z.pos mx * 2 ^ (ex + 1074))%Z in
  let Y := (Z.pos my * 2 ^ (ey + 1074))%Z in
  let r := SFdiv prec emax (S754_finite false mx ex) (S754_finite false my ey) in
  exists F j m2,
    (0 <= F)%Z /\ (0 <= j)%Z /\
    (F * 2 ^ j * Y <= X * 2 ^ 1074)%Z /\
    (X * 2 ^ 1074 < (F + 1) * 2 ^ j * Y)%Z /\
    (j = 0%Z \/ 2 ^ 52 <= F)%Z /\
    (m2 = F \/ m2 = F + 1)%Z /\
    ((F * 2 ^ j * Y = X * 2 ^ 1074)%Z -> m2 = F) /\
    ((m2 * 2 ^ j < overflow)%Z ->
     SFfinite r = true /\ ulps r = (m2 * 2 ^ j)%Z) /\
    ((overflow <= m2 * 2 ^ j)%Z -> r = S754_infinity false).
Proof.
  intros Vx Vy X Y r.
  assert (PU : (0 < 2 ^ 1074)%Z) by reflexivity.
  destruct (valid_finite_canonical _ _ _ Vx) as [Cx Ex].
  destruct (valid_finite_canonical _ _ _ Vy) as [Cy Ey].
  destruct (canonical_digits _ _ Cx) as [Dx Lx].
  destruct (canonical_digits _ _ Cy) as [Dy Ly].
  assert (Pb : (0 < 2 ^ (ex + 1074))%Z) by (apply Z.pow_pos_nonneg; lia).
  assert (Pc : (0 < 2 ^ (ey + 1074))%Z) by (apply Z.pow_pos_nonneg; lia).
  subst r. cbn [SFdiv xorb].
  destruct (SFdiv_core_spec _ _ _ _ Cx Cy)
    as [q [e' [l [E [Hs [Hq0 [[Hlo Hhi] [Hex [Hal Hnz]]]]]]]]].
  rewrite E.
  destruct (binary_round_aux_cases false q e' l Hq0 Hal Hnz) as [Hm2 Hres].
  cbv zeta in Hm2, Hres.
  set (k := (fexp prec emax (Zdigits2 q + e') - e')%Z) in *.
  set (m2 := round_nearest_even
               (shr_m (fst (shr_fexp prec emax q e' l)))
               (loc_of_shr_record (fst (shr_fexp prec emax q e' l)))) in *.
  set (s := (ex - ey - e')%Z) in *.
  assert (Hk : (0 <= k)%Z) by (subst k; lia).
  assert (Ha : (0 <= e' + k + 1074)%Z) by (subst k; rewrite fexp_eq; lia).
  set (j := (e' + k + 1074)%Z) in *.
  assert (Ps : (0 < 2 ^ s)%Z) by (apply Z.pow_pos_nonneg; lia).
  assert (Pk : (0 < 2 ^ k)%Z) by (apply Z.pow_pos_nonneg; lia).
  assert (Pa : (0 < 2 ^ j)%Z) by (apply Z.pow_pos_nonneg; lia).
  set (F := (q / 2 ^ k)%Z) in *.
  assert (HF : (0 <= F)%Z) by (apply Z.div_pos; lia).
  assert (HFq : (F * 2 ^ k <= q)%Z)
    by (subst F; rewrite Z.mul_comm; apply Z.mul_div_le; lia).
  assert (HFq' : (q < (F + 1) * 2 ^ k)%Z).
  { subst F. pose proof (Z.div_mod q (2 ^ k) ltac:(lia)) as DM.
    pose proof (Z.mod_pos_bound q (2 ^ k) Pk) as MB. nia. }
  assert (EP : (2 ^ s * 2 ^ j * 2 ^ (ey + 1074)
                = 2 ^ (ex + 1074) * 2 ^ k * 2 ^ 1074)%Z).
  { rewrite <- !Z.pow_add_r by lia. f_equal. subst s j. lia. }
  (* the exact quotient between the two grid points *)
  assert (EX : (X * 2 ^ 1074 * 2 ^ k
                = Z.pos mx * 2 ^ s * (2 ^ j * 2 ^ (ey + 1074)))%Z).
  { subst X. replace (Z.pos mx * 2 ^ s * (2 ^ j * 2 ^ (ey + 1074)))%Z
      with (Z.pos mx * (2 ^ s * 2 ^ j * 2 ^ (ey + 1074)))%Z by ring.
    rewrite EP. ring. }
  assert (EY : forall n, (n * 2 ^ j * Y * 2 ^ k
                          = n * 2 ^ k * Z.pos my * (2 ^ j * 2 ^ (ey + 1074)))%Z).
  { intros n. subst Y. ring. }
  assert (PP : (0 < 2 ^ j * 2 ^ (ey + 1074))%Z) by (apply Z.mul_pos_pos; lia).
  assert (A : (F * 2 ^ j * Y <= X * 2 ^ 1074)%Z).
  { apply (Z.mul_le_mono_pos_r _ _ (2 ^ k) Pk). rewrite EX, EY.
    apply Z.mul_le_mono_nonneg_r; [lia|].
    apply Z.le_trans with (q * Z.pos my)%Z; [|exact Hlo].
    apply Z.mul_le_mono_nonneg_r; lia. }
  assert (B : (X * 2 ^ 1074 < (F + 1) * 2 ^ j * Y)%Z).
  { apply (Z.mul_lt_mono_pos_r (2 ^ k) _ _ Pk). rewrite EX, EY.
    apply Z.mul_lt_mono_pos_r; [exact PP|].
    apply Z.lt_le_trans with ((q + 1) * Z.pos my)%Z; [exact Hhi|].
    apply Z.mul_le_mono_nonneg_r; lia. }
  exists F, j, m2.
  split; [exact HF|]. split; [exact Ha|]. split; [exact A|]. split; [exact B|].
  split.
  { (* a normal quotient has a full mantissa *)
    destruct (Z.eq_dec j 0) as [J0|J0]; [left; exact J0 | right].
    assert (Ek : k = (Zdigits2 q - 53)%Z).
    { subst j k. rewrite fexp_eq in *. lia. }
    assert (Qp : (0 < q)%Z).
    { destruct (Z.eq_dec q 0) as [Q0|Q0]; [|lia].
      rewrite Q0 in Ek. change (Zdigits2 0) with 0%Z in Ek. lia. }
    destruct (Zdigits2_div q k Qp ltac:(lia)) as [Fp Fd]. fold F in Fp, Fd.
    destruct (Zdigits2_bounds F Fp) as [[Lo _] _].
    replace (Zdigits2 F - 1)%Z with 52%Z in Lo by lia. exact Lo. }
  split; [exact Hm2|]. split.
  { intros Eq.
    assert (E1 : (F * 2 ^ k * Z.pos my = q * Z.pos my)%Z).
    { assert (L1 : (F * 2 ^ k * Z.pos my <= q * Z.pos my)%Z)
        by (apply Z.mul_le_mono_nonneg_r; lia).
      assert (L2 : (F * 2 ^ j * Y * 2 ^ k = X * 2 ^ 1074 * 2 ^ k)%Z)
        by (rewrite Eq; reflexivity).
      rewrite EX, EY in L2.
      apply Z.mul_cancel_r in L2; [|lia]. lia. }
    assert (Eq1 : (F * 2 ^ k = q)%Z).
    { apply (Z.mul_cancel_r _ _ (Z.pos my)); [lia | exact E1]. }
    assert (Eq2 : (q * Z.pos my = Z.pos mx * 2 ^ s)%Z).
    { assert (L2 : (F * 2 ^ j * Y * 2 ^ k = X * 2 ^ 1074 * 2 ^ k)%Z)
        by (rewrite Eq; reflexivity).
      rewrite EX, EY in L2. apply Z.mul_cancel_r in L2; [|lia]. lia. }
    pose proof (Hex Eq2) as El. subst l.
    assert (Qp : (0 < q)%Z).
    { destruct (Z.eq_dec q 0) as [Q0|Q0]; [|lia].
      rewrite Q0 in Eq2. assert (0 < Z.pos mx * 2 ^ s)%Z
        by (apply Z.mul_pos_pos; lia). lia. }
    destruct (shr_fexp_rne q e' Qp) as [_ Hr].
    replace (Z.max 0 (fexp prec emax (Zdigits2 q + e') - e')) with k in Hr
      by (subst k; lia).
    fold m2 in Hr. rewrite Hr, <- Eq1, rne_exact by lia. reflexivity. }
  assert (Hm0 : (0 <= m2)%Z) by lia.
  destruct Hres as [[Z0 R]|[m3 [e3 [Hv [Hle3 [Hc R]]]]]]; rewrite R.
  - rewrite Z0. split.
    + intros _. split; reflexivity.
    + intros Ov. pose proof overflow_pos. lia.
  - assert (E3 : (Z.pos m3 * 2 ^ (e3 + 1074) = m2 * 2 ^ j)%Z).
    { rewrite <- Hv, <- Z.mul_assoc, <- Z.pow_add_r by lia.
      f_equal. f_equal. subst j. lia. }
    change (emax - prec)%Z with 971%Z.
    destruct (Z.leb_spec e3 971) as [Le|Gt].
    + pose proof (canonical_bounds _ _ Hc Le) as Bd. split.
      * intros _. split; [reflexivity|]. cbn [ulps cond_Zopp]. exact E3.
      * intros Ov. lia.
    + pose proof (canonical_overflow _ _ Hc Gt) as Ov. split.
      * intros Lt. lia.
      * intros _. reflexivity.
Qed.

(** The grid point below a representable number that is below the next
    grid point. *)
Lemma grid_floor T F j :
  RN T = T -> (0 <= T)%Z -> (0 <= F)%Z -> (0 <= j)%Z ->
  (j = 0 \/ 2 ^ 52 <= F)%Z ->
  (T < (F + 1) * 2 ^ j)%Z -> (T <= F * 2 ^ j)%Z.
Proof.
  intros RT HT HF Hj N Lt.
  assert (Pj : (0 < 2 ^ j)%Z) by (apply Z.pow_pos_nonneg; lia).
  destruct N as [-> | N]; [change (2 ^ 0)%Z with 1%Z in *; lia|].
  destruct (Z_lt_le_dec T (2 ^ (52 + j))) as [Small|Big].
  - rewrite Z.pow_add_r in Small by lia.
    apply Z.le_trans with (2 ^ 52 * 2 ^ j)%Z; [lia|].
    apply Z.mul_le_mono_nonneg_r; lia.
  - destruct (RN_fixed_multiple T j RT Hj ltac:(lia)) as [n ->].
    apply Z.mul_lt_mono_pos_r in Lt; [|exact Pj].
    apply Z.mul_le_mono_nonneg_r; lia.
Qed.

(** The grid point above a representable number that is above a grid
    point. *)
Lemma grid_ceil T F j :
  RN T = T -> (0 <= F)%Z -> (0 <= j)%Z ->
  (j = 0 \/ 2 ^ 52 <= F)%Z ->
  (F * 2 ^ j < T)%Z -> ((F + 1) * 2 ^ j <= T)%Z.
Proof.
  intros RT HF Hj N Lt.
  assert (Pj : (0 < 2 ^ j)%Z) by (apply Z.pow_pos_nonneg; lia).
  destruct N as [-> | N]; [change (2 ^ 0)%Z with 1%Z in *; lia|].
  assert (Big : (2 ^ (52 + j) <= Z.abs T)%Z).
  { rewrite Z.pow_add_r by lia.
    assert (2 ^ 52 * 2 ^ j <= F * 2 ^ j)%Z
      by (apply Z.mul_le_mono_nonneg_r; lia). lia. }
  destruct (RN_fixed_multiple T j RT Hj Big) as [n ->].
  apply Z.mul_lt_mono_pos_r in Lt; [|exact Pj].
  apply Z.mul_le_mono_nonneg_r; lia.
Qed.

(** A quotient of positive floats is not below a float that is not above
    the exact quotient, and not above a float that is not below it. *)
Lemma div_between x y T :
  JS.isFinite x = true -> JS.isFinite y = true ->
  (0 < units x)%Z -> (0 < units y)%Z ->
  RN T = T -> (0 <= T < overflow)%Z ->
  ((T * units y <= units x * 2 ^ 1074)%Z ->
   PrimFloat.is_nan (x / y) = false /\ (T <= ext (x / y))%Z) /\
  ((units x * 2 ^ 1074 <= T * units y)%Z ->
   JS.isFinite (x / y) = true /\ (0 <= units (x / y) <= T)%Z).
Proof.
  intros Fx Fy Px Py RT [HT OT]. pose proof overflow_pos as O.
  pose proof (Prim2SF_valid x) as Vx. pose proof (Prim2SF_valid y) as Vy.
  rewrite not_nan_SF. rewrite !isFinite_SF in *. unfold ext, units in *.
  rewrite div_spec. unfold SF64div.
  destruct (Prim2SF x) as [sx|sx| |sx mx ex]; try discriminate.
  destruct (Prim2SF y) as [sy|sy| |sy my ey]; try discriminate.
  pose proof (valid_finite_pos _ _ _ Vx) as Xp.
  pose proof (valid_finite_pos _ _ _ Vy) as Yp.
  destruct sx; [cbn [ulps cond_Zopp] in Px; lia|].
  destruct sy; [cbn [ulps cond_Zopp] in Py; lia|].
  cbn [ulps cond_Zopp] in *.
  destruct (SFdiv_grid mx ex my ey Vx Vy)
    as [F [j [m2 [HF [Hj [A [B [N [Hm2 [Exact [Fin Inf]]]]]]]]]]].
  cbv zeta in *.
  set (X := (Z.pos mx * 2 ^ (ex + 1074))%Z) in *.
  set (Y := (Z.pos my * 2 ^ (ey + 1074))%Z) in *.
  set (r := SFdiv prec emax (S754_finite false mx ex)
                  (S754_finite false my ey)) in *.
  assert (Pj : (0 < 2 ^ j)%Z) by (apply Z.pow_pos_nonneg; lia).
  split.
  - intros Low.
    assert (Lt : (T < (F + 1) * 2 ^ j)%Z).
    { apply (Z.mul_lt_mono_pos_r Y); [exact Yp | lia]. }
    pose proof (grid_floor T F j RT HT HF Hj N Lt) as Le.
    assert (M : (F * 2 ^ j <= m2 * 2 ^ j)%Z)
      by (apply Z.mul_le_mono_nonneg_r; lia).
    destruct (Z_lt_le_dec (m2 * 2 ^ j) overflow) as [Lo|Hi].
    + destruct (Fin Lo) as [Fr Ur].
      split; [intros E; rewrite E in Fr; discriminate|].
      destruct r; try discriminate; cbn [ulps] in *; lia.
    + rewrite (Inf Hi). split; [discriminate|]. cbn [cond_Zopp]. unfold INF. lia.
  - intros High.
    assert (Le : (F * 2 ^ j <= T)%Z).
    { apply (Z.mul_le_mono_pos_r _ _ Y); [exact Yp | lia]. }
    assert (M : (m2 * 2 ^ j <= T)%Z).
    { destruct (Z.eq_dec (F * 2 ^ j) T) as [Eq|Ne].
      - rewrite Exact; [lia|]. rewrite Eq in *. lia.
      - pose proof (grid_ceil T F j RT HF Hj N ltac:(lia)) as C.
        apply Z.le_trans with ((F + 1) * 2 ^ j)%Z; [|exact C].
        apply Z.mul_le_mono_nonneg_r; lia. }
    destruct (Fin ltac:(lia)) as [Fr Ur].
    split; [exact Fr|]. rewrite Ur. split; [|exact M].
    apply Z.mul_nonneg_nonneg; lia.
Qed.

(** ** Square roots *)

(** The integer square root that [SFsqrt] rounds: its exponent is half of the
    operand's or less, and it has a full mantissa above the subnormal
    range. *)
Lemma SFsqrt_core_spec m e :
  canonical m e -> (-1074 <= e)%Z ->
  exists q e' l,
    SFsqrt_core_binary prec emax m e = (q, e', l) /\
    (-1074 <= e')%Z /\ (2 * e' <= e)%Z /\
    (0 < q)%Z /\ (q * q <= m * 2 ^ (e - 2 * e'))%Z /\
    (e' <= fexp prec emax (Zdigits2 q + e'))%Z.
Proof.
  intros [Pm Cm] He. unfold SFsqrt_core_binary.
  set (d := Zdigits2 m).
  set (e' := Z.min (fexp prec emax (Z.div2 (d + e + 1))) (Z.div2 e)).
  assert (D2 : forall a, (2 * Z.div2 a <= a < 2 * Z.div2 a + 2)%Z).
  { intros a. rewrite Z.div2_div.
    pose proof (Z.div_mod a 2 ltac:(lia)) as DM.
    pose proof (Z.mod_pos_bound a 2 ltac:(lia)) as MB. lia. }
  pose proof (D2 e) as De. pose proof (D2 (d + e + 1)%Z) as Dd.
  assert (Lo : (-1074 <= e')%Z).
  { subst e'. rewrite fexp_eq. lia. }
  assert (Hi : (2 * e' <= e)%Z) by (subst e'; lia).
  assert (Hf : (e' <= -1074 \/ 2 * (e' + 53) <= d + e + 1)%Z).
  { subst e'. rewrite fexp_eq. lia. }
  change (Z.pos 2 * e')%Z with (2 * e')%Z.
  change (d + e + Z.pos 1)%Z with (d + e + 1)%Z.
  set (s := (e - 2 * e')%Z).
  assert (Hs : (0 <= s)%Z) by (subst s; lia).
  set (m' := match s with
             | Z.pos _ => Z.shiftl m s
             | 0%Z => m
             | Z.neg _ => 0%Z
             end).
  assert (Em : m' = (m * 2 ^ s)%Z).
  { subst m'. destruct s as [|p|p] eqn:Es.
    - change (2 ^ 0)%Z with 1%Z. lia.
    - rewrite Z.shiftl_mul_pow2 by lia. reflexivity.
    - lia. }
  clearbody m'.
  assert (Ps : (0 < 2 ^ s)%Z) by (apply Z.pow_pos_nonneg; lia).
  assert (Pm' : (0 < m')%Z) by (rewrite Em; apply Z.mul_pos_pos; lia).
  pose proof (Z.sqrtrem_spec m' ltac:(lia)) as Sq.
  destruct (Z.sqrtrem m') as [q r].
  destruct Sq as [Eq [R0 R1]].
  assert (Pq : (0 < q)%Z) by nia.
  eexists q, e', _. split; [reflexivity|].
  split; [exact Lo|]. split; [exact Hi|]. split; [exact Pq|].
  split; [fold s; rewrite <- Em; nia|].
  rewrite fexp_eq.
  destruct Hf as [Hf|Hf]; [lia|].
  assert (Big : (2 ^ 52 <= q)%Z).
  { destruct (Z_lt_le_dec q (2 ^ 52)) as [Small|]; [exfalso | assumption].
    destruct (Zdigits2_bounds m Pm) as [[Lm _] _]. fold d in Lm.
    assert (L104 : (2 ^ 104 <= m')%Z).
    { rewrite Em.
      apply Z.le_trans with (2 ^ (d - 1) * 2 ^ s)%Z.
      - rewrite <- Z.pow_add_r by (subst d; pose proof (Zdigits2_bounds m Pm); lia).
        apply Z.pow_le_mono_r; lia.
      - apply Z.mul_le_mono_nonneg_r; lia. }
    assert (Sq : ((q + 1) * (q + 1) <= 2 ^ 52 * 2 ^ 52)%Z)
      by (apply Z.mul_le_mono_nonneg; lia).
    change (2 ^ 52 * 2 ^ 52)%Z with (2 ^ 104)%Z in Sq. lia. }
  pose proof (Zdigits2_lower q 53 Pq Big). lia.
Qed.

(** The square root of a positive float below [(2^t)^2] is a finite number
    not above [2^t]. *)
Lemma SFsqrt_below mx ex t :
  valid_binary (S754_finite false mx ex) = true ->
  (0 <= t <= 2097)%Z ->
  (Z.pos mx * 2 ^ (ex + 1074) * 2 ^ 1074 < 2 ^ t * 2 ^ t)%Z ->
  let r := SFsqrt prec emax (S754_finite false mx ex) in
  SFfinite r = true /\ (0 <= ulps r <= 2 ^ t)%Z.
Proof.
  intros Vx Ht Hx r.
  destruct (valid_finite_canonical _ _ _ Vx) as [Cx Ex].
  destruct (canonical_digits _ _ Cx) as [Dx Lx].
  subst r. cbn [SFsqrt].
  destruct (SFsqrt_core_spec _ _ Cx Lx)
    as [q [e' [l [E [Lo [Hi [Pq [Sq Hal]]]]]]]].
  rewrite E.
  destruct (binary_round_aux_cases false q e' l ltac:(lia) Hal ltac:(lia))
    as [Hm2 Hres].
  cbv zeta in Hm2, Hres.
  set (k := (fexp prec emax (Zdigits2 q + e') - e')%Z) in *.
  set (m2 := round_nearest_even
               (shr_m (fst (shr_fexp prec emax q e' l)))
               (loc_of_shr_record (fst (shr_fexp prec emax q e' l)))) in *.
  set (s := (ex - 2 * e')%Z) in *.
  assert (Hk : (0 <= k)%Z) by (subst k; lia).
  assert (Ha : (0 <= e' + k + 1074)%Z) by (subst k; rewrite fexp_eq; lia).
  set (j := (e' + k + 1074)%Z) in *.
  assert (Pt : (0 < 2 ^ t)%Z) by (apply Z.pow_pos_nonneg; lia).
  assert (Ps : (0 < 2 ^ s)%Z) by (apply Z.pow_pos_nonneg; subst s; lia).
  assert (Pk : (0 < 2 ^ k)%Z) by (apply Z.pow_pos_nonneg; lia).
  assert (Pj : (0 < 2 ^ j)%Z) by (apply Z.pow_pos_nonneg; lia).
  assert (Pe : (0 < 2 ^ (e' + 1074))%Z) by (apply Z.pow_pos_nonneg; lia).
  set (F := (q / 2 ^ k)%Z) in *.
  assert (HF : (0 <= F)%Z) by (apply Z.div_pos; lia).
  assert (HFq : (F * 2 ^ k <= q)%Z)
    by (subst F; rewrite Z.mul_comm; apply Z.mul_div_le; lia).
  assert (Ej : (2 ^ j = 2 ^ k * 2 ^ (e' + 1074))%Z).
  { rewrite <- Z.pow_add_r by lia. f_equal. subst j. lia. }
  assert (EX : (Z.pos mx * 2 ^ (ex + 1074) * 2 ^ 1074
                = Z.pos mx * 2 ^ s * (2 ^ (e' + 1074) * 2 ^ (e' + 1074)))%Z).
  { rewrite <- !Z.mul_assoc. f_equal.
    rewrite <- !Z.pow_add_r by (subst s; lia). f_equal. subst s. lia. }
  assert (Below : (F * 2 ^ j < 2 ^ t)%Z).
  { destruct (Z_lt_le_dec (F * 2 ^ j) (2 ^ t)) as [|Ge]; [assumption | exfalso].
    assert (G2 : (2 ^ t * 2 ^ t <= F * 2 ^ j * (F * 2 ^ j))%Z)
      by (apply Z.mul_le_mono_nonneg; lia).
    assert (L2 : (F * 2 ^ j * (F * 2 ^ j)
                  <= Z.pos mx * 2 ^ s * (2 ^ (e' + 1074) * 2 ^ (e' + 1074)))%Z).
    { rewrite Ej.
      replace (F * (2 ^ k * 2 ^ (e' + 1074)) * (F * (2 ^ k * 2 ^ (e' + 1074))))%Z
        with (F * 2 ^ k * (F * 2 ^ k) * (2 ^ (e' + 1074) * 2 ^ (e' + 1074)))%Z
        by ring.
      apply Z.mul_le_mono_nonneg_r; [apply Z.mul_nonneg_nonneg; lia|].
      apply Z.le_trans with (q * q)%Z; [|exact Sq].
      apply Z.mul_le_mono_nonneg; lia. }
    lia. }
  assert (N : (j = 0 \/ 2 ^ 52 <= F)%Z).
  { destruct (Z.eq_dec j 0) as [J0|J0]; [left; exact J0 | right].
    assert (Ek : k = (Zdigits2 q - 53)%Z).
    { subst j k. rewrite fexp_eq in *. lia. }
    destruct (Zdigits2_div q k Pq ltac:(lia)) as [Fp Fd]. fold F in Fp, Fd.
    destruct (Zdigits2_bounds F Fp) as [[L _] _].
    replace (Zdigits2 F - 1)%Z with 52%Z in L by lia. exact L. }
  assert (Above : ((F + 1) * 2 ^ j <= 2 ^ t)%Z).
  { destruct (Z_le_gt_dec j t) as [Le|Gt].
    - replace t with ((t - j) + j)%Z in Below |- * by lia.
      rewrite Z.pow_add_r in Below |- * by lia.
      apply Z.mul_lt_mono_pos_r in Below; [|exact Pj].
      apply Z.mul_le_mono_nonneg_r; lia.
    - assert (Lt : (2 ^ t < 2 ^ j)%Z) by (apply Z.pow_lt_mono_r; lia).
      destruct N as [J0|Big]; [lia|].
      assert (2 ^ 52 * 2 ^ j <= F * 2 ^ j)%Z
        by (apply Z.mul_le_mono_nonneg_r; lia).
      lia. }
  assert (M : (0 <= m2 * 2 ^ j <= 2 ^ t)%Z).
  { split; [apply Z.mul_nonneg_nonneg; lia|].
    apply Z.le_trans with ((F + 1) * 2 ^ j)%Z; [|exact Above].
    apply Z.mul_le_mono_nonneg_r; lia. }
  assert (Ot : (2 ^ t < overflow)%Z)
    by (unfold overflow; apply Z.pow_lt_mono_r; lia).
  destruct Hres as [[Z0 R]|[m3 [e3 [Hv [Hle3 [Hc R]]]]]]; rewrite R.
  - split; [reflexivity|]. cbn [ulps]. lia.
  - assert (E3 : (Z.pos m3 * 2 ^ (e3 + 1074) = m2 * 2 ^ j)%Z).
    { rewrite <- Hv, <- Z.mul_assoc, <- Z.pow_add_r by lia.
      f_equal. f_equal. subst j. lia. }
    change (emax - prec)%Z with 971%Z.
    destruct (Z.leb_spec e3 971) as [Le|Gt].
    + split; [reflexivity|]. cbn [ulps cond_Zopp]. rewrite E3. exact M.
    + pose proof (canonical_overflow _ _ Hc Gt) as Ov. lia.
Qed.

Lemma sqrt_below x t :
  JS.isFinite x = true -> (0 <= units x)%Z -> (0 <= t <= 2097)%Z ->
  (units x * 2 ^ 1074 < 2 ^ t * 2 ^ t)%Z ->
  JS.isFinite (JS.Math_sqrt x) = true /\
  (0 <= units (JS.Math_sqrt x) <= 2 ^ t)%Z.
Proof.
  intros Fx Px Ht Hx. pose proof (Prim2SF_valid x) as Vx.
  assert (Pt : (0 < 2 ^ t)%Z) by (apply Z.pow_pos_nonneg; lia).
  rewrite !isFinite_SF in *. unfold units, JS.Math_sqrt in *.
  rewrite sqrt_spec. unfold SF64sqrt.
  destruct (Prim2SF x) as [sx|sx| |sx mx ex]; try discriminate.
  - cbn [SFsqrt SFfinite ulps]. split; [reflexivity | lia].
  - pose proof (valid_finite_pos _ _ _ Vx) as Xp.
    destruct sx; [cbn [ulps cond_Zopp] in Px; lia|].
    cbn [ulps cond_Zopp] in Hx.
    apply SFsqrt_below; assumption.
Qed.

(** ** The deviation of equal intervals *)

(** Two finite nonzero numbers of the same value are the same float. *)
Lemma units_inj x y :
  JS.isFinite x = true -> JS.isFinite y = true ->
  units x = units y -> units x <> 0%Z -> x = y.
Proof.
  intros Fx Fy E N.
  pose proof (Prim2SF_valid x) as Vx. pose proof (Prim2SF_valid y) as Vy.
  rewrite isFinite_SF in Fx, Fy. unfold units in *. apply Prim2SF_inj.
  destruct (Prim2SF x) as [sx|sx| |sx mx ex]; try discriminate;
    [cbn [ulps] in N; congruence|].
  destruct (Prim2SF y) as [sy|sy| |sy my ey]; try discriminate.
  - cbn [ulps] in E, N. congruence.
  - destruct (valid_finite_canonical _ _ _ Vx) as [Cx _].
    destruct (valid_finite_canonical _ _ _ Vy) as [Cy _].
    pose proof (valid_finite_pos _ _ _ Vx) as Px.
    pose proof (valid_finite_pos _ _ _ Vy) as Py.
    destruct (canonical_digits _ _ Cx) as [_ Lx].
    cbn [ulps] in E.
    assert (S : sx = sy).
    { destruct sx, sy; cbn [cond_Zopp] in E; try reflexivity; lia. }
    subst sy.
    assert (E' : (Z.pos mx * 2 ^ (ex + 1074)
                  = Z.pos my * 2 ^ (ey + 1074))%Z)
      by (destruct sx; cbn [cond_Zopp] in E; lia).
    destruct (Z.lt_trichotomy ex ey) as [L|[Eq|G]].
    + pose proof (canonical_exponent_lt _ _ _ _ Cx Cy L). lia.
    + subst ey.
      assert (P : (0 < 2 ^ (ex + 1074))%Z) by (apply Z.pow_pos_nonneg; lia).
      apply Z.mul_cancel_r in E'; [|lia].
      injection E' as ->. reflexivity.
    + pose proof (canonical_exponent_lt _ _ _ _ Cy Cx ltac:(lia)). lia.
Qed.

(** One more term of a running sum of equal positive terms [d <= 2^14]:
    each addition errs by at most half a unit of the last place of a number
    below [2^24]. *)
Lemma add_equal_term d acc k :
  JS.isFinite d = true -> (0 < units d <= 2 ^ 1088)%Z ->
  JS.isFinite acc = true -> (0 <= k <= 511)%Z ->
  (Z.abs (units acc - k * units d) <= k * 2 ^ 1044)%Z ->
  (0 <= units acc)%Z ->
  JS.isFinite (acc + d) = true /\
  (Z.abs (units (acc + d) - (k + 1) * units d) <= (k + 1) * 2 ^ 1044)%Z /\
  (units d <= units (acc + d))%Z.
Proof.
  intros Fd Hd Fa Hk Ha Pa.
  pose proof (add_returns acc d Fa Fd) as R.
  set (A := units acc) in *. set (D := units d) in *.
  assert (KD : (0 <= k * D <= 511 * 2 ^ 1088)%Z).
  { split; [apply Z.mul_nonneg_nonneg; lia|].
    apply Z.mul_le_mono_nonneg; lia. }
  assert (X0 : (0 <= A + D)%Z) by lia.
  assert (X1 : (A + D < 2 ^ 1098)%Z) by lia.
  pose proof (RN_error (A + D) 1045 ltac:(lia)
                ltac:(change (53 + 1045)%Z with 1098%Z; lia)) as Er.
  pose proof (RN_bound (A + D) 1098 ltac:(lia) ltac:(lia)) as Bd.
  destruct (returns_bounded _ _ 1098 R ltac:(lia) Bd) as [Fs Us].
  split; [exact Fs|]. rewrite Us.
  change (2 ^ 1045)%Z with (2 * 2 ^ 1044)%Z in Er.
  split; [lia|].
  pose proof (RN_mono D (A + D) ltac:(lia)) as M.
  destruct (units_valid d Fd) as [RD _]. fold D in RD. rewrite RD in M.
  exact M.
Qed.

Lemma sum_repeat_error d n :
  JS.isFinite d = true -> (0 < units d <= 2 ^ 1088)%Z ->
  forall acc k,
    JS.isFinite acc = true ->
    (0 <= k)%Z -> (k + Z.of_nat n <= 512)%Z ->
    (Z.abs (units acc - k * units d) <= k * 2 ^ 1044)%Z ->
    (0 <= units acc)%Z -> (0 < k -> units d <= units acc)%Z ->
    let s := fold_left PrimFloat.add (repeat d n) acc in
    JS.isFinite s = true /\
    (Z.abs (units s - (k + Z.of_nat n) * units d)
     <= (k + Z.of_nat n) * 2 ^ 1044)%Z /\
    (0 < k + Z.of_nat n -> units d <= units s)%Z.
Proof.
  intros Fd Hd. induction n as [|n IH]; intros acc k Fa Hk Hn Ha Pa La s.
  - subst s. cbn [repeat fold_left].
    replace (k + Z.of_nat 0)%Z with k by lia.
    split; [exact Fa|]. split; assumption.
  - subst s. cbn [repeat fold_left].
    destruct (add_equal_term d acc k Fd Hd Fa ltac:(lia) Ha Pa)
      as [Fs [Es Ls]].
    replace (k + Z.of_nat (S n))%Z with (k + 1 + Z.of_nat n)%Z by lia.
    apply IH; try assumption; lia.
Qed.

(** The computed mean of at most 512 equal intervals is the interval up to
    [2^-28]. *)
Lemma mean_repeat_error d n :
  JS.isFinite d = true -> (0 < units d <= 2 ^ 1088)%Z ->
  (0 < n <= 512)%nat ->
  JS.isFinite (Arr.mean (repeat d n)) = true /\
  (Z.abs (units (Arr.mean (repeat d n)) - units d) <= 2 ^ 1046)%Z.
Proof.
  intros Fd Hd Hn. unfold Arr.mean, JS.sum. rewrite repeat_length.
  destruct (sum_repeat_error d n Fd Hd 0%float 0%Z eq_refl ltac:(lia)
              ltac:(lia) ltac:(change (units 0) with 0%Z; lia)
              ltac:(change (units 0) with 0%Z; lia) ltac:(lia))
    as [Fs [Es Ls]].
  set (s := fold_left PrimFloat.add (repeat d n) 0%float) in *.
  replace (0 + Z.of_nat n)%Z with (Z.of_nat n) in Es, Ls by lia.
  specialize (Ls ltac:(lia)).
  destruct (of_nat_units n) as [Fn Un];
    [apply Z.le_lt_trans with 512%Z; [lia | reflexivity]|].
  set (N := Z.of_nat n) in *. set (D := units d) in *. set (S := units s) in *.
  assert (HN : (0 < N)%Z) by (subst N; lia).
  set (G := (2 ^ 1045)%Z).
  assert (EG : (G = 2 * 2 ^ 1044)%Z) by reflexivity.
  assert (PG : (0 < G)%Z) by reflexivity.
  pose proof (Z.div_mod D G ltac:(lia)) as DM.
  pose proof (Z.mod_pos_bound D G PG) as MB.
  set (q := (D / G)%Z) in *.
  assert (Hq : (0 <= q <= 2 ^ 43)%Z).
  { split; [apply Z.div_pos; lia|].
    apply Z.div_le_upper_bound; [exact PG|].
    change (G * 2 ^ 43)%Z with (2 ^ 1088)%Z. lia. }
  pose proof overflow_pos as O.
  assert (OG : (2 ^ 45 * G < overflow)%Z) by reflexivity.
  (* above *)
  set (Thi := ((q + 2) * G)%Z).
  assert (Rhi : RN Thi = Thi) by (apply RN_multiple; lia).
  destruct (div_between s (JS.of_nat n) Thi Fs Fn ltac:(lia)
              ltac:(rewrite Un; lia) Rhi ltac:(subst Thi; lia))
    as [_ Up].
  destruct Up as [Fm Um].
  { rewrite Un. fold N S.
    assert (L : (N * (D + 2 ^ 1044) <= N * Thi)%Z)
      by (apply Z.mul_le_mono_nonneg_l; subst Thi; lia).
    assert (S <= N * Thi)%Z by lia.
    replace (Thi * (N * 2 ^ 1074))%Z with (N * Thi * 2 ^ 1074)%Z by ring.
    apply Z.mul_le_mono_nonneg_r; lia. }
  split; [exact Fm|].
  destruct (Z.eq_dec q 0) as [Q0|Q0]; [subst Thi; lia|].
  (* below *)
  set (Tlo := ((q - 1) * G)%Z).
  assert (Rlo : RN Tlo = Tlo) by (apply RN_multiple; lia).
  destruct (div_between s (JS.of_nat n) Tlo Fs Fn ltac:(lia)
              ltac:(rewrite Un; lia) Rlo ltac:(subst Tlo; lia))
    as [Low _].
  destruct Low as [_ Lm].
  { rewrite Un. fold N S.
    assert (L : (N * Tlo <= N * (D - 2 ^ 1044))%Z)
      by (apply Z.mul_le_mono_nonneg_l; subst Tlo; lia).
    assert (N * Tlo <= S)%Z by lia.
    replace (Tlo * (N * 2 ^ 1074))%Z with (N * Tlo * 2 ^ 1074)%Z by ring.
    apply Z.mul_le_mono_nonneg_r; lia. }
  rewrite ext_finite in Lm by exact Fm.
  subst Thi Tlo. change (2 ^ 1046)%Z with (2 * G)%Z. lia.
Qed.

(** The squared deviation from a mean that close. *)
Lemma square_dev_small d m :
  JS.isFinite d = true -> JS.isFinite m = true ->
  (Z.abs (units m - units d) <= 2 ^ 1046)%Z ->
  JS.isFinite (JS.Math_pow2 (d - m)) = true /\
  (0 <= units (JS.Math_pow2 (d - m)) <= 2 ^ 1018)%Z.
Proof.
  intros Fd Fm H.
  pose proof (sub_returns d m Fd Fm) as R.
  pose proof (RN_bound (units d - units m) 1046 ltac:(lia) ltac:(lia)) as Bd.
  destruct (returns_bounded _ _ 1046 R ltac:(lia) Bd) as [Fe Ue].
  rewrite <- Ue in Bd. unfold JS.Math_pow2.
  set (e := (d - m)%float) in *. set (E := units e) in *.
  pose proof (mul_returns e e Fe Fe) as R2. fold E in R2.
  assert (Sq : (0 <= E * E <= 2 ^ 2092)%Z).
  { rewrite <- Z.abs_square. split; [apply Z.mul_nonneg_nonneg; lia|].
    change (2 ^ 2092)%Z with (2 ^ 1046 * 2 ^ 1046)%Z.
    apply Z.mul_le_mono_nonneg; lia. }
  pose proof (RNprod_mono 0 (E * E) ltac:(lia)) as M0.
  pose proof (RNprod_mono (E * E) (2 ^ 2092) ltac:(lia)) as M1.
  rewrite RNprod_zero in M0.
  assert (P : RNprod (2 ^ 2092) = (2 ^ 1018)%Z) by (vm_compute; reflexivity).
  rewrite P in M1.
  destruct (returns_bounded _ _ 1018 R2 ltac:(lia) ltac:(lia)) as [F2 U2].
  split; [exact F2|]. rewrite U2. lia.
Qed.

Lemma sum_repeat_below x i n :
  JS.isFinite x = true -> (0 <= i <= 2000)%Z -> (0 <= units x <= 2 ^ i)%Z ->
  forall acc k,
    JS.isFinite acc = true -> (0 <= k)%Z -> (k + Z.of_nat n <= 512)%Z ->
    (0 <= units acc <= k * 2 ^ i)%Z ->
    let s := fold_left PrimFloat.add (repeat x n) acc in
    JS.isFinite s = true /\ (0 <= units s <= (k + Z.of_nat n) * 2 ^ i)%Z.
Proof.
  intros Fx Hi Hx.
  assert (Pi : (0 < 2 ^ i)%Z) by (apply Z.pow_pos_nonneg; lia).
  induction n as [|n IH]; intros acc k Fa Hk Hn Ha s.
  - subst s. cbn [repeat fold_left].
    replace (k + Z.of_nat 0)%Z with k by lia. split; assumption.
  - subst s. cbn [repeat fold_left].
    replace (k + Z.of_nat (S n))%Z with (k + 1 + Z.of_nat n)%Z by lia.
    pose proof (add_returns acc x Fa Fx) as R.
    pose proof (RN_mono 0 (units acc + units x) ltac:(lia)) as M0.
    pose proof (RN_mono (units acc + units x) ((k + 1) * 2 ^ i) ltac:(lia))
      as M1.
    rewrite RN_zero in M0.
    rewrite (RN_multiple i (k + 1) ltac:(lia) ltac:(lia)) in M1.
    assert (B : (Z.abs (RN (units acc + units x)) <= 2 ^ (9 + i))%Z).
    { rewrite Z.pow_add_r by lia. change (2 ^ 9)%Z with 512%Z.
      assert ((k + 1) * 2 ^ i <= 512 * 2 ^ i)%Z
        by (apply Z.mul_le_mono_nonneg_r; lia).
      lia. }
    destruct (returns_bounded _ _ (9 + i) R ltac:(lia) B) as [Fs Us].
    apply IH; [exact Fs | lia | lia | rewrite Us; lia].
Qed.

Lemma fold_squares_repeat m d n acc :
  fold_left (fun a b => (a + JS.Math_pow2 (b - m))%float) (repeat d n) acc
  = fold_left PrimFloat.add (repeat (JS.Math_pow2 (d - m)) n) acc.
Proof.
  revert acc. induction n as [|n IH]; intros acc; [reflexivity|].
  cbn [repeat fold_left]. apply IH.
Qed.

(** The deviation of at most 512 equal intervals around their computed mean
    is at most [2^-27]. *)
Lemma stdDev_repeat_small d n :
  JS.isFinite d = true -> (0 < units d <= 2 ^ 1088)%Z ->
  (0 < n <= 512)%nat ->
  let sdnn := Arr.stdDevAround (Arr.mean (repeat d n)) (repeat d n) in
  JS.isFinite sdnn = true /\ (0 <= units sdnn <= 2 ^ 1047)%Z.
Proof.
  intros Fd Hd Hn sdnn. subst sdnn.
  destruct (mean_repeat_error d n Fd Hd Hn) as [Fm Em].
  set (m := Arr.mean (repeat d n)) in *.
  destruct (square_dev_small d m Fd Fm Em) as [F2 U2].
  unfold Arr.stdDevAround. rewrite fold_squares_repeat, repeat_length.
  set (x := JS.Math_pow2 (d - m)) in *.
  destruct (sum_repeat_below x 1018 n F2 ltac:(lia) U2 0%float 0%Z eq_refl
              ltac:(lia) ltac:(lia)
              ltac:(change (units 0) with 0%Z; lia))
    as [Fs Us].
  set (s := fold_left PrimFloat.add (repeat x n) 0%float) in *.
  replace (0 + Z.of_nat n)%Z with (Z.of_nat n) in Us by lia.
  destruct (of_nat_units n) as [Fn Un];
    [apply Z.le_lt_trans with 512%Z; [lia | reflexivity]|].
  assert (V : JS.isFinite (s / JS.of_nat n) = true /\
              (0 <= units (s / JS.of_nat n) <= 2 ^ 1018)%Z).
  { destruct (Z.eq_dec (units s) 0) as [Z0|NZ].
    - destruct (div_le s (JS.of_nat n) Fs Fn) as [Fv Uv].
      { rewrite Un. assert (0 < 2 ^ 1074)%Z by reflexivity. nia. }
      rewrite Z0 in Uv. split; [exact Fv | lia].
    - destruct (div_between s (JS.of_nat n) (2 ^ 1018) Fs Fn ltac:(lia)
                  ltac:(rewrite Un; lia) (RN_pow2 1018 ltac:(lia))
                  ltac:(split; [lia | reflexivity]))
        as [_ Up].
      apply Up. rewrite Un.
      replace (2 ^ 1018 * (Z.of_nat n * 2 ^ 1074))%Z
        with (Z.of_nat n * 2 ^ 1018 * 2 ^ 1074)%Z by ring.
      apply Z.mul_le_mono_nonneg_r; lia. }
  destruct V as [Fv Uv].
  apply sqrt_below; [exact Fv | lia | lia |].
  apply Z.le_lt_trans with (2 ^ 1018 * 2 ^ 1074)%Z;
    [apply Z.mul_le_mono_nonneg_r; lia | reflexivity].
Qed.

(** The computed mean of two equal intervals is the interval. *)
Lemma mean_pair d :
  JS.isFinite d = true -> (0 < units d <= 2 ^ 1088)%Z ->
  Arr.mean (repeat d 2) = d.
Proof.
  intros Fd Hd. unfold Arr.mean, JS.sum. cbn [repeat fold_left length].
  destruct (units_valid d Fd) as [RD _].
  assert (E0 : (0 + d)%float = d).
  { pose proof (add_returns 0 d eq_refl Fd) as R.
    change (units 0) with 0%Z in R. rewrite Z.add_0_l, RD in R.
    destruct (returns_bounded _ _ 1088 R ltac:(lia) ltac:(lia)) as [F U].
    apply units_inj; [exact F | exact Fd | exact U | lia]. }
  rewrite E0.
  pose proof (add_returns d d Fd Fd) as R.
  replace (units d + units d)%Z with (2 * units d)%Z in R by lia.
  rewrite RN_double, RD in R.
  destruct (returns_bounded _ _ 1089 R ltac:(lia)
              ltac:(change (2 ^ 1089)%Z with (2 * 2 ^ 1088)%Z; lia))
    as [Fs Us].
  destruct (of_nat_units 2 ltac:(reflexivity)) as [Fn Un].
  change (Z.of_nat 2) with 2%Z in Un.
  assert (O : (2 ^ 1088 < overflow)%Z) by reflexivity.
  destruct (div_between (d + d) (JS.of_nat 2) (units d) Fs Fn ltac:(lia)
              ltac:(rewrite Un; reflexivity) RD ltac:(lia))
    as [Low Up].
  destruct Low as [_ L]; [rewrite Us, Un; lia|].
  destruct Up as [Fm U]; [rewrite Us, Un; lia|].
  rewrite ext_finite in L by exact Fm.
  apply units_inj; [exact Fm | exact Fd | lia | lia].
Qed.

(* ================================================================== *)
(** * Peak loop: indices, order and separation *)
(* ================================================================== *)

Section PeakLoop.

Variable smoothedData : list float.
Variable threshold : float.
Variable minDistance : Z.

Local Abbreviation step pushed :=
  (Arr.peakStep smoothedData threshold minDistance pushed).

(** The pushed values are the images of the accepted counters. *)
Lemma peakStep_map {A} (pushed : Z -> A) (idxs : list Z) (last i : Z) :
  Arr.peakStep smoothedData threshold minDistance pushed
               (map pushed idxs, last) i
  = (map pushed
       (fst (Arr.peakStep smoothedData threshold minDistance (fun j => j)
                          (idxs, last) i)),
     snd (Arr.peakStep smoothedData threshold minDistance (fun j => j)
                       (idxs, last) i)).
Proof.
  unfold Arr.peakStep.
  destruct (Arr.localMax smoothedData threshold i && (minDistance <=? i - last)%Z);
    simpl; [rewrite map_app|]; reflexivity.
Qed.

Lemma fold_peakStep_map {A} (pushed : Z -> A) (ixs : list Z) :
  forall idxs last,
    fold_left (step pushed) ixs (map pushed idxs, last)
    = (map pushed (fst (fold_left (step (fun j => j)) ixs (idxs, last))),
       snd (fold_left (step (fun j => j)) ixs (idxs, last))).
Proof.
  induction ixs as [|i ixs IH]; intros idxs last; cbn [fold_left].
  - reflexivity.
  - rewrite peakStep_map.
    destruct (Arr.peakStep smoothedData threshold minDistance (fun j => j)
                           (idxs, last) i) as [idxs' last'] eqn:E.
    cbn [fst snd]. apply IH.
Qed.

Lemma peakLoop_map {A} (pushed : Z -> A) :
  fst (Arr.peakLoop smoothedData threshold minDistance pushed)
  = map pushed
        (fst (Arr.peakLoop smoothedData threshold minDistance (fun j => j))).
Proof.
  unfold Arr.peakLoop.
  change (@nil A) with (map pushed []).
  pose proof (fold_peakStep_map pushed
                (Arr.range 2 (Arr.len smoothedData - 2)) [] (- minDistance)%Z) as H.
  rewrite H. reflexivity.
Qed.

Lemma ForallOrdPairs_snoc {A} (R : A -> A -> Prop) (l : list A) (x : A) :
  ForallOrdPairs R l -> Forall (fun p => R p x) l ->
  ForallOrdPairs R (l ++ [x]).
Proof.
  induction 1 as [|a l Ha Hl IH]; intros HF; simpl.
  - repeat constructor.
  - inversion HF; subst. constructor.
    + apply Forall_app. split; [assumption | repeat constructor; assumption].
    + apply IH. assumption.
Qed.

Local Abbreviation peakInv := (Spec.peakInv minDistance).

Lemma peakStep_inv (lo i : Z) (st : list Z * Z) :
  (2 <= lo <= i)%Z -> peakInv lo st ->
  peakInv (i + 1) (step (fun j => j) st i).
Proof.
  intros Hi [Hord Hall]. destruct st as [peaks last]. simpl in *.
  unfold Arr.peakStep.
  destruct (Arr.localMax smoothedData threshold i && (minDistance <=? i - last)%Z)
    eqn:E.
  - apply andb_true_iff in E. destruct E as [_ Hd]. apply Z.leb_le in Hd.
    split; simpl.
    + apply ForallOrdPairs_snoc; [assumption|].
      eapply Forall_impl; [|exact Hall]. simpl. intros p Hp. unfold Spec.apart. lia.
    + apply Forall_app. split.
      * eapply Forall_impl; [|exact Hall]. simpl. intros p Hp. lia.
      * repeat constructor; lia.
  - split; simpl; [assumption|].
    eapply Forall_impl; [|exact Hall]. simpl. intros p Hp. lia.
Qed.

Lemma range_cons (lo hi : Z) :
  (lo < hi)%Z -> Arr.range lo hi = lo :: Arr.range (lo + 1) hi.
Proof.
  intros H. unfold Arr.range.
  replace (Z.to_nat (hi - lo)) with (S (Z.to_nat (hi - (lo + 1)))) by lia.
  simpl. f_equal; [lia|].
  rewrite <- seq_shift, map_map. apply map_ext. intros k. lia.
Qed.

Lemma range_nil (lo hi : Z) : (hi <= lo)%Z -> Arr.range lo hi = [].
Proof.
  intros H. unfold Arr.range.
  replace (Z.to_nat (hi - lo)) with 0%nat by lia. reflexivity.
Qed.

Lemma fold_peakStep_inv (hi : Z) (n : nat) :
  forall lo st,
    (2 <= lo)%Z -> n = Z.to_nat (hi - lo) -> peakInv lo st ->
    peakInv (Z.max lo hi) (fold_left (step (fun j => j)) (Arr.range lo hi) st).
Proof.
  induction n as [|n IH]; intros lo st Hlo Hn Hinv.
  - rewrite range_nil by lia. simpl.
    replace (Z.max lo hi) with lo by lia. assumption.
  - rewrite range_cons by lia. simpl.
    replace (Z.max lo hi) with (Z.max (lo + 1) hi) by lia.
    apply IH; [lia | lia |].
    apply (peakStep_inv lo); [lia | assumption].
Qed.

Lemma peakLoop_inv :
  peakInv (Z.max 2 (Arr.len smoothedData - 2))
          (Arr.peakLoop smoothedData threshold minDistance (fun j => j)).
Proof.
  unfold Arr.peakLoop.
  apply (fold_peakStep_inv _ _ 2 _ ltac:(lia) eq_refl).
  split; simpl; constructor.
Qed.

End PeakLoop.

Lemma movingAverage_length (data : list float) (w : Z) :
  length (Arr.movingAverage data w) = length data.
Proof.
  unfold Arr.movingAverage, Arr.range, Arr.len.
  rewrite !length_map, length_seq. lia.
Qed.

(* ================================================================== *)
(** * The peak detectors *)
(* ================================================================== *)

Lemma findPeaks_inv (data : list float) (threshold : float) (minDistance : Z) :
  exists last,
    Spec.peakInv minDistance (Z.max 2 (Arr.len data - 2))
                 (HeartRateMonitor.findPeaks data threshold minDistance, last).
Proof.
  unfold HeartRateMonitor.findPeaks, HeartRateMonitor.movingAverage.
  pose proof (peakLoop_inv (Arr.movingAverage data 3) threshold minDistance) as H.
  unfold Arr.len in H. rewrite movingAverage_length in H. fold (Arr.len data) in H.
  destruct (Arr.peakLoop (Arr.movingAverage data 3) threshold minDistance
                         (fun j => j)) as [peaks last].
  exists last. exact H.
Qed.

(** The refined peaks are the images of accepted integer counters. *)
Lemma findPeaksEnhanced_indices (data : list float) (minDistance : Z)
    (adaptiveThreshold : bool) :
  exists idxs last,
    Spec.peakInv minDistance (Z.max 2 (Arr.len data - 2)) (idxs, last) /\
    AIProcessingVisualizer.findPeaksEnhanced data minDistance adaptiveThreshold
    = map (AIProcessingVisualizer.refinedPeak (Arr.movingAverage data 3)) idxs.
Proof.
  unfold AIProcessingVisualizer.findPeaksEnhanced,
    AIProcessingVisualizer.movingAverage.
  set (sm := Arr.movingAverage data 3).
  set (th := AIProcessingVisualizer.peakThreshold sm adaptiveThreshold).
  rewrite peakLoop_map.
  pose proof (peakLoop_inv sm th minDistance) as H.
  unfold Arr.len in H. unfold sm in H at 1. rewrite movingAverage_length in H.
  fold (Arr.len data) in H.
  destruct (Arr.peakLoop sm th minDistance (fun j => j)) as [idxs last].
  exists idxs, last. split; [exact H | reflexivity].
Qed.

(** Every accepted counter passed the local-maximum test. *)
Lemma fold_peakStep_localMax smoothedData threshold minDistance ixs :
  forall st,
    Forall (fun i => Arr.localMax smoothedData threshold i = true) (fst st) ->
    Forall (fun i => Arr.localMax smoothedData threshold i = true)
           (fst (fold_left
                   (Arr.peakStep smoothedData threshold minDistance (fun j => j))
                   ixs st)).
Proof.
  induction ixs as [|i ixs IH]; intros st H; cbn [fold_left]; [exact H|].
  apply IH. destruct st as [peaks last]. unfold Arr.peakStep.
  destruct (Arr.localMax smoothedData threshold i &&
            (minDistance <=? i - last)%Z) eqn:E; cbn [fst]; [|exact H].
  apply andb_true_iff in E. destruct E as [E _].
  apply Forall_app. split; [exact H | repeat constructor; exact E].
Qed.

Lemma peakLoop_localMax smoothedData threshold minDistance :
  Forall (fun i => Arr.localMax smoothedData threshold i = true)
         (fst (Arr.peakLoop smoothedData threshold minDistance (fun j => j))).
Proof.
  unfold Arr.peakLoop. apply fold_peakStep_localMax. constructor.
Qed.

(** ** The refined peak on bounded samples *)

Lemma within_units x :
  within 2090 x ->
  JS.isFinite x = true /\ RN (units x) = units x /\
  (Z.abs (units x) <= 2 ^ 2090)%Z.
Proof.
  intros [F B]. destruct (units_valid x F) as [V _].
  repeat split; assumption.
Qed.

(** The smoothed samples of a window of samples of magnitude at most
    [1e300]. *)
Lemma smoothed_within data :
  Forall Spec.bounded data ->
  Forall (within 2090) (Arr.movingAverage data 3).
Proof.
  intros H.
  assert (W : Forall (within 2071) data)
    by (eapply Forall_impl; [|exact H]; intros x; apply bounded_within).
  pose proof (movingAverage_within data 2071 ltac:(lia) W) as M.
  eapply Forall_impl; [|exact M]. intros x. apply within_mono. lia.
Qed.

(** The offset at a strict local maximum of bounded samples: the
    denominator is finite and not zero, and the offset is finite and at most
    one in magnitude. *)
Lemma offset_bounded a b c :
  within 2090 a -> within 2090 b -> within 2090 c ->
  PrimFloat.ltb a b = true -> PrimFloat.ltb c b = true ->
  let d := (2 * (a - 2 * b + c))%float in
  JS.isFinite d = true /\ units d <> 0%Z /\
  JS.isFinite ((a - c) / d) = true /\
  (Z.abs (units ((a - c) / d)) <= 2 ^ 1074)%Z.
Proof.
  intros Ba Bb Bc Hab Hcb d.
  destruct (within_units a Ba) as [Fa [Va La]].
  destruct (within_units b Bb) as [Fb [Vb Lb]].
  destruct (within_units c Bc) as [Fc [Vc Lc]].
  rewrite (ltb_units a b Fa Fb) in Hab. rewrite (ltb_units c b Fc Fb) in Hcb.
  apply Z.ltb_lt in Hab, Hcb.
  assert (E91 : (2 ^ 2091 = 2 * 2 ^ 2090)%Z) by reflexivity.
  assert (E92 : (2 ^ 2092 = 4 * 2 ^ 2090)%Z) by reflexivity.
  assert (E93 : (2 ^ 2093 = 8 * 2 ^ 2090)%Z) by reflexivity.
  assert (E94 : (2 ^ 2094 = 16 * 2 ^ 2090)%Z) by reflexivity.
  assert (T0 : (0 < 2 ^ 2090)%Z) by reflexivity.
  set (T := (2 ^ 2090)%Z) in *. clearbody T.
  set (ua := units a) in *. set (ub := units b) in *. set (uc := units c) in *.
  (* 2 * b *)
  destruct (returns_bounded _ _ 2091 (double_returns b Fb) ltac:(lia)
              ltac:(rewrite E91; lia)) as [F1 U1]. fold ub in U1.
  (* a - 2 * b *)
  pose proof (RN_bound (ua - 2 * ub) 2092 ltac:(lia) ltac:(rewrite E92; lia))
    as L2.
  pose proof (sub_returns a (2 * b) Fa F1) as R2. rewrite U1 in R2. fold ua in R2.
  destruct (returns_bounded _ _ 2092 R2 ltac:(lia) L2) as [F2 U2].
  rewrite E92 in L2.
  (* a - 2 * b + c *)
  pose proof (RN_bound (RN (ua - 2 * ub) + uc) 2093 ltac:(lia)
                ltac:(rewrite E93; lia)) as L3.
  pose proof (add_returns (a - 2 * b) c F2 Fc) as R3.
  rewrite U2 in R3. fold uc in R3.
  destruct (returns_bounded _ _ 2093 R3 ltac:(lia) L3) as [F3 U3].
  rewrite E93 in L3.
  (* 2 * (a - 2 * b + c) *)
  pose proof (double_returns (a - 2 * b + c) F3) as R4. rewrite U3 in R4.
  destruct (returns_bounded _ _ 2094 R4 ltac:(lia) ltac:(rewrite E94; lia))
    as [F4 U4].
  fold d in F4, U4.
  (* a - c *)
  pose proof (RN_bound (ua - uc) 2091 ltac:(lia) ltac:(rewrite E91; lia)) as L5.
  pose proof (sub_returns a c Fa Fc) as R5. fold ua uc in R5.
  destruct (returns_bounded _ _ 2091 R5 ltac:(lia) L5) as [F5 U5].
  destruct (offset_units_bound ua ub uc Va Vb Vc Hab Hcb) as [Neg Le].
  cbv zeta in Neg, Le.
  assert (Nd : units d <> 0%Z) by (rewrite U4; lia).
  split; [exact F4|]. split; [exact Nd|].
  apply div_magnitude; try assumption. rewrite U5, U4. lia.
Qed.

Lemma get_In (data : list float) (i : Z) :
  PrimFloat.is_nan (JS.get data i) = false -> In (JS.get data i) data.
Proof.
  intros N. unfold JS.get in *.
  destruct (i <? 0)%Z; [discriminate|].
  destruct (nth_in_or_default (Z.to_nat i) data nan) as [H|H]; [exact H|].
  rewrite H in N. discriminate.
Qed.

(** The refined peak is finite and within one sample of its index. *)
Lemma refinedPeak_bounded smoothedData i :
  Forall (within 2090) smoothedData -> (0 <= i < 2 ^ 32)%Z ->
  JS.gtb (JS.get smoothedData i) (JS.get smoothedData (i - 1)) = true ->
  JS.gtb (JS.get smoothedData i) (JS.get smoothedData (i + 1)) = true ->
  let p := AIProcessingVisualizer.refinedPeak smoothedData i in
  JS.isFinite p = true /\
  PrimFloat.leb (JS.of_Z (i - 1)) p = true /\
  PrimFloat.leb p (JS.of_Z (i + 1)) = true.
Proof.
  intros B Hi H1 H2 p. unfold JS.gtb in H1, H2.
  destruct (ltb_not_nan _ _ H1) as [Na Nb].
  destruct (ltb_not_nan _ _ H2) as [Nc _].
  rewrite Forall_forall in B.
  destruct (offset_bounded _ _ _ (B _ (get_In _ _ Na)) (B _ (get_In _ _ Nb))
              (B _ (get_In _ _ Nc)) H1 H2) as [_ [_ [Fq Lq]]].
  cbv zeta in Fq, Lq.
  assert (T32 : (2 ^ 32 + 1 < 2 ^ 53)%Z) by reflexivity.
  destruct (of_Z_units i ltac:(lia)) as [Fi Ui].
  destruct (of_Z_units (i - 1) ltac:(lia)) as [Fl Ul].
  destruct (of_Z_units (i + 1) ltac:(lia)) as [Fu Uu].
  subst p. unfold AIProcessingVisualizer.refinedPeak,
    AIProcessingVisualizer.peakOffset. cbv zeta.
  set (q := ((JS.get smoothedData (i - 1) - JS.get smoothedData (i + 1)) /
             (2 * (JS.get smoothedData (i - 1) - 2 * JS.get smoothedData i
                   + JS.get smoothedData (i + 1))))%float) in *.
  pose proof (add_returns (JS.of_Z i) q Fi Fq) as R. rewrite Ui in R.
  assert (T : (0 < 2 ^ 1074)%Z) by reflexivity.
  assert (Lo : (RN ((i - 1) * 2 ^ 1074) <= RN (i * 2 ^ 1074 + units q))%Z)
    by (apply RN_mono; lia).
  assert (Hi' : (RN (i * 2 ^ 1074 + units q) <= RN ((i + 1) * 2 ^ 1074))%Z)
    by (apply RN_mono; lia).
  rewrite RN_small_integer in Lo, Hi' by lia.
  assert (E : (2 ^ 1127 = 2 ^ 53 * 2 ^ 1074)%Z) by reflexivity.
  destruct (returns_bounded _ _ 1127 R ltac:(lia) ltac:(nia)) as [Fp Up].
  split; [exact Fp|].
  rewrite (leb_units _ _ Fl Fp), (leb_units _ _ Fp Fu), Ul, Uu, Up.
  split; apply Z.leb_le; assumption.
Qed.

Lemma get_finite (data : list float) (i : Z) :
  Forall (fun x => JS.isFinite x = true) data ->
  PrimFloat.is_nan (JS.get data i) = false ->
  JS.isFinite (JS.get data i) = true.
Proof.
  intros F N. rewrite Forall_forall in F. apply F, get_In, N.
Qed.

(** ** Distance between refined peaks *)

Lemma ltb_asym a b : PrimFloat.ltb a b = true -> PrimFloat.ltb b a = false.
Proof.
  rewrite !ltb_spec. unfold SFltb. intros H.
  destruct (SFcompare (Prim2SF a) (Prim2SF b)) as [c|] eqn:E; [|discriminate].
  rewrite (SFcompare_antisym _ _ _ E). destruct c; try discriminate.
  reflexivity.
Qed.

(** Two strict local maxima over a window of two samples on either side are
    at least three samples apart. *)
Lemma localMax_apart smoothedData threshold i j :
  (i < j)%Z ->
  Arr.localMax smoothedData threshold i = true ->
  Arr.localMax smoothedData threshold j = true ->
  (3 <= j - i)%Z.
Proof.
  intros Hij Hi Hj. unfold Arr.localMax, JS.gtb in Hi, Hj.
  repeat rewrite andb_true_iff in Hi, Hj.
  destruct Hi as [[[[_ _] _] I1] I2]. destruct Hj as [[[[_ J1] J2] _] _].
  destruct (Z_lt_le_dec (j - i) 3) as [Near|]; [exfalso|assumption].
  assert (C : j = (i + 1)%Z \/ j = (i + 2)%Z) by lia.
  destruct C as [-> | ->].
  - replace (i + 1 - 1)%Z with i in J1 by lia.
    rewrite (ltb_asym _ _ I1) in J1. discriminate.
  - replace (i + 2 - 2)%Z with i in J2 by lia.
    rewrite (ltb_asym _ _ I2) in J2. discriminate.
Qed.

Lemma ForallOrdPairs_and_Forall {A} (R : A -> A -> Prop) (P : A -> Prop) l :
  ForallOrdPairs R l -> Forall P l ->
  ForallOrdPairs (fun x y => R x y /\ P x /\ P y) l.
Proof.
  induction 1 as [|a l Ha Hl IH]; intros HP; [constructor|].
  inversion HP as [|? ? Pa Pl]; subst. constructor; [|apply IH; exact Pl].
  rewrite Forall_forall in *. intros y Hy. auto.
Qed.

Lemma ForallOrdPairs_impl {A} (R S : A -> A -> Prop) l :
  (forall x y, R x y -> S x y) -> ForallOrdPairs R l -> ForallOrdPairs S l.
Proof.
  intros H. induction 1 as [|a l Ha Hl IH]; constructor; [|exact IH].
  eapply Forall_impl; [|exact Ha]. intros y. apply H.
Qed.

Lemma ForallOrdPairs_map {A B} (f : A -> B) (R : B -> B -> Prop) l :
  ForallOrdPairs (fun x y => R (f x) (f y)) l -> ForallOrdPairs R (map f l).
Proof.
  induction 1 as [|a l Ha Hl IH]; cbn [map]; constructor; [|exact IH].
  apply Forall_forall. intros y Hy. apply in_map_iff in Hy.
  destruct Hy as [x [<- Hx]]. rewrite Forall_forall in Ha. auto.
Qed.

(** The refinements of two accepted indices [i < j] of bounded samples are
    in the same order, and at most two samples closer than [i] and [j]. *)
Lemma refinedPeaks_apart smoothedData threshold minDistance i j :
  Forall (within 2090) smoothedData -> (0 <= i)%Z -> (j < 2 ^ 32)%Z ->
  Spec.apart minDistance i j ->
  Arr.localMax smoothedData threshold i = true ->
  Arr.localMax smoothedData threshold j = true ->
  Spec.apartF (Z.max 3 minDistance - 2)
    (AIProcessingVisualizer.refinedPeak smoothedData i)
    (AIProcessingVisualizer.refinedPeak smoothedData j).
Proof.
  intros B Hi Hj [Hlt Hd] Li Lj.
  pose proof (localMax_apart _ _ _ _ Hlt Li Lj) as H3.
  unfold Arr.localMax in Li, Lj. repeat rewrite andb_true_iff in Li, Lj.
  destruct Li as [[[[_ I1] _] I2] _]. destruct Lj as [[[[_ J1] _] J2] _].
  destruct (refinedPeak_bounded smoothedData i B ltac:(lia) I1 I2)
    as [Fp [Lp Up]].
  destruct (refinedPeak_bounded smoothedData j B ltac:(lia) J1 J2)
    as [Fq [Lq Uq]].
  cbv zeta in *.
  set (p := AIProcessingVisualizer.refinedPeak smoothedData i) in *.
  set (q := AIProcessingVisualizer.refinedPeak smoothedData j) in *.
  assert (T32 : (2 ^ 32 + 1 < 2 ^ 53)%Z) by reflexivity.
  assert (T : (0 < 2 ^ 1074)%Z) by reflexivity.
  destruct (of_Z_units (i + 1) ltac:(lia)) as [F1 U1].
  destruct (of_Z_units (j - 1) ltac:(lia)) as [F2 U2].
  destruct (of_Z_units (Z.max 3 minDistance - 2) ltac:(lia)) as [F3 U3].
  rewrite (leb_units _ _ Fp F1), U1 in Up. apply Z.leb_le in Up.
  rewrite (leb_units _ _ F2 Fq), U2 in Lq. apply Z.leb_le in Lq.
  clear Lp Uq.
  set (U := (2 ^ 1074)%Z) in *.
  assert (Gap : ((Z.max 3 minDistance - 2) * U <= units q - units p)%Z) by nia.
  assert (Low : (- U <= units p)%Z).
  { destruct (refinedPeak_bounded smoothedData i B ltac:(lia) I1 I2)
      as [_ [Lp _]]. fold p in Lp.
    destruct (of_Z_units (i - 1) ltac:(lia)) as [F0 U0].
    rewrite (leb_units _ _ F0 Fp), U0 in Lp. apply Z.leb_le in Lp.
    fold U in Lp. nia. }
  assert (High : (units q <= (2 ^ 32 + 1) * U)%Z).
  { destruct (refinedPeak_bounded smoothedData j B ltac:(lia) J1 J2)
      as [_ [_ Uq]]. fold q in Uq.
    destruct (of_Z_units (j + 1) ltac:(lia)) as [F0 U0].
    rewrite (leb_units _ _ Fq F0), U0 in Uq. apply Z.leb_le in Uq.
    fold U in Uq. nia. }
  assert (Wide : ((2 ^ 32 + 1) * U + U <= 2 ^ 33 * U)%Z).
  { replace ((2 ^ 32 + 1) * U + U)%Z with ((2 ^ 32 + 2) * U)%Z by lia.
    apply Z.mul_le_mono_nonneg_r; [lia | vm_compute; discriminate]. }
  split.
  - rewrite (ltb_units _ _ Fp Fq). apply Z.ltb_lt. nia.
  - pose proof (sub_returns q p Fq Fp) as R.
    assert (Mono : (RN ((Z.max 3 minDistance - 2) * U)
                    <= RN (units q - units p))%Z) by (apply RN_mono; exact Gap).
    subst U. rewrite RN_small_integer in Mono by lia.
    assert (Top : (RN (units q - units p) <= RN (2 ^ 33 * 2 ^ 1074))%Z)
      by (apply RN_mono; lia).
    rewrite RN_small_integer in Top by (vm_compute; reflexivity).
    assert (E : (2 ^ 1107 = 2 ^ 33 * 2 ^ 1074)%Z) by reflexivity.
    destruct (returns_bounded _ _ 1107 R ltac:(lia) ltac:(nia)) as [Fd Ud].
    rewrite (leb_units _ _ F3 Fd), U3, Ud. apply Z.leb_le. exact Mono.
Qed.

(** C10. Both peak detectors report only integer indices [i] with
    [2 <= i <= length - 3]: every index returned by [findPeaks] lies in that
    range, and every value returned by [findPeaksEnhanced] is the refinement
    of an integer index in that range. *)
Theorem C10_peaks_avoid_window_borders :
  forall (data : list float) (threshold : float) (minDistance : Z)
         (adaptiveThreshold : bool),
    Forall (fun i => 2 <= i <= Arr.len data - 3)%Z
           (HeartRateMonitor.findPeaks data threshold minDistance) /\
    Forall (fun p => exists i : Z,
                (2 <= i <= Arr.len data - 3)%Z /\
                p = AIProcessingVisualizer.refinedPeak
                      (AIProcessingVisualizer.movingAverage data 3) i)
           (AIProcessingVisualizer.findPeaksEnhanced
              data minDistance adaptiveThreshold).
Proof.
  intros data threshold minDistance adaptiveThreshold. split.
  - destruct (findPeaks_inv data threshold minDistance) as [last [_ H]].
    simpl in H. eapply Forall_impl; [|exact H]. simpl. intros i Hi. lia.
  - destruct (findPeaksEnhanced_indices data minDistance adaptiveThreshold)
      as [idxs [last [[_ H] ->]]].
    simpl in H. apply Forall_forall. intros p Hp.
    apply in_map_iff in Hp. destruct Hp as [i [<- Hi]].
    exists i. split; [|reflexivity].
    rewrite Forall_forall in H. specialize (H i Hi). lia.
Qed.

(** C4, as amended. [findPeaks] returns integer indices that are strictly
    increasing and pairwise at least [minDistance] apart.  [findPeaksEnhanced]
    returns the sub-sample refinements of integer indices with the same two
    properties; the distance test is on the integer indices, not on the
    refined values.  When the samples of the window are at most [1e300] in
    magnitude and fewer than [2^32], the refined peaks are strictly
    increasing and pairwise at least [max(3, minDistance) - 2] apart. *)
Theorem C4_peak_indices_increasing_and_separated :
  forall (data : list float) (threshold : float) (minDistance : Z)
         (adaptiveThreshold : bool),
    let smoothedData := AIProcessingVisualizer.movingAverage data 3 in
    let refined :=
      AIProcessingVisualizer.findPeaksEnhanced
        data minDistance adaptiveThreshold in
    ForallOrdPairs (Spec.apart minDistance)
                   (HeartRateMonitor.findPeaks data threshold minDistance) /\
    (exists idxs : list Z,
        ForallOrdPairs (Spec.apart minDistance) idxs /\
        refined = map (AIProcessingVisualizer.refinedPeak smoothedData) idxs) /\
    (Forall Spec.bounded data -> (Arr.len data < 2 ^ 32)%Z ->
     ForallOrdPairs (Spec.apartF (Z.max 3 minDistance - 2)) refined).
Proof.
  intros data threshold minDistance adaptiveThreshold smoothedData refined.
  split; [|split].
  - destruct (findPeaks_inv data threshold minDistance) as [last [H _]]. exact H.
  - destruct (findPeaksEnhanced_indices data minDistance adaptiveThreshold)
      as [idxs [last [[H _] E]]].
    exists idxs. split; assumption.
  - intros B Hlen. subst refined.
    unfold AIProcessingVisualizer.findPeaksEnhanced. fold smoothedData.
    set (threshold' :=
           AIProcessingVisualizer.peakThreshold smoothedData adaptiveThreshold).
    rewrite peakLoop_map. apply ForallOrdPairs_map.
    destruct (peakLoop_inv smoothedData threshold' minDistance) as [Ord Rng].
    pose proof (peakLoop_localMax smoothedData threshold' minDistance) as Loc.
    assert (L : Arr.len smoothedData = Arr.len data).
    { unfold Arr.len, smoothedData, AIProcessingVisualizer.movingAverage.
      rewrite movingAverage_length. reflexivity. }
    rewrite L in Rng.
    pose proof (ForallOrdPairs_and_Forall _ _ _ Ord (Forall_and Rng Loc)) as H.
    eapply ForallOrdPairs_impl; [|exact H]. cbv beta.
    intros i j [A [[Ri Li] [Rj Lj]]].
    apply (refinedPeaks_apart smoothedData threshold');
      try assumption; try lia.
    apply smoothed_within. exact B.
Qed.

(** The two pulses of [Samples.twoPulses] with [minDistance = 5]: the
    refined peaks are increasing and at least 3 apart. *)
Lemma C4_peak_indices_increasing_and_separated_witness :
  ForallOrdPairs (Spec.apartF 3)
    (AIProcessingVisualizer.findPeaksEnhanced Samples.twoPulses 5 false).
Proof.
  pose proof (C4_peak_indices_increasing_and_separated
                Samples.twoPulses 0 5 false) as H.
  cbv zeta in H. destruct H as [_ [_ H]].
  apply H; [|reflexivity].
  apply Forall_forall,
    (forallb_forall (fun x => PrimFloat.leb (JS.Math_abs x) 1e300)).
  vm_compute. reflexivity.
Defined.

(** C4, counterexample. With [minDistance = 5] the enhanced detector returns
    the refined peaks 5.25 and 9.75 for [Samples.twoPulses]: they are only 4.5
    samples apart. *)
Lemma C4_refined_peaks_closer_than_minDistance :
  AIProcessingVisualizer.findPeaksEnhanced Samples.twoPulses 5 false
  = [5.25; 9.75]%float /\
  ~ ForallOrdPairs (Spec.apartF 5)
      (AIProcessingVisualizer.findPeaksEnhanced Samples.twoPulses 5 false).
Proof.
  assert (E : AIProcessingVisualizer.findPeaksEnhanced Samples.twoPulses 5 false
              = [5.25; 9.75]%float) by (vm_compute; reflexivity).
  split; [exact E|]. rewrite E. intros H.
  inversion H as [|a l Ha Hl]; subst.
  inversion Ha as [|b l' [_ Hb] Hl']; subst.
  vm_compute in Hb. discriminate.
Qed.

(* ================================================================== *)
(** * The rate estimators *)
(* ================================================================== *)

(** C2. With fewer than the minimum number of peaks (3 basic, 4 enhanced), or
    with fewer than 2 (basic) / 3 (enhanced) intervals surviving the outlier
    filter, the estimators return the sentinel [(0, 0)]; in particular for no
    peaks and for the single peak [10], with 300 frames at 30 fps. *)
Theorem C2_insufficient_data_sentinel :
  forall (peaks : list float) (totalFrames fps : float),
    ((length peaks < 3)%nat \/
     (length (HeartRateMonitor.validIntervals peaks fps) < 2)%nat ->
     HeartRateMonitor.calculateHeartRate peaks totalFrames fps = (0, 0)%float) /\
    ((length peaks < 4)%nat \/
     (length (AIProcessingVisualizer.validIntervals peaks fps) < 3)%nat ->
     AIProcessingVisualizer.calculateHeartRateEnhanced peaks totalFrames fps
     = JS.Normal (0, 0)%float) /\
    HeartRateMonitor.calculateHeartRate [] 300 30 = (0, 0)%float /\
    HeartRateMonitor.calculateHeartRate [10%float] 300 30 = (0, 0)%float /\
    AIProcessingVisualizer.calculateHeartRateEnhanced [] 300 30
    = JS.Normal (0, 0)%float /\
    AIProcessingVisualizer.calculateHeartRateEnhanced [10%float] 300 30
    = JS.Normal (0, 0)%float.
Proof.
  intros peaks totalFrames fps.
  repeat split; try reflexivity.
  - intros H. unfold HeartRateMonitor.calculateHeartRate.
    destruct (length peaks <? 3)%nat eqn:E1; [reflexivity|].
    apply Nat.ltb_ge in E1.
    destruct H as [H|H]; [lia|].
    apply Nat.ltb_lt in H. cbv zeta. rewrite H. reflexivity.
  - intros H. unfold AIProcessingVisualizer.calculateHeartRateEnhanced.
    destruct (length peaks <? 4)%nat eqn:E1; [reflexivity|].
    apply Nat.ltb_ge in E1.
    destruct H as [H|H]; [lia|].
    apply Nat.ltb_lt in H. cbv zeta. rewrite H. reflexivity.
Qed.

(** Two peaks are fewer than either estimator needs. *)
Lemma C2_insufficient_data_sentinel_witness :
  HeartRateMonitor.calculateHeartRate [10; 40]%float 300 30 = (0, 0)%float /\
  AIProcessingVisualizer.calculateHeartRateEnhanced [10; 40]%float 300 30
  = JS.Normal (0, 0)%float.
Proof.
  split.
  - apply (proj1 (C2_insufficient_data_sentinel [10; 40]%float 300 30)).
    left. simpl. lia.
  - apply (proj1 (proj2 (C2_insufficient_data_sentinel [10; 40]%float 300 30))).
    left. simpl. lia.
Defined.

(** ** Filter, rate and confidence *)

Lemma ltb_leb_eqb a b :
  PrimFloat.ltb a b = PrimFloat.leb a b && negb (PrimFloat.eqb a b).
Proof.
  rewrite ltb_spec, leb_spec, eqb_spec. unfold SFltb, SFleb, SFeqb.
  destruct (SFcompare (Prim2SF a) (Prim2SF b)) as [[| |]|]; reflexivity.
Qed.

Lemma mul_comm a b : (a * b = b * a)%float.
Proof.
  apply Prim2SF_inj. rewrite !mul_spec. unfold SF64mul.
  destruct (Prim2SF a) as [sa|sa| |sa ma ea];
    destruct (Prim2SF b) as [sb|sb| |sb mb eb]; cbn [SFmul];
    try reflexivity; try (rewrite xorb_comm; reflexivity).
  rewrite xorb_comm, Pos.mul_comm, Z.add_comm. reflexivity.
Qed.

Lemma filter_filter {A} (f g : A -> bool) l :
  filter f (filter g l) = filter (fun x => g x && f x) l.
Proof.
  induction l as [|x l IH]; [reflexivity|]. cbn [filter].
  destruct (g x); cbn [filter andb]; [destruct (f x)|]; rewrite IH; reflexivity.
Qed.

(** The code keeps the intervals that the specification's filter keeps,
    except those equal to one of the two bounds. *)
Lemma validIntervals_strict peaks fps :
  HeartRateMonitor.validIntervals peaks fps
  = filter (fun i => negb (PrimFloat.eqb (fps * 0.4) i) &&
                     negb (PrimFloat.eqb i (fps * 1.5)))
           (Spec.validIntervals
              (Arr.consecutive (fun prev cur => (cur - prev)%float) peaks) fps).
Proof.
  unfold HeartRateMonitor.validIntervals, Spec.validIntervals,
    HeartRateMonitor.intervalsOf.
  rewrite filter_filter. apply filter_ext. intros i. unfold JS.gtb.
  rewrite (mul_comm 0.4 fps), (mul_comm 1.5 fps).
  rewrite (ltb_leb_eqb (fps * 0.4) i), (ltb_leb_eqb i (fps * 1.5)).
  destruct (PrimFloat.leb (JS.Math_abs (i - _)) _);
    destruct (PrimFloat.leb (fps * 0.4) i);
    destruct (PrimFloat.leb i (fps * 1.5));
    destruct (PrimFloat.eqb (fps * 0.4) i);
    destruct (PrimFloat.eqb i (fps * 1.5)); reflexivity.
Qed.

(** ** Sums and means of samples between two integers *)

Lemma sum_between a b l :
  (0 <= a <= b)%Z ->
  Forall (fun x => JS.isFinite x = true /\
                   (a * 2 ^ 1074 <= units x <= b * 2 ^ 1074)%Z) l ->
  forall acc k,
    (0 <= k)%Z -> (b * (k + Z.of_nat (length l)) < 2 ^ 53)%Z ->
    JS.isFinite acc = true ->
    (a * k * 2 ^ 1074 <= units acc <= b * k * 2 ^ 1074)%Z ->
    JS.isFinite (fold_left PrimFloat.add l acc) = true /\
    (a * (k + Z.of_nat (length l)) * 2 ^ 1074
     <= units (fold_left PrimFloat.add l acc)
     <= b * (k + Z.of_nat (length l)) * 2 ^ 1074)%Z.
Proof.
  intros Hab H. induction H as [|x l [Fx Bx] _ IH]; intros acc k Hk Hb Fa Ba.
  - cbn [fold_left length]. rewrite Z.add_0_r. split; assumption.
  - cbn [fold_left]. cbn [length] in Hb |- *.
    assert (T : (0 < 2 ^ 1074)%Z) by reflexivity.
    pose proof (add_returns acc x Fa Fx) as R.
    assert (Lo : (RN (a * (k + 1) * 2 ^ 1074) <= RN (units acc + units x))%Z)
      by (apply RN_mono; lia).
    assert (Hi : (RN (units acc + units x) <= RN (b * (k + 1) * 2 ^ 1074))%Z)
      by (apply RN_mono; lia).
    assert (Bk : (b * (k + 1) < 2 ^ 53)%Z) by nia.
    assert (Ak : (0 <= a * (k + 1) <= b * (k + 1))%Z) by nia.
    rewrite RN_small_integer in Lo by lia.
    rewrite RN_small_integer in Hi by lia.
    assert (Top : (b * (k + 1) * 2 ^ 1074 <= 2 ^ 1127)%Z).
    { change (2 ^ 1127)%Z with (2 ^ 53 * 2 ^ 1074)%Z.
      apply Z.mul_le_mono_nonneg_r; lia. }
    assert (Pos : (0 <= a * (k + 1) * 2 ^ 1074)%Z)
      by (apply Z.mul_nonneg_nonneg; lia).
    destruct (returns_bounded _ _ 1127 R ltac:(lia) ltac:(lia)) as [Fs Us].
    replace (k + Z.of_nat (S (length l)))%Z
      with ((k + 1) + Z.of_nat (length l))%Z by lia.
    apply IH; [lia | lia | exact Fs | rewrite Us; lia].
Qed.

Lemma mean_between a b l :
  (0 < a <= b)%Z -> l <> [] ->
  Forall (fun x => JS.isFinite x = true /\
                   (a * 2 ^ 1074 <= units x <= b * 2 ^ 1074)%Z) l ->
  (b * Z.of_nat (length l) < 2 ^ 53)%Z ->
  JS.isFinite (Arr.mean l) = true /\
  (a * 2 ^ 1074 <= units (Arr.mean l) <= b * 2 ^ 1074)%Z.
Proof.
  intros Hab Hne H Hb. unfold Arr.mean, JS.sum.
  assert (T : (0 < 2 ^ 1074)%Z) by reflexivity.
  assert (Ln : (0 < Z.of_nat (length l))%Z)
    by (destruct l; [contradiction | cbn [length]; lia]).
  destruct (sum_between a b l ltac:(lia) H 0%float 0%Z ltac:(lia) Hb eq_refl)
    as [Fs Bs]; [change (units 0) with 0%Z; lia|].
  rewrite Z.add_0_l in Bs.
  set (S := fold_left PrimFloat.add l 0%float) in *.
  destruct (of_nat_units (length l) ltac:(nia)) as [Fn Un].
  assert (Sp : (0 < units S)%Z) by nia.
  assert (Np : (0 < units (JS.of_nat (length l)))%Z) by (rewrite Un; nia).
  assert (B53 : (b < 2 ^ 53)%Z) by nia.
  assert (Ov : forall c, (0 <= c <= b)%Z -> (0 <= c * 2 ^ 1074 < overflow)%Z).
  { intros c Hc. split; [apply Z.mul_nonneg_nonneg; lia|].
    apply Z.lt_le_trans with (2 ^ 53 * 2 ^ 1074)%Z;
      [apply Z.mul_lt_mono_pos_r; lia | vm_compute; discriminate]. }
  destruct (div_between S (JS.of_nat (length l)) (a * 2 ^ 1074) Fs Fn Sp Np
              (RN_small_integer a ltac:(lia)) (Ov a ltac:(lia))) as [Lo _].
  destruct (div_between S (JS.of_nat (length l)) (b * 2 ^ 1074) Fs Fn Sp Np
              (RN_small_integer b ltac:(lia)) (Ov b ltac:(lia))) as [_ Hi].
  rewrite Un in Lo, Hi.
  destruct Hi as [Fm [_ Um]].
  { replace (b * 2 ^ 1074 * (Z.of_nat (length l) * 2 ^ 1074))%Z
      with (b * Z.of_nat (length l) * 2 ^ 1074 * 2 ^ 1074)%Z by ring.
    apply Z.mul_le_mono_nonneg_r; lia. }
  destruct Lo as [_ Lm].
  { replace (a * 2 ^ 1074 * (Z.of_nat (length l) * 2 ^ 1074))%Z
      with (a * Z.of_nat (length l) * 2 ^ 1074 * 2 ^ 1074)%Z by ring.
    apply Z.mul_le_mono_nonneg_r; lia. }
  rewrite (ext_finite _ Fm) in Lm. split; [exact Fm | split; assumption].
Qed.

(** A quotient [c / m] for an integer [c] and [m] between two of its
    divisors' quotients: [c / hi <= c / m <= c / lo]. *)
Lemma quotient_between c lo hi qlo qhi m :
  (0 < lo <= hi)%Z -> (0 < qlo <= qhi)%Z -> (0 < c < 2 ^ 53)%Z ->
  (qhi < 2 ^ 53)%Z ->
  (qlo * hi <= c)%Z -> (c <= qhi * lo)%Z ->
  JS.isFinite m = true ->
  (lo * 2 ^ 1074 <= units m <= hi * 2 ^ 1074)%Z ->
  JS.isFinite (JS.of_Z c / m) = true /\
  (qlo * 2 ^ 1074 <= units (JS.of_Z c / m) <= qhi * 2 ^ 1074)%Z.
Proof.
  intros Hl Hq Hc Hqh L1 L2 Fm Bm.
  assert (T : (0 < 2 ^ 1074)%Z) by reflexivity.
  destruct (of_Z_units c ltac:(lia)) as [Fc Uc].
  assert (Cp : (0 < units (JS.of_Z c))%Z) by (rewrite Uc; nia).
  assert (Mp : (0 < units m)%Z) by nia.
  assert (Ov : forall t, (0 <= t <= qhi)%Z -> (0 <= t * 2 ^ 1074 < overflow)%Z).
  { intros t Ht. split; [apply Z.mul_nonneg_nonneg; lia|].
    apply Z.lt_le_trans with (2 ^ 53 * 2 ^ 1074)%Z;
      [apply Z.mul_lt_mono_pos_r; lia | vm_compute; discriminate]. }
  destruct (div_between (JS.of_Z c) m (qlo * 2 ^ 1074) Fc Fm Cp Mp
              (RN_small_integer qlo ltac:(lia)) (Ov qlo ltac:(lia))) as [Lo _].
  destruct (div_between (JS.of_Z c) m (qhi * 2 ^ 1074) Fc Fm Cp Mp
              (RN_small_integer qhi ltac:(lia)) (Ov qhi ltac:(lia))) as [_ Hi].
  rewrite Uc in Lo, Hi.
  destruct Hi as [Fq [_ Uq]].
  { apply Z.le_trans with (qhi * 2 ^ 1074 * (lo * 2 ^ 1074))%Z.
    - replace (qhi * 2 ^ 1074 * (lo * 2 ^ 1074))%Z
        with (qhi * lo * 2 ^ 1074 * 2 ^ 1074)%Z by ring.
      apply Z.mul_le_mono_nonneg_r; [lia|].
      apply Z.mul_le_mono_nonneg_r; lia.
    - apply Z.mul_le_mono_nonneg_l; [|lia]. apply Z.mul_nonneg_nonneg; lia. }
  destruct Lo as [_ Lq].
  { apply Z.le_trans with (qlo * 2 ^ 1074 * (hi * 2 ^ 1074))%Z.
    - apply Z.mul_le_mono_nonneg_l; [|lia]. apply Z.mul_nonneg_nonneg; lia.
    - replace (qlo * 2 ^ 1074 * (hi * 2 ^ 1074))%Z
        with (qlo * hi * 2 ^ 1074 * 2 ^ 1074)%Z by ring.
      apply Z.mul_le_mono_nonneg_r; [lia|].
      apply Z.mul_le_mono_nonneg_r; lia. }
  rewrite (ext_finite _ Fq) in Lq. split; [exact Fq | split; assumption].
Qed.
(** [Math.round] of a finite number between two small integers. *)
Lemma round_band lo hi c :
  (Z.abs lo < 2 ^ 53)%Z -> (Z.abs hi < 2 ^ 53)%Z ->
  JS.isFinite c = true ->
  (lo * 2 ^ 1074 <= units c <= hi * 2 ^ 1074)%Z ->
  PrimFloat.leb (JS.of_Z lo) (JS.Math_round c) = true /\
  PrimFloat.leb (JS.Math_round c) (JS.of_Z hi) = true.
Proof.
  intros Hlo Hhi F H.
  destruct (of_Z_units lo Hlo) as [Fa Ua]. destruct (of_Z_units hi Hhi) as [Fb Ub].
  destruct (Math_round_units lo hi c Hlo Hhi F H) as [Fr [Rl Ru]].
  rewrite (leb_units _ _ Fa Fr), (leb_units _ _ Fr Fb), Ua, Ub.
  split; apply Z.leb_le; assumption.
Qed.

(** [Math.max(0, Math.min(100, v))] of a number. *)
Lemma clamp_number_0_100 v :
  PrimFloat.is_nan v = false ->
  PrimFloat.leb 0 (Spec.clamp 0 100 v) = true /\
  PrimFloat.leb (Spec.clamp 0 100 v) 100 = true.
Proof.
  intros N. unfold Spec.clamp.
  destruct (min2_ext 100 v eq_refl N) as [Nm Em].
  destruct (max2_ext 0 (JS.min2 100 v) eq_refl Nm) as [Nc Ec].
  rewrite (leb_ext 0 _ eq_refl Nc), (leb_ext _ 100 Nc eq_refl), Ec, Em.
  assert (E100 : ext 100 = (100 * 2 ^ 1074)%Z) by (vm_compute; reflexivity).
  assert (E0 : ext 0 = 0%Z) by reflexivity.
  assert (T : (0 < 2 ^ 1074)%Z) by reflexivity.
  rewrite E100, E0. split; apply Z.leb_le; lia.
Qed.

(** At 30 frames per second the intervals that pass the filter lie between
    12 and 45 frames, and the rate computed from at least one of them lies
    between 40 and 150. *)
Lemma bpm_range valid :
  valid <> [] -> (Z.of_nat (length valid) < 2 ^ 32)%Z ->
  Forall (fun i => PrimFloat.ltb (30 * 0.4) i = true /\
                   PrimFloat.ltb i (30 * 1.5) = true) valid ->
  PrimFloat.leb 40 (JS.Math_round (30 * 60 / Arr.mean valid)) = true /\
  PrimFloat.leb (JS.Math_round (30 * 60 / Arr.mean valid)) 150 = true.
Proof.
  intros Hne Hlen H.
  change (30 * 60)%float with (JS.of_Z 1800).
  assert (T : (0 < 2 ^ 1074)%Z) by reflexivity.
  assert (U12 : units 12 = (12 * 2 ^ 1074)%Z) by (vm_compute; reflexivity).
  assert (U45 : units 45 = (45 * 2 ^ 1074)%Z) by (vm_compute; reflexivity).
  assert (B : Forall (fun x => JS.isFinite x = true /\
                        (12 * 2 ^ 1074 <= units x <= 45 * 2 ^ 1074)%Z) valid).
  { eapply Forall_impl; [|exact H]. cbv beta. intros i [L U].
    change (30 * 0.4)%float with 12%float in L.
    change (30 * 1.5)%float with 45%float in U.
    pose proof (finite_between 12 45 i eq_refl eq_refl
                  (leb_of_ltb _ _ L) (leb_of_ltb _ _ U)) as Fi.
    rewrite (ltb_units 12 i eq_refl Fi), U12 in L.
    rewrite (ltb_units i 45 Fi eq_refl), U45 in U.
    apply Z.ltb_lt in L, U. split; [exact Fi | lia]. }
  assert (T32 : (45 * 2 ^ 32 < 2 ^ 53)%Z) by reflexivity.
  destruct (mean_between 12 45 valid ltac:(lia) Hne B ltac:(lia)) as [Fm Bm].
  destruct (quotient_between 1800 12 45 40 150 (Arr.mean valid)
              ltac:(lia) ltac:(lia) ltac:(split; [lia | reflexivity])
              ltac:(reflexivity) ltac:(lia) ltac:(lia) Fm Bm) as [Fq Bq].
  exact (round_band 40 150 _ ltac:(vm_compute; reflexivity)
           ltac:(vm_compute; reflexivity) Fq Bq).
Qed.

Lemma validIntervals_30 peaks :
  Forall (fun i => PrimFloat.ltb (30 * 0.4) i = true /\
                   PrimFloat.ltb i (30 * 1.5) = true)
         (HeartRateMonitor.validIntervals peaks 30).
Proof.
  unfold HeartRateMonitor.validIntervals. apply Forall_forall. intros i Hi.
  apply filter_In in Hi. destruct Hi as [_ Hi].
  apply andb_true_iff in Hi. destruct Hi as [Hi U].
  apply andb_true_iff in Hi. destruct Hi as [_ L].
  split; [exact L | exact U].
Qed.

Lemma validIntervals_length peaks fps :
  (length (HeartRateMonitor.validIntervals peaks fps) <= length peaks)%nat.
Proof.
  unfold HeartRateMonitor.validIntervals, HeartRateMonitor.intervalsOf.
  etransitivity; [apply filter_length_le|].
  rewrite consecutive_length. lia.
Qed.

(** C1, as amended. The interval filter of both estimators keeps the
    intervals that the stated filter keeps, except those equal to one of
    the bounds [0.4 * fps] and [1.5 * fps] (the code compares strictly).
    With at least 3 peaks and 2 surviving intervals [calculateHeartRate]
    returns [bpm = round(fps * 60 / mean(valid))], which at 30 frames per
    second lies between 40 and 150, and the confidence
    [max(0, min(100, 100 * (1 - v) * (1 - densityError)))] with [v] the
    standard deviation over the mean of all the intervals, which lies in
    [[0, 100]] whenever that product is a number.  A rate that
    [calculateHeartRateEnhanced] returns for at least 4 peaks and 3
    surviving intervals is that same [bpm]. *)
Theorem C1_heart_rate_as_computed :
  forall (peaks : list float) (totalFrames fps : float),
    let intervals := Arr.consecutive (fun prev cur => (cur - prev)%float) peaks in
    let mean := Arr.mean intervals in
    let stdDev := Arr.stdDevAround mean intervals in
    let valid := HeartRateMonitor.validIntervals peaks fps in
    let bpm := JS.Math_round (fps * 60 / Arr.mean valid)%float in
    let densityError :=
      JS.Math_abs
        (1 - JS.of_nat (length peaks) / (totalFrames / fps) / (bpm / 60))%float in
    let product := (100 * (1 - stdDev / mean) * (1 - densityError))%float in
    (valid
     = filter (fun i => negb (PrimFloat.eqb (fps * 0.4) i) &&
                        negb (PrimFloat.eqb i (fps * 1.5)))
              (Spec.validIntervals intervals fps) /\
     AIProcessingVisualizer.validIntervals peaks fps = valid) /\
    ((3 <= length peaks)%nat -> (2 <= length valid)%nat ->
     HeartRateMonitor.calculateHeartRate peaks totalFrames fps
     = (bpm, Spec.clamp 0 100 product) /\
     (PrimFloat.is_nan product = false ->
      PrimFloat.leb 0 (Spec.clamp 0 100 product) = true /\
      PrimFloat.leb (Spec.clamp 0 100 product) 100 = true) /\
     (fps = 30%float -> (Z.of_nat (length peaks) < 2 ^ 32)%Z ->
      PrimFloat.leb 40 bpm = true /\ PrimFloat.leb bpm 150 = true)) /\
    ((4 <= length peaks)%nat -> (3 <= length valid)%nat ->
     forall bpm' confidence' : float,
       AIProcessingVisualizer.calculateHeartRateEnhanced peaks totalFrames fps
       = JS.Normal (bpm', confidence') ->
       bpm' = bpm).
Proof.
  intros peaks totalFrames fps intervals mean stdDev valid bpm densityError
         product.
  assert (E2 : AIProcessingVisualizer.validIntervals peaks fps = valid)
    by reflexivity.
  split; [split; [apply validIntervals_strict | exact E2]|]. split.
  - intros Hp Hv. split; [|split].
    + unfold HeartRateMonitor.calculateHeartRate.
      apply Nat.ltb_ge in Hp. rewrite Hp. cbv zeta. fold valid.
      apply Nat.ltb_ge in Hv. rewrite Hv. reflexivity.
    + apply clamp_number_0_100.
    + intros -> Hlen. subst bpm. apply bpm_range.
      * destruct valid; [cbn [length] in Hv; lia | discriminate].
      * pose proof (validIntervals_length peaks 30). fold valid in H. lia.
      * apply validIntervals_30.
  - intros Hp Hv bpm' confidence'.
    unfold AIProcessingVisualizer.calculateHeartRateEnhanced.
    apply Nat.ltb_ge in Hp. rewrite Hp. cbv zeta. rewrite E2.
    apply Nat.ltb_ge in Hv. rewrite Hv.
    destruct (AIProcessingVisualizer.signalStrength peaks totalFrames)
      as [strength|e]; cbn [JS.bind]; [|discriminate].
    intros H. injection H as H _. symmetry. exact H.
Qed.

(** Five beats 25 frames apart: 72 BPM from the basic estimator, and from
    the enhanced one when no peak index is below [totalFrames]. *)
Lemma C1_heart_rate_as_computed_witness :
  HeartRateMonitor.calculateHeartRate [0; 25; 50; 75; 100]%float 300 30
  = (72, 41.666666666666671)%float /\
  PrimFloat.leb 0 41.666666666666671 = true /\
  PrimFloat.leb 40 72 = true /\
  AIProcessingVisualizer.calculateHeartRateEnhanced
    [300; 325; 350; 375; 400]%float 300 30
  = JS.Normal (72, 0)%float /\
  JS.Math_round
    (30 * 60 / Arr.mean (HeartRateMonitor.validIntervals
                           [300; 325; 350; 375; 400] 30))%float
  = 72%float.
Proof.
  pose proof (C1_heart_rate_as_computed [0; 25; 50; 75; 100]%float 300 30) as H.
  pose proof (C1_heart_rate_as_computed
                [300; 325; 350; 375; 400]%float 300 30) as K.
  cbv zeta in H, K.
  destruct H as [_ [Hb _]]. destruct K as [_ [_ He]].
  destruct Hb as [Hv [Hc Hr]]; [simpl; lia | vm_compute; lia |].
  destruct (Hc ltac:(vm_compute; reflexivity)) as [C0 _].
  destruct (Hr eq_refl ltac:(vm_compute; reflexivity)) as [R40 _].
  assert (E : AIProcessingVisualizer.calculateHeartRateEnhanced
                [300; 325; 350; 375; 400]%float 300 30
              = JS.Normal (72, 0)%float) by (vm_compute; reflexivity).
  pose proof (He ltac:(simpl; lia) ltac:(vm_compute; lia) _ _ E) as Hbpm.
  split; [rewrite Hv; vm_compute; reflexivity|].
  split; [vm_compute in C0; exact C0|].
  split; [vm_compute in R40; exact R40|].
  split; [exact E | symmetry; exact Hbpm].
Defined.

(** C1, counterexample. An interval of exactly [0.4 * fps] is dropped, not
    kept, so four beats 12 frames apart give the sentinel; the basic
    confidence uses the variability of all the intervals, not of the
    surviving ones; and for five beats inside the window the enhanced
    estimator returns no rate and confidence at all. *)
Lemma C1_estimators_differ_from_stated_formulas :
  Spec.heartRate 3 2 [0; 12; 24; 36]%float 300 30
  = (150, 16.000000000000004)%float /\
  HeartRateMonitor.calculateHeartRate [0; 12; 24; 36]%float 300 30
  = (0, 0)%float /\
  Spec.heartRate 3 2 [0; 25; 50; 75; 100; 200]%float 300 30
  = (72, 50)%float /\
  HeartRateMonitor.calculateHeartRate [0; 25; 50; 75; 100; 200]%float 300 30
  = (72, 12.5)%float /\
  Spec.heartRate 4 3 [0; 25; 50; 75; 100]%float 300 30
  = (72, 41.666666666666671)%float /\
  AIProcessingVisualizer.calculateHeartRateEnhanced
    [0; 25; 50; 75; 100]%float 300 30
  = JS.Throw (JS.ReferenceError "frameDataRef").
Proof.
  repeat split; vm_compute; reflexivity.
Qed.

(* ================================================================== *)
(** * Normalization *)
(* ================================================================== *)

Lemma attained_In v l :
  In v l -> PrimFloat.eqb v v = true -> (1 <= Spec.attained v l)%nat.
Proof.
  intros Hin Hv. unfold Spec.attained.
  assert (In v (filter (fun y => PrimFloat.eqb y v) l))
    by (apply filter_In; split; assumption).
  destruct (filter (fun y => PrimFloat.eqb y v) l); [contradiction | simpl; lia].
Qed.

Section Normalize.

Variable data : list float.
Hypothesis finite_data : Forall (fun x => JS.isFinite x = true) data.
Hypothesis non_degenerate :
  PrimFloat.ltb (JS.Math_min data) (JS.Math_max data) = true.
Hypothesis finite_span :
  JS.isFinite (JS.Math_max data - JS.Math_min data)%float = true.

Local Abbreviation mn := (JS.Math_min data).
Local Abbreviation mx := (JS.Math_max data).

Lemma normalize_nonempty : data <> [].
Proof.
  intros E. rewrite E in non_degenerate. vm_compute in non_degenerate.
  discriminate.
Qed.

Lemma normalize_span :
  JS.isFinite mn = true /\ JS.isFinite mx = true /\
  units (mx - mn)%float = RN (units mx - units mn) /\
  (0 < units (mx - mn)%float)%Z.
Proof.
  destruct (Math_min_spec data normalize_nonempty finite_data) as [Fmn _].
  destruct (Math_max_spec data normalize_nonempty finite_data) as [Fmx _].
  pose proof non_degenerate as Hlt. rewrite (ltb_units _ _ Fmn Fmx) in Hlt.
  apply Z.ltb_lt in Hlt.
  assert (O : (0 < overflow)%Z) by reflexivity.
  destruct (returns_cases _ _ (sub_returns mx mn Fmx Fmn))
    as [[_ [_ U]]|[[_ E]|[_ E]]];
    try (rewrite E in finite_span; discriminate).
  repeat split; try assumption. rewrite U.
  assert (RN 1 <= RN (units mx - units mn))%Z by (apply RN_mono; lia).
  change (RN 1) with 1%Z in *. lia.
Qed.

(** The numerator [x - min] of a sample is finite and within the span. *)
Lemma normalize_numerator x :
  In x data ->
  JS.isFinite (x - mn)%float = true /\
  (0 <= units (x - mn)%float <= units (mx - mn)%float)%Z.
Proof.
  intros Hin.
  destruct (Math_min_spec data normalize_nonempty finite_data) as [Fmn [_ Hmin]].
  destruct (Math_max_spec data normalize_nonempty finite_data) as [Fmx [_ Hmax]].
  destruct normalize_span as [_ [_ [Us Ps]]].
  rewrite Forall_forall in Hmin, Hmax, finite_data.
  pose proof (Hmin x Hin) as Hl. pose proof (Hmax x Hin) as Hu.
  pose proof (finite_data x Hin) as Fx.
  destruct (units_valid _ finite_span) as [_ Bs].
  assert (R0 : (0 <= RN (units x - units mn))%Z)
    by (change 0%Z with (RN 0) at 1; apply RN_mono; lia).
  assert (R1 : (RN (units x - units mn) <= units (mx - mn)%float)%Z)
    by (rewrite Us; apply RN_mono; lia).
  destruct (returns_cases _ _ (sub_returns x mn Fx Fmn))
    as [[_ [F U]]|[[Hov _]|[Hov _]]]; try lia.
  split; [exact F | rewrite U; lia].
Qed.

Lemma monitor_unit_range :
  Forall Spec.inUnitRange (HeartRateMonitor.normalizeSignal data).
Proof.
  unfold HeartRateMonitor.normalizeSignal. apply Forall_forall.
  intros y Hy. apply in_map_iff in Hy. destruct Hy as [x [<- Hin]].
  destruct (normalize_numerator x Hin) as [F B].
  destruct normalize_span as [_ [_ [_ Ps]]].
  apply div_unit_range; assumption.
Qed.

(** The visualizer's denominator: at least the span, or infinite. *)
Lemma visualizer_denominator :
  (mx - mn + 0.0001)%float = infinity \/
  (JS.isFinite (mx - mn + 0.0001)%float = true /\
   (units (mx - mn)%float <= units (mx - mn + 0.0001)%float)%Z).
Proof.
  destruct (units_valid _ finite_span) as [Is Bs].
  assert (E : (0 < units 0.0001)%Z) by reflexivity.
  assert (R : (units (mx - mn)%float
               <= RN (units (mx - mn)%float + units 0.0001))%Z).
  { rewrite <- Is at 1. apply RN_mono. lia. }
  destruct normalize_span as [_ [_ [_ Ps]]].
  destruct (returns_cases _ _ (add_returns _ 0.0001%float finite_span eq_refl))
    as [[_ [F U]]|[[_ Ei]|[Hov _]]].
  - right. split; [exact F | rewrite U; exact R].
  - left. exact Ei.
  - assert (0 < overflow)%Z by reflexivity. lia.
Qed.

Lemma visualizer_unit_range :
  Forall Spec.inUnitRange (AIProcessingVisualizer.normalizeSignal data).
Proof.
  unfold AIProcessingVisualizer.normalizeSignal. apply Forall_forall.
  intros y Hy. apply in_map_iff in Hy. destruct Hy as [x [<- Hin]].
  destruct (normalize_numerator x Hin) as [F B].
  destruct normalize_span as [_ [_ [_ Ps]]].
  destruct visualizer_denominator as [E|[Fd Hd]].
  - rewrite E. apply finite_div_inf. exact F.
  - apply div_unit_range; try assumption; lia.
Qed.

Lemma ltb_zero_units d :
  JS.isFinite d = true -> (0 < units d)%Z -> PrimFloat.ltb 0 d = true.
Proof.
  intros F H. rewrite (ltb_units 0 d eq_refl F). apply Z.ltb_lt. exact H.
Qed.

(** At an index holding the minimum both outputs are [0]; at an index
    holding the maximum the monitor's output is [1]. *)
Lemma normalize_at_extremes :
  ((mn - mn) / (mx - mn) = 0)%float /\
  ((mn - mn) / (mx - mn + 0.0001) = 0)%float /\
  ((mx - mn) / (mx - mn) = 1)%float.
Proof.
  destruct normalize_span as [Fmn [Fmx [_ Ps]]].
  rewrite (sub_self mn Fmn). split; [|split].
  - apply zero_div_pos. apply ltb_zero_units; assumption.
  - apply zero_div_pos. destruct visualizer_denominator as [E|[Fd Hd]].
    + rewrite E. reflexivity.
    + apply ltb_zero_units; [assumption | lia].
  - apply div_self; [exact finite_span | lia].
Qed.

End Normalize.

(** The extremes of a window that repeats one finite sample. *)
Lemma extremes_repeat v n :
  JS.isFinite v = true ->
  JS.Math_min (repeat v (S n)) = v /\ JS.Math_max (repeat v (S n)) = v.
Proof.
  intros F.
  assert (N : repeat v (S n) <> []) by discriminate.
  assert (A : Forall (fun x => JS.isFinite x = true) (repeat v (S n))).
  { apply Forall_forall. intros x Hx. apply repeat_spec in Hx. subst x.
    exact F. }
  destruct (Math_min_spec _ N A) as [_ [Imin _]].
  destruct (Math_max_spec _ N A) as [_ [Imax _]].
  split; eapply repeat_spec; eassumption.
Qed.

(** C3, on every flat window. On a window that repeats one finite sample
    the monitor's [normalizeSignal] divides [0] by [0] and returns NaN at
    every index, where the visualizer's [normalizeSignal], whose denominator
    carries [+ 0.0001], returns zeros. *)
Theorem C3_flat_window_monitor_returns_NaN :
  forall (v : float) (n : nat),
    JS.isFinite v = true ->
    HeartRateMonitor.normalizeSignal (repeat v (S n)) = repeat nan (S n) /\
    AIProcessingVisualizer.normalizeSignal (repeat v (S n))
    = repeat 0%float (S n).
Proof.
  intros v n F. destruct (extremes_repeat v n F) as [Emin Emax].
  unfold HeartRateMonitor.normalizeSignal,
    AIProcessingVisualizer.normalizeSignal.
  cbv zeta. rewrite Emin, Emax, !map_repeat, (sub_self v F).
  split; reflexivity.
Qed.

(** The window [5, 5, 5]. *)
Lemma C3_flat_window_monitor_returns_NaN_witness :
  HeartRateMonitor.normalizeSignal [5; 5; 5]%float = [nan; nan; nan]%float /\
  AIProcessingVisualizer.normalizeSignal [5; 5; 5]%float = [0; 0; 0]%float.
Proof.
  exact (C3_flat_window_monitor_returns_NaN 5%float 2 eq_refl).
Defined.

(** C5, counterexample. In the window [1, 1, 2] the minimum is held twice, so
    the monitor's output is [0] at two indices; the visualizer's output never
    reaches [1], its maximum being [0.9999...]. *)
Lemma C5_extremes_not_attained_exactly_once :
  HeartRateMonitor.normalizeSignal [1; 1; 2]%float = [0; 0; 1]%float /\
  Spec.attained 0 (HeartRateMonitor.normalizeSignal [1; 1; 2]%float) = 2%nat /\
  AIProcessingVisualizer.normalizeSignal [1; 1; 2]%float
  = [0; 0; 0.99990000999900008]%float /\
  Spec.attained 1 (AIProcessingVisualizer.normalizeSignal [1; 1; 2]%float)
  = 0%nat.
Proof.
  repeat split; vm_compute; reflexivity.
Qed.

(** The span of finite samples may overflow: the monitor then divides an
    infinite numerator by an infinite span. *)
Example normalize_span_overflow :
  Forall (fun x => JS.isFinite x = true) [-1e308; 1e308]%float /\
  JS.isFinite (JS.Math_max [-1e308; 1e308] - JS.Math_min [-1e308; 1e308])%float
  = false /\
  HeartRateMonitor.normalizeSignal [-1e308; 1e308]%float = [0; nan]%float.
Proof.
  split; [repeat constructor|]. split; vm_compute; reflexivity.
Qed.

(** C5, as amended. For a window of finite samples whose maximum is strictly
    greater than its minimum and whose span [max - min] does not overflow,
    every element of both outputs lies in [[0, 1]]; at every index holding
    the minimum both outputs are [0], and at every index holding the maximum
    the monitor's output is [1].  So [0] is attained at least once in both
    outputs and [1] at least once in the monitor's. *)
Theorem C5_normalize_range_and_extremes :
  forall data : list float,
    Forall (fun x => JS.isFinite x = true) data ->
    PrimFloat.ltb (JS.Math_min data) (JS.Math_max data) = true ->
    JS.isFinite (JS.Math_max data - JS.Math_min data)%float = true ->
    let monitor := HeartRateMonitor.normalizeSignal data in
    let visualizer := AIProcessingVisualizer.normalizeSignal data in
    Forall Spec.inUnitRange monitor /\
    Forall Spec.inUnitRange visualizer /\
    (forall i : nat,
        nth_error data i = Some (JS.Math_min data) ->
        nth_error monitor i = Some 0%float /\
        nth_error visualizer i = Some 0%float) /\
    (forall i : nat,
        nth_error data i = Some (JS.Math_max data) ->
        nth_error monitor i = Some 1%float) /\
    (1 <= Spec.attained 0 monitor)%nat /\
    (1 <= Spec.attained 0 visualizer)%nat /\
    (1 <= Spec.attained 1 monitor)%nat.
Proof.
  intros data F Hlt Hspan monitor visualizer.
  pose proof (normalize_nonempty data Hlt) as Hne.
  destruct (normalize_at_extremes data F Hlt Hspan) as [E0 [E0' E1]].
  destruct (Math_min_spec data Hne F) as [_ [Imin _]].
  destruct (Math_max_spec data Hne F) as [_ [Imax _]].
  split; [apply monitor_unit_range; assumption|].
  split; [apply visualizer_unit_range; assumption|].
  split; [|split; [|split; [|split]]].
  - intros i Hi. subst monitor visualizer.
    unfold HeartRateMonitor.normalizeSignal,
      AIProcessingVisualizer.normalizeSignal.
    cbv zeta. rewrite !nth_error_map, Hi. cbn [option_map].
    rewrite E0, E0'. split; reflexivity.
  - intros i Hi. subst monitor.
    unfold HeartRateMonitor.normalizeSignal.
    cbv zeta. rewrite nth_error_map, Hi. cbn [option_map].
    rewrite E1. reflexivity.
  - apply attained_In; [|reflexivity]. subst monitor.
    unfold HeartRateMonitor.normalizeSignal. cbv zeta.
    apply in_map_iff. eexists. split; [exact E0 | exact Imin].
  - apply attained_In; [|reflexivity]. subst visualizer.
    unfold AIProcessingVisualizer.normalizeSignal. cbv zeta.
    apply in_map_iff. eexists. split; [exact E0' | exact Imin].
  - apply attained_In; [|reflexivity]. subst monitor.
    unfold HeartRateMonitor.normalizeSignal. cbv zeta.
    apply in_map_iff. eexists. split; [exact E1 | exact Imax].
Qed.

(** The window [3, 1, 2]. *)
Lemma C5_normalize_range_and_extremes_witness :
  Forall Spec.inUnitRange (HeartRateMonitor.normalizeSignal [3; 1; 2]%float) /\
  nth_error (HeartRateMonitor.normalizeSignal [3; 1; 2]%float) 0
  = Some 1%float.
Proof.
  pose proof (C5_normalize_range_and_extremes [3; 1; 2]%float) as H.
  cbv zeta in H.
  destruct H as [H1 [_ [_ [H4 _]]]].
  - repeat constructor.
  - vm_compute. reflexivity.
  - vm_compute. reflexivity.
  - split; [exact H1 | apply H4; vm_compute; reflexivity].
Defined.

(* ================================================================== *)
(** * Sub-sample refinement *)
(* ================================================================== *)

(** C6, as amended. Every value returned by [findPeaksEnhanced] is
    [i + (a - c) / (2 * (a - 2 * b + c))] for an integer index [i] of the
    smoothed signal with neighbours [a], [b], [c] at [i - 1], [i], [i + 1]
    and [b] strictly greater than both [a] and [c]; the quotient is computed
    as written, with no test of the denominator.  When the smoothed samples
    are all finite, the denominator at every returned peak is a number other
    than zero; when the samples of the window are at most [1e300] in
    magnitude and fewer than [2^32], every returned peak is finite and within
    one sample of its integer index. *)
Theorem C6_refined_peak_formula :
  forall (data : list float) (minDistance : Z) (adaptiveThreshold : bool),
    let smoothedData := AIProcessingVisualizer.movingAverage data 3 in
    Forall (fun p => exists i : Z,
                let a := JS.get smoothedData (i - 1) in
                let b := JS.get smoothedData i in
                let c := JS.get smoothedData (i + 1) in
                p = (JS.of_Z i + (a - c) / (2 * (a - 2 * b + c)))%float /\
                JS.gtb b a = true /\ JS.gtb b c = true /\
                (Forall (fun x => JS.isFinite x = true) smoothedData ->
                 nonzeroNumber (2 * (a - 2 * b + c))%float) /\
                (Forall Spec.bounded data ->
                 (Arr.len data < 2 ^ 32)%Z ->
                 JS.isFinite p = true /\
                 PrimFloat.leb (JS.of_Z (i - 1)) p = true /\
                 PrimFloat.leb p (JS.of_Z (i + 1)) = true))
           (AIProcessingVisualizer.findPeaksEnhanced
              data minDistance adaptiveThreshold).
Proof.
  intros data minDistance adaptiveThreshold smoothedData.
  unfold AIProcessingVisualizer.findPeaksEnhanced.
  fold smoothedData. rewrite peakLoop_map.
  pose proof (peakLoop_localMax smoothedData
                (AIProcessingVisualizer.peakThreshold smoothedData adaptiveThreshold)
                minDistance) as H.
  destruct (peakLoop_inv smoothedData
              (AIProcessingVisualizer.peakThreshold smoothedData adaptiveThreshold)
              minDistance) as [_ R].
  assert (L : Arr.len smoothedData = Arr.len data).
  { unfold Arr.len, smoothedData, AIProcessingVisualizer.movingAverage.
    rewrite movingAverage_length. reflexivity. }
  rewrite L in R.
  apply Forall_forall. intros p Hp. apply in_map_iff in Hp.
  destruct Hp as [i [<- Hi]]. rewrite Forall_forall in H, R.
  specialize (H i Hi). specialize (R i Hi). cbv beta in R.
  exists i. split; [reflexivity|].
  unfold Arr.localMax in H. repeat rewrite andb_true_iff in H.
  destruct H as [[[[_ H1] _] H2] _].
  split; [exact H1|]. split; [exact H2|]. split.
  - intros F. unfold JS.gtb in H1, H2.
    destruct (ltb_not_nan _ _ H1) as [Na Nb].
    destruct (ltb_not_nan _ _ H2) as [Nc _].
    apply offset_denominator_nonzero; try assumption;
      apply get_finite; assumption.
  - intros B Hlen.
    apply (refinedPeak_bounded smoothedData i (smoothed_within data B));
      [lia | exact H1 | exact H2].
Qed.

(** The two pulses of [Samples.twoPulses]: at each returned peak the
    denominator is a nonzero number and the peak is finite. *)
Lemma C6_refined_peak_formula_witness :
  let smoothedData :=
    AIProcessingVisualizer.movingAverage Samples.twoPulses 3 in
  Forall (fun p => exists i : Z,
              p = AIProcessingVisualizer.refinedPeak smoothedData i /\
              nonzeroNumber
                (2 * (JS.get smoothedData (i - 1) - 2 * JS.get smoothedData i
                      + JS.get smoothedData (i + 1)))%float /\
              JS.isFinite p = true)
         (AIProcessingVisualizer.findPeaksEnhanced Samples.twoPulses 5 false).
Proof.
  intros smoothedData.
  pose proof (C6_refined_peak_formula Samples.twoPulses 5 false) as H.
  cbv zeta in H. fold smoothedData in H.
  eapply Forall_impl; [|exact H].
  intros p [i [E [_ [_ [Hd Hb]]]]]. exists i. split; [exact E|]. split.
  - apply Hd. apply Forall_forall, forallb_forall. vm_compute. reflexivity.
  - apply Hb; [|reflexivity].
    apply Forall_forall,
      (forallb_forall (fun x => PrimFloat.leb (JS.Math_abs x) 1e300)).
    vm_compute. reflexivity.
Defined.

(** C6, counterexample. The offset has no guard: on a collinear triple it is
    [0 / 0], not [0]; and on the finite samples [Samples.hugeSwing] the
    enhanced detector returns a NaN peak. *)
Lemma C6_offset_unguarded_and_peak_not_finite :
  AIProcessingVisualizer.peakOffset [1; 1; 1]%float 1 = nan /\
  Forall (fun x => JS.isFinite x = true) Samples.hugeSwing /\
  AIProcessingVisualizer.findPeaksEnhanced Samples.hugeSwing 10 false = [nan].
Proof.
  split; [vm_compute; reflexivity|]. split; [|vm_compute; reflexivity].
  repeat constructor.
Qed.

(* ================================================================== *)
(** * Oxygen saturation and heart-rate variability *)
(* ================================================================== *)

(** C7, as amended. [calculateSpO2] returns the sentinel [(0, 0)] with fewer
    than 60 samples and also outside finger mode.  Otherwise, for every value
    of [Math.random()], the returned SpO2 is
    [min(100, max(70, 110 - 25 * R + jitter + bias))] rounded to one decimal,
    and it lies in [[70, 100]] whenever the ratio [R] is a number. *)
Theorem C7_spo2_as_computed :
  forall (mode : AIProcessingVisualizer.MeasurementMode) (random : float)
         (redValues : list float) (frameCount : float),
    ((length redValues < 60)%nat \/ mode <> AIProcessingVisualizer.finger ->
     AIProcessingVisualizer.calculateSpO2 mode random redValues frameCount
     = (0, 0)%float) /\
    ((60 <= length redValues)%nat -> mode = AIProcessingVisualizer.finger ->
     let normalizedRed := AIProcessingVisualizer.normalizeSignal redValues in
     let mean := Arr.mean normalizedRed in
     let R := (Arr.stdDevAround mean normalizedRed / mean)%float in
     let raw := (110 - 25 * R)%float in
     let jitter := ((random * 2 - 1) * 0.5)%float in
     let bias :=
       if PrimFloat.ltb raw 95 then 0.5%float
       else if PrimFloat.ltb 99 raw then (-0.3)%float else 0%float in
     let clamped := JS.min2 100 (JS.max2 70 (raw + (jitter + bias))%float) in
     let spo2 :=
       fst (AIProcessingVisualizer.calculateSpO2
              mode random redValues frameCount) in
     spo2 = (JS.Math_round (clamped * 10) / 10)%float /\
     (PrimFloat.is_nan R = false ->
      PrimFloat.leb 0 random = true -> PrimFloat.leb random 1 = true ->
      PrimFloat.leb 70 spo2 = true /\ PrimFloat.leb spo2 100 = true)).
Proof.
  intros mode random redValues frameCount. split.
  - intros H. unfold AIProcessingVisualizer.calculateSpO2.
    destruct H as [H|H].
    + apply Nat.ltb_lt in H. rewrite H. reflexivity.
    + destruct mode; try congruence; rewrite orb_true_r; reflexivity.
  - intros Hlen -> normalizedRed mean R raw jitter bias clamped spo2.
    assert (E : spo2 = (JS.Math_round (clamped * 10) / 10)%float).
    { subst spo2. unfold AIProcessingVisualizer.calculateSpO2.
      apply Nat.ltb_ge in Hlen. rewrite Hlen. reflexivity. }
    split; [exact E|].
    intros NR H0 H1. rewrite E.
    pose proof (spo2_number R random NR H0 H1) as Hv. cbv zeta in Hv.
    destruct (min_max_range 70 100 (raw + (jitter + bias))%float
                eq_refl eq_refl eq_refl Hv) as [Hl Hu].
    apply round_tenth_in_range; assumption.
Qed.

(** Sixty sawtooth frames in finger mode. *)
Lemma C7_spo2_as_computed_witness :
  fst (AIProcessingVisualizer.calculateSpO2
         AIProcessingVisualizer.finger 0.5 Samples.sawtooth 60)
  = 93.400000000000006%float /\
  PrimFloat.leb 70 (fst (AIProcessingVisualizer.calculateSpO2
         AIProcessingVisualizer.finger 0.5 Samples.sawtooth 60)) = true /\
  PrimFloat.leb (fst (AIProcessingVisualizer.calculateSpO2
         AIProcessingVisualizer.finger 0.5 Samples.sawtooth 60)) 100 = true /\
  AIProcessingVisualizer.calculateSpO2
    AIProcessingVisualizer.finger 0.5 [1; 2]%float 2 = (0, 0)%float.
Proof.
  pose proof (C7_spo2_as_computed
                AIProcessingVisualizer.finger 0.5 Samples.sawtooth 60) as [_ H1].
  pose proof (C7_spo2_as_computed
                AIProcessingVisualizer.finger 0.5 [1; 2]%float 2) as [H2 _].
  cbv zeta in H1.
  destruct H1 as [E R]; [vm_compute; lia | reflexivity |].
  destruct R as [Rl Ru]; [vm_compute; reflexivity ..|].
  split; [|split; [|split]].
  - rewrite E. vm_compute. reflexivity.
  - exact Rl.
  - exact Ru.
  - apply H2. left. simpl. lia.
Defined.

(** C7, counterexample. With sixty frames available the returned value need
    not lie in [[70, 100]]: outside finger mode it is the sentinel [0], and on
    a saturated (flat) red channel it is NaN. *)
Lemma C7_spo2_outside_clamped_range :
  length Samples.sawtooth = 60%nat /\
  AIProcessingVisualizer.calculateSpO2
    AIProcessingVisualizer.face 0.5 Samples.sawtooth 60 = (0, 0)%float /\
  length Samples.saturated = 60%nat /\
  AIProcessingVisualizer.calculateSpO2
    AIProcessingVisualizer.finger 0.5 Samples.saturated 60 = (nan, 60)%float /\
  PrimFloat.leb 70 nan = false.
Proof.
  repeat split; vm_compute; reflexivity.
Qed.

(** C8, as amended. For at least three peaks whose consecutive intervals, in
    milliseconds as [calculateHRV] computes them, all equal one finite value
    [d], [rmssd] is [0].  [sdnn] need not be [0]: for [0 < d <= 16384] it is
    [0] for exactly three peaks, and for up to 513 peaks it lies between [0]
    and [1e-8]. *)
Theorem C8_regular_rhythm_hrv :
  forall (peaks : list float) (fps d : float),
    (3 <= length peaks)%nat ->
    JS.isFinite d = true ->
    Arr.consecutive (fun prev peak => ((peak - prev) * (1000 / fps))%float) peaks
    = repeat d (length peaks - 1) ->
    let hrv := HeartRateMonitor.calculateHRV peaks fps in
    HeartRateMonitor.rmssd hrv = 0%float /\
    (PrimFloat.ltb 0 d = true -> PrimFloat.leb d 16384 = true ->
     (length peaks = 3%nat -> HeartRateMonitor.sdnn hrv = 0%float) /\
     ((length peaks <= 513)%nat ->
      PrimFloat.leb 0 (HeartRateMonitor.sdnn hrv) = true /\
      PrimFloat.leb (HeartRateMonitor.sdnn hrv) 1e-8 = true)).
Proof.
  intros peaks fps d Hlen Hd Hreg hrv. subst hrv.
  unfold HeartRateMonitor.calculateHRV.
  cbn [HeartRateMonitor.rmssd HeartRateMonitor.sdnn].
  rewrite Hreg.
  destruct (length peaks - 1)%nat as [|n] eqn:En; [lia|].
  split.
  - rewrite consecutive_repeat, repeat_length.
    rewrite sub_self by assumption. change (JS.Math_pow2 0) with 0%float.
    unfold JS.sum. rewrite sum_repeat_zero.
    rewrite zero_div_pos by (apply of_nat_pos; lia). reflexivity.
  - intros Hpos Hle.
    assert (Hu : (0 < units d <= 2 ^ 1088)%Z).
    { rewrite (ltb_units 0 d eq_refl Hd) in Hpos.
      rewrite (leb_units d 16384 Hd eq_refl) in Hle.
      apply Z.ltb_lt in Hpos. apply Z.leb_le in Hle.
      change (units 0) with 0%Z in Hpos.
      change (units 16384) with (2 ^ 1088)%Z in Hle. lia. }
    split.
    + intros L3. replace (S n) with 2%nat by lia.
      rewrite (mean_pair d Hd Hu).
      apply stdDevAround_repeat; [assumption | lia].
    + intros L513.
      destruct (stdDev_repeat_small d (S n) Hd Hu ltac:(lia)) as [Fs Us].
      cbv zeta in Fs, Us.
      set (sd := Arr.stdDevAround (Arr.mean (repeat d (S n))) (repeat d (S n)))
        in *.
      rewrite (leb_units 0 sd eq_refl Fs), (leb_units sd 1e-8 Fs eq_refl).
      change (units 0) with 0%Z.
      assert (T : (2 ^ 1047 <= units 1e-8)%Z) by (vm_compute; discriminate).
      split; apply Z.leb_le; lia.
Qed.

(** Three beats 25 frames apart at 30 fps, and the twelve beats of
    [Samples.regularBeats]. *)
Lemma C8_regular_rhythm_hrv_witness :
  (HeartRateMonitor.rmssd
     (HeartRateMonitor.calculateHRV [0; 25; 50]%float 30) = 0%float /\
   HeartRateMonitor.sdnn
     (HeartRateMonitor.calculateHRV [0; 25; 50]%float 30) = 0%float) /\
  (HeartRateMonitor.rmssd
     (HeartRateMonitor.calculateHRV Samples.regularBeats 30) = 0%float /\
   PrimFloat.leb
     (HeartRateMonitor.sdnn
        (HeartRateMonitor.calculateHRV Samples.regularBeats 30)) 1e-8 = true).
Proof.
  split.
  - destruct (C8_regular_rhythm_hrv [0; 25; 50]%float 30 833.33333333333337%float)
      as [Hr Hs]; [simpl; lia | reflexivity | vm_compute; reflexivity |].
    split; [exact Hr|].
    destruct Hs as [H3 _]; [reflexivity | reflexivity |].
    apply H3. reflexivity.
  - destruct (C8_regular_rhythm_hrv Samples.regularBeats 30 466.66666666666669%float)
      as [Hr Hs]; [vm_compute; lia | reflexivity | vm_compute; reflexivity |].
    split; [exact Hr|].
    destruct Hs as [_ Hb]; [reflexivity | reflexivity |].
    apply Hb. vm_compute. lia.
Defined.

(** C8, counterexample. Twelve beats exactly 14 frames apart at 30 fps: the
    successive differences vanish but the mean of the eleven equal intervals
    is not the interval itself, and [sdnn] is a rounding residue, not [0]. *)
Lemma C8_regular_beats_sdnn_not_zero :
  HeartRateMonitor.intervalsOf Samples.regularBeats = repeat 14%float 11 /\
  HeartRateMonitor.rmssd (HeartRateMonitor.calculateHRV Samples.regularBeats 30)
  = 0%float /\
  HeartRateMonitor.sdnn (HeartRateMonitor.calculateHRV Samples.regularBeats 30)
  = 5.6843418860808015e-14%float /\
  PrimFloat.eqb
    (HeartRateMonitor.sdnn (HeartRateMonitor.calculateHRV Samples.regularBeats 30))
    0 = false.
Proof.
  repeat split; vm_compute; reflexivity.
Qed.

(* ================================================================== *)
(** * Stopping a measurement *)
(* ================================================================== *)



